(** * Plorth: the string rope and the string prototype

    A shallow embedding of the string value of the Plorth interpreter
    (its three shapes [simple_string], [concat_string] and [substring]),
    of the part of the execution context the string words go through, and
    of the words of the string prototype, followed by the properties of
    the specification that concern them. *)

From Stdlib Require Import ZArith QArith.
From stdpp Require Import base tactics option list numbers strings.

Local Open Scope Z_scope.

(** ** Machine integers *)

(** A Unicode code point, [char32_t] in the source. *)
Abbreviation unichar := Z (only parsing).

(** [std::u32string]. *)
Abbreviation unistring := (list Z) (only parsing).

(** [string::size_type] is [std::size_t]: an unsigned 64-bit integer,
    carried as a [Z] in the range [0, 2^64); every result of arithmetic on
    it goes through [wrap_size]. *)
Abbreviation size_type := Z (only parsing).

Definition size_modulus : Z := 2 ^ 64.

Definition wrap_size (z : Z) : size_type := z mod size_modulus.

(** [std::int64_t]: results of arithmetic go through [wrap_int64]. *)
Definition int64_min : Z := - 2 ^ 63.
Definition int64_max : Z := 2 ^ 63 - 1.

Definition wrap_int64 (z : Z) : Z := (z + 2 ^ 63) mod 2 ^ 64 - 2 ^ 63.

(** The code points of an ASCII literal, the source's [U"..."]. *)
Fixpoint U (s : String.string) : unistring :=
  match s with
  | EmptyString => []
  | String a rest => Z.of_nat (Ascii.nat_of_ascii a) :: U rest
  end.

(** ** The string rope *)

(** The three classes behind the abstract [string] interface.  A
    [simple_string] owns its buffer, whose size is its [m_length]; the
    other two hold references to strings that are never modified after
    construction, so a child reference is carried as the child itself. *)
Inductive string : Type :=
| simple_string (m_chars : unistring)
| concat_string (m_left m_right : string)
| substring (m_original : string) (m_offset m_length : size_type).

(** [string::length], dispatched over the three classes. *)
Fixpoint string_length (s : string) : size_type :=
  match s with
  | simple_string m_chars => Z.of_nat (length m_chars)
  | concat_string m_left m_right =>
      wrap_size (string_length m_left + string_length m_right)
  | substring _ _ m_length => m_length
  end.

(** [string::at].  [simple_string::at] is [m_chars[offset]] with no bounds
    check: a read outside the buffer has no defined result, which is
    [None] here (an [offset] is unsigned, so there is no read below the
    buffer). *)
Fixpoint string_at (s : string) (offset : size_type) : option unichar :=
  match s with
  | simple_string m_chars =>
      if bool_decide (0 ≤ offset) then m_chars !! Z.to_nat offset else None
  | concat_string m_left m_right =>
      let left_length := string_length m_left in
      if bool_decide (offset < left_length)
      then string_at m_left offset
      else string_at m_right (wrap_size (offset - left_length))
  | substring m_original m_offset _ =>
      string_at m_original (wrap_size (m_offset + offset))
  end.

(** The loop of [string::to_string]: [n] iterations are left, [i] is the
    loop index and [result] the text appended so far. *)
Fixpoint to_string_loop (s : string) (n : nat) (i : size_type)
    (result : unistring) : option unistring :=
  match n with
  | O => Some result
  | S n' =>
      c ← string_at s i;
      to_string_loop s n' (i + 1) (result ++ [c])
  end.

(** [string::to_string]; [result.reserve(len)] changes no value and is
    left out. *)
Definition string_to_string (s : string) : option unistring :=
  let len := string_length s in
  to_string_loop s (Z.to_nat len) 0 [].

(** ** Values *)

(** [value::type]. *)
Inductive type : Type :=
| type_null | type_boolean | type_number | type_string | type_array
| type_object | type_symbol | type_quote | type_word | type_error.

#[global] Instance type_eq_dec : EqDecision type.
Proof. solve_decision. Defined.

(** [value::type_description(enum type)]. *)
Definition type_description (t : type) : unistring :=
  match t with
  | type_null => U "null"
  | type_boolean => U "boolean"
  | type_number => U "number"
  | type_string => U "string"
  | type_array => U "array"
  | type_object => U "object"
  | type_symbol => U "symbol"
  | type_quote => U "quote"
  | type_word => U "word"
  | type_error => U "error"
  end.

(** Modelled from the spec: the class [number] (its header is not among
    the sources) is "a variant of integer (signed 64-bit) and real"; a
    real is carried as a rational here. *)
Inductive number : Type :=
| number_int (i : Z)
| number_real (r : Q).

(** Modelled from the spec: [number::as_int], "count truncates real to
    integer": the integer itself, or the real rounded towards zero. *)
Definition as_int (n : number) : Z :=
  match n with
  | number_int i => i
  | number_real r => Z.quot (Qnum r) (Z.pos (Qden r))
  end.

(** Modelled from the spec: the error codes of [error::code], "syntax,
    reference, type, value, range, import, io, unknown". *)
Inductive code : Type :=
| code_syntax | code_reference | code_type | code_value
| code_range | code_import | code_io | code_unknown.

(** Modelled from the spec: an [error] "carries a code, a message string
    and an optional source position"; the words below never give a
    position. *)
Record error : Type := mk_error {
  error_code : code;
  error_message : unistring
}.

#[local] Set Warnings "-register-all".

(** The values a reference can point to.  Only what the string prototype
    looks at is carried: the payloads of objects, symbols, quotes and
    words are left out. *)
Inductive value : Type :=
| val_boolean (b : bool)
| val_number (n : number)
| val_string (s : string)
| val_array (elements : list (option value))
| val_object
| val_symbol
| val_quote
| val_word
| val_error (e : error).

(** [ref<value>]: [None] is the null reference. *)
Definition ref_value : Type := option value.

(** The static [value::type(const ref<value>&)]: the type of what the
    reference points to, [type_null] for the null reference. *)
Definition value_type (v : ref_value) : type :=
  match v with
  | None => type_null
  | Some (val_boolean _) => type_boolean
  | Some (val_number _) => type_number
  | Some (val_string _) => type_string
  | Some (val_array _) => type_array
  | Some val_object => type_object
  | Some val_symbol => type_symbol
  | Some val_quote => type_quote
  | Some val_word => type_word
  | Some (val_error _) => type_error
  end.

(** [value::is]. *)
Definition value_is (v : ref_value) (t : type) : bool :=
  bool_decide (value_type v = t).

(** A [ref<string>] handed to a parameter of type [ref<value>]. *)
Definition string_ref (s : string) : ref_value := Some (val_string s).

(** The loop of [string::equals]: [n] iterations are left. *)
Fixpoint equals_loop (this str : string) (n : nat) (i : size_type)
    : option bool :=
  match n with
  | O => Some true
  | S n' =>
      a ← string_at this i;
      b ← string_at str i;
      if bool_decide (a ≠ b) then Some false
      else equals_loop this str n' (i + 1)
  end.

(** [string::equals].  It has no access to a context: the only thing it
    gives back is the boolean. *)
Definition string_equals (this : string) (that : ref_value) : option bool :=
  let len := string_length this in
  match that with
  | Some (val_string str) =>
      if bool_decide (len ≠ string_length str) then Some false
      else equals_loop this str (Z.to_nat len) 0
  | _ => Some false
  end.

(** Modelled from the spec: [string::empty] (declared in the header of
    the string class, not among the sources), "if either side empty". *)
Definition string_empty (s : string) : bool :=
  bool_decide (string_length s = 0).

(** [runtime::string(chars, length)]: a new [simple_string] that copies
    [length] code points out of [chars]. *)
Definition runtime_string (chars : list unichar) (length : size_type) : string :=
  simple_string (take (Z.to_nat length) chars).

(** [runtime::string(const unistring&)]. *)
Definition runtime_string_of (input : unistring) : string :=
  runtime_string input (Z.of_nat (length input)).

(** ** The execution context *)

(** The error slot and the data stack of a [context]; the top of the
    stack (the back of the deque) is the head of [m_data]. *)
Record context : Type := mk_context {
  m_error : option error;
  m_data : list ref_value
}.

(** [context::push]. *)
Definition push (ctx : context) (v : ref_value) : context :=
  mk_context (m_error ctx) (v :: m_data ctx).

(** Modelled from the spec: [context::error(code, message)] "constructs
    new error instance with given error code and error message and
    replaces this execution state's currently uncaught error with it". *)
Definition context_error (ctx : context) (c : code) (message : unistring)
    : context :=
  mk_context (Some (mk_error c message)) (m_data ctx).

(** Modelled from the spec: [context::pop(slot, type)] "removes the top
    if its tag matches; otherwise sets type-error and leaves the stack
    unchanged"; on an empty stack it sets the range error "Stack
    underflow.".  The second component is the slot, [None] on failure. *)
Definition pop_typed (ctx : context) (t : type) : context * option ref_value :=
  match m_data ctx with
  | [] => (context_error ctx code_range (U "Stack underflow."), None)
  | v :: rest =>
      if value_is v t then (mk_context (m_error ctx) rest, Some v)
      else (context_error ctx code_type
              (U "Expected " ++ type_description t ++ U ", got "
               ++ type_description (value_type v) ++ U "."), None)
  end.

(** Modelled from the spec: [context::pop_string], "sugar over the typed
    form". *)
Definition pop_string (ctx : context) : context * option string :=
  match pop_typed ctx type_string with
  | (ctx', Some (Some (val_string s))) => (ctx', Some s)
  | (ctx', _) => (ctx', None)
  end.

(** Modelled from the spec: [context::pop_number]. *)
Definition pop_number (ctx : context) : context * option number :=
  match pop_typed ctx type_number with
  | (ctx', Some (Some (val_number n))) => (ctx', Some n)
  | (ctx', _) => (ctx', None)
  end.

(** Modelled from the spec: [context::push_string(chars, length)]
    "constructs string value from given array of Unicode code points and
    pushes it onto data stack". *)
Definition push_string (ctx : context) (chars : list unichar)
    (length : size_type) : context :=
  push ctx (string_ref (runtime_string chars length)).

(** Modelled from the spec: [context::push_string(const unistring&)]. *)
Definition push_string_of (ctx : context) (text : unistring) : context :=
  push ctx (string_ref (runtime_string_of text)).

(** Modelled from the spec: [context::push_array(elements, size)]. *)
Definition push_array (ctx : context) (elements : list ref_value)
    (size : size_type) : context :=
  push ctx (Some (val_array (take (Z.to_nat size) elements))).

(** ** The words of the string prototype *)

(** A word takes the context and gives the context it leaves behind;
    [None] stands for an execution that read outside a buffer, for which
    the source defines no behaviour.  Inside the loops the guards keep
    every index between 0 and the length, so [i + 1], [i - 1], [j - 1]
    and [length - i] are written without [wrap_size]; the differences of
    two indices ([end - begin], [j - i]) are not guarded and go through
    it. *)

(** The loop of [w_lines].  The body moves [i] itself when it meets a
    CR LF pair, so the loop runs on [fuel]: [None] with [i < length] and
    no fuel left is never met when the fuel is [length], as each turn
    moves [i] forward.  The index stays below [length], so [i + 1] and
    [end_ + 1] never wrap. *)
Fixpoint lines_loop (fuel : nat) (str : string) (length : size_type)
    (i begin end_ : size_type) (result : list ref_value)
    : option (size_type * size_type * list ref_value) :=
  if bool_decide (i < length) then
    match fuel with
    | O => None
    | S fuel' =>
        c ← string_at str i;
        crlf ← (if bool_decide (i + 1 < length) && bool_decide (c = 13)
                then d ← string_at str (i + 1); Some (bool_decide (d = 10))
                else Some false);
        if crlf : bool then
          lines_loop fuel' str length (i + 2) (i + 2) (i + 2)
            (result ++ [string_ref (substring str begin (wrap_size (end_ - begin)))])
        else if bool_decide (c = 10) || bool_decide (c = 13) then
          lines_loop fuel' str length (i + 1) (i + 1) (i + 1)
            (result ++ [string_ref (substring str begin (wrap_size (end_ - begin)))])
        else
          lines_loop fuel' str length (i + 1) begin (end_ + 1) result
    end
  else Some (begin, end_, result).

(** Word [lines]. *)
Definition w_lines (ctx : context) : option context :=
  match pop_string ctx with
  | (ctx, Some str) =>
      let length := string_length str in
      '(begin, end_, result) ← lines_loop (Z.to_nat length) str length 0 0 0 [];
      let result :=
        if bool_decide (wrap_size (end_ - begin) > 0)
        then result ++ [string_ref (substring str begin (wrap_size (end_ - begin)))]
        else result in
      let ctx := push ctx (string_ref str) in
      Some (push_array ctx result (Z.of_nat (List.length result)))
  | (ctx, None) => Some ctx
  end.

(** The loop of [w_reverse], [for (i = length; i > 0; --i)]: [n]
    iterations are left, and [result] is the array being filled. *)
Fixpoint reverse_loop (str : string) (length : size_type) (n : nat)
    (i : size_type) (result : list unichar) : option (list unichar) :=
  match n with
  | O => Some result
  | S n' =>
      c ← string_at str (i - 1);
      reverse_loop str length n' (i - 1) (<[Z.to_nat (length - i) := c]> result)
  end.

(** Word [reverse].  The array [result] has [length] cells, which hold
    nothing meaningful before the loop writes them: they start as 0. *)
Definition w_reverse (ctx : context) : option context :=
  match pop_string ctx with
  | (ctx, Some str) =>
      let length := string_length str in
      let result := replicate (Z.to_nat length) 0 in
      result ← reverse_loop str length (Z.to_nat length) length result;
      Some (push_string ctx result length)
  | (ctx, None) => Some ctx
  end.

Section whitespace.

(** [unichar_isspace] comes from the Unicode tables of the interpreter,
    which are not among the sources: the words take it as given. *)
Variable unichar_isspace : unichar → bool.

(** [for (i = 0; i < length; ++i) if (!unichar_isspace(str->at(i))) break;]
    with [n] iterations left; the result is [i] after the loop. *)
Fixpoint scan_left (str : string) (n : nat) (i : size_type) : option size_type :=
  match n with
  | O => Some i
  | S n' =>
      c ← string_at str i;
      if negb (unichar_isspace c) then Some i
      else scan_left str n' (i + 1)
  end.

(** [for (j = length; j != 0; --j) if (!unichar_isspace(str->at(j - 1))) break;]
    with [n] iterations left; the result is [j] after the loop. *)
Fixpoint scan_right (str : string) (n : nat) (j : size_type) : option size_type :=
  match n with
  | O => Some j
  | S n' =>
      c ← string_at str (j - 1);
      if negb (unichar_isspace c) then Some j
      else scan_right str n' (j - 1)
  end.

(** Word [trim]. *)
Definition w_trim (ctx : context) : option context :=
  match pop_string ctx with
  | (ctx, Some str) =>
      let length := string_length str in
      i ← scan_left str (Z.to_nat length) 0;
      j ← scan_right str (Z.to_nat length) length;
      if bool_decide (i ≠ 0) || bool_decide (j ≠ length)
      then Some (push ctx (string_ref (substring str i (wrap_size (j - i)))))
      else Some (push ctx (string_ref str))
  | (ctx, None) => Some ctx
  end.

(** Word [trim-left]. *)
Definition w_trim_left (ctx : context) : option context :=
  match pop_string ctx with
  | (ctx, Some str) =>
      let length := string_length str in
      i ← scan_left str (Z.to_nat length) 0;
      if bool_decide (i ≠ 0)
      then Some (push ctx (string_ref (substring str i (wrap_size (length - i)))))
      else Some (push ctx (string_ref str))
  | (ctx, None) => Some ctx
  end.

(** Word [trim-right]. *)
Definition w_trim_right (ctx : context) : option context :=
  match pop_string ctx with
  | (ctx, Some str) =>
      let length := string_length str in
      i ← scan_right str (Z.to_nat length) length;
      if bool_decide (i ≠ length)
      then Some (push ctx (string_ref (substring str 0 i)))
      else Some (push ctx (string_ref str))
  | (ctx, None) => Some ctx
  end.

End whitespace.

(** Word [+]. *)
Definition w_concat (ctx : context) : option context :=
  match pop_string ctx with
  | (ctx, Some a) =>
      match pop_string ctx with
      | (ctx, Some b) =>
          if string_empty a then Some (push ctx (string_ref b))
          else if string_empty b then Some (push ctx (string_ref a))
          else Some (push ctx (string_ref (concat_string b a)))
      | (ctx, None) => Some ctx
      end
  | (ctx, None) => Some ctx
  end.

(** The [while (count > 0)] loop of [w_repeat] with [n] turns left.  Its
    inner loop appends every code point of [str] to [result], as the loop
    of [string::to_string] does. *)
Fixpoint repeat_loop (str : string) (length : size_type) (n : nat)
    (result : unistring) : option unistring :=
  match n with
  | O => Some result
  | S n' =>
      result ← to_string_loop str (Z.to_nat length) 0 result;
      repeat_loop str length n' result
  end.

(** Word [*].  [result.reserve] changes no value and is left out. *)
Definition w_repeat (ctx : context) : option context :=
  match pop_string ctx with
  | (ctx, Some str) =>
      match pop_number ctx with
      | (ctx, Some num) =>
          let length := string_length str in
          let count := as_int num in
          let count := if bool_decide (count < 0) then wrap_int64 (- count) else count in
          result ← repeat_loop str length (Z.to_nat count) [];
          Some (push_string_of ctx result)
      | (ctx, None) => Some ctx
      end
  | (ctx, None) => Some ctx
  end.

(** Word [@].  [index += length] adds an unsigned 64-bit length to a
    signed 64-bit index and stores the sum back into the index. *)
Definition w_get (ctx : context) : option context :=
  match pop_string ctx with
  | (ctx, Some str) =>
      match pop_number ctx with
      | (ctx, Some num) =>
          let length := string_length str in
          let index := as_int num in
          let index := if bool_decide (index < 0) then wrap_int64 (index + length) else index in
          let ctx := push ctx (string_ref str) in
          if bool_decide (index < 0) || bool_decide (index > wrap_int64 length)
          then Some (context_error ctx code_range (U "String index out of bounds."))
          else
            c ← string_at str (wrap_size index);
            Some (push ctx (string_ref (runtime_string [c] 1)))
      | (ctx, None) => Some ctx
      end
  | (ctx, None) => Some ctx
  end.

(** An ASCII digit. *)
Definition is_digit (c : unichar) : bool := bool_decide (48 ≤ c ≤ 57).

(** [text] without its leading digits. *)
Fixpoint skip_digits (text : unistring) : unistring :=
  match text with
  | c :: rest => if is_digit c then skip_digits rest else text
  | [] => []
  end.

(** One or more digits at the head of [text]: what follows them. *)
Definition some_digits (text : unistring) : option unistring :=
  match text with
  | c :: rest => if is_digit c then Some (skip_digits rest) else None
  | [] => None
  end.

(** [text] without a leading [+] or [-]. *)
Definition skip_sign (text : unistring) : unistring :=
  match text with
  | c :: rest => if bool_decide (c = 43) || bool_decide (c = 45) then rest else text
  | [] => []
  end.

(** Modelled from the spec: [is_number] (a helper of the interpreter that
    is not among the sources) tells whether a text "parses as a decimal
    integer or real": an optional sign, one or more digits, optionally a
    point followed by one or more digits, optionally an exponent. *)
Definition is_number (text : unistring) : bool :=
  match some_digits (skip_sign text) with
  | None => false
  | Some rest =>
      let fraction :=
        match rest with
        | 46 :: rest' => some_digits rest'
        | _ => Some rest
        end in
      match fraction with
      | None => false
      | Some [] => true
      | Some (c :: rest') =>
          if bool_decide (c = 101) || bool_decide (c = 69)
          then match some_digits (skip_sign rest') with
               | Some [] => true
               | _ => false
               end
          else false
      end
  end.

Section to_number.

(** The number a text that [is_number] accepts stands for: the parser
    behind [context::push_number] is not among the sources, and the word
    is indifferent to what it computes. *)
Variable parse_number : unistring → number.

(** Modelled from the spec: [context::push_number(text)] "pushes either
    integer or real number into stack, based on the given text input
    which is parsed into a number". *)
Definition push_number (ctx : context) (text : unistring) : context :=
  push ctx (Some (val_number (parse_number text))).

(** Word [>number]. *)
Definition w_to_number (ctx : context) : option context :=
  match pop_string ctx with
  | (ctx, Some a) =>
      str ← string_to_string a;
      if is_number str then Some (push_number ctx str)
      else Some (context_error ctx code_value (U "Could not convert string to number."))
  | (ctx, None) => Some ctx
  end.

End to_number.

(** ** The other words of the string prototype *)

(** Modelled from the spec: [context::push_boolean] pushes one of the two
    booleans of the runtime. *)
Definition push_boolean (ctx : context) (b : bool) : context :=
  push ctx (Some (val_boolean b)).

(** Modelled from the spec: [context::push_int] pushes the integer as a
    number. *)
Definition push_int (ctx : context) (i : Z) : context :=
  push ctx (Some (val_number (number_int i))).

(** Word [length].  [push_int] takes a [number::int_type], a signed
    64-bit integer: the length is converted on the way in. *)
Definition w_length (ctx : context) : option context :=
  match pop_string ctx with
  | (ctx, Some str) =>
      let ctx := push ctx (string_ref str) in
      Some (push_int ctx (wrap_int64 (string_length str)))
  | (ctx, None) => Some ctx
  end.

(** The loop of [w_chars] with [n] iterations left. *)
Fixpoint chars_loop (str : string) (n : nat) (i : size_type)
    (output : list ref_value) : option (list ref_value) :=
  match n with
  | O => Some output
  | S n' =>
      c ← string_at str i;
      chars_loop str n' (i + 1) (output ++ [string_ref (runtime_string [c] 1)])
  end.

(** Word [chars]. *)
Definition w_chars (ctx : context) : option context :=
  match pop_string ctx with
  | (ctx, Some str) =>
      let length := string_length str in
      output ← chars_loop str (Z.to_nat length) 0 [];
      let ctx := push ctx (string_ref str) in
      Some (push_array ctx output length)
  | (ctx, None) => Some ctx
  end.

(** The loop of [w_runes] with [n] iterations left.  A code point is an
    unsigned 32-bit value: the cast to [std::int64_t] keeps it. *)
Fixpoint runes_loop (str : string) (n : nat) (i : size_type)
    (output : list ref_value) : option (list ref_value) :=
  match n with
  | O => Some output
  | S n' =>
      c ← string_at str i;
      runes_loop str n' (i + 1) (output ++ [Some (val_number (number_int c))])
  end.

(** Word [runes]. *)
Definition w_runes (ctx : context) : option context :=
  match pop_string ctx with
  | (ctx, Some str) =>
      let length := string_length str in
      output ← runes_loop str (Z.to_nat length) 0 [];
      let ctx := push ctx (string_ref str) in
      Some (push_array ctx output length)
  | (ctx, None) => Some ctx
  end.

Section unicode.

(** The predicates and the case mappings of the Unicode tables of the
    interpreter, which are not among the sources. *)
Variable unichar_isspace : unichar → bool.
Variable unichar_islower : unichar → bool.
Variable unichar_isupper : unichar → bool.
Variable unichar_toupper : unichar → unichar.
Variable unichar_tolower : unichar → unichar.

(** The loop of [w_is_space], [w_is_lower_case] and [w_is_upper_case],
    which differ in the predicate [test] only: it gives [false] at the
    first code point that fails the test, [true] after the last one. *)
Fixpoint test_loop (test : unichar → bool) (str : string) (n : nat)
    (i : size_type) : option bool :=
  match n with
  | O => Some true
  | S n' =>
      c ← string_at str i;
      if negb (test c) then Some false
      else test_loop test str n' (i + 1)
  end.

(** Word [space?]. *)
Definition w_is_space (ctx : context) : option context :=
  match pop_string ctx with
  | (ctx, Some str) =>
      let length := string_length str in
      let ctx := push ctx (string_ref str) in
      if bool_decide (length = 0) then Some (push_boolean ctx false)
      else
        b ← test_loop unichar_isspace str (Z.to_nat length) 0;
        Some (push_boolean ctx b)
  | (ctx, None) => Some ctx
  end.

(** Word [lower-case?]. *)
Definition w_is_lower_case (ctx : context) : option context :=
  match pop_string ctx with
  | (ctx, Some str) =>
      let length := string_length str in
      let ctx := push ctx (string_ref str) in
      if bool_decide (length = 0) then Some (push_boolean ctx false)
      else
        b ← test_loop unichar_islower str (Z.to_nat length) 0;
        Some (push_boolean ctx b)
  | (ctx, None) => Some ctx
  end.

(** Word [upper-case?]. *)
Definition w_is_upper_case (ctx : context) : option context :=
  match pop_string ctx with
  | (ctx, Some str) =>
      let length := string_length str in
      let ctx := push ctx (string_ref str) in
      if bool_decide (length = 0) then Some (push_boolean ctx false)
      else
        b ← test_loop unichar_isupper str (Z.to_nat length) 0;
        Some (push_boolean ctx b)
  | (ctx, None) => Some ctx
  end.

(** The loop of [w_words] with [n] iterations left. *)
Fixpoint words_loop (str : string) (n : nat) (i begin end_ : size_type)
    (result : list ref_value)
    : option (size_type * size_type * list ref_value) :=
  match n with
  | O => Some (begin, end_, result)
  | S n' =>
      c ← string_at str i;
      if unichar_isspace c then
        let result :=
          if bool_decide (wrap_size (end_ - begin) > 0)
          then result ++ [string_ref (substring str begin (wrap_size (end_ - begin)))]
          else result in
        words_loop str n' (i + 1) (i + 1) (i + 1) result
      else
        words_loop str n' (i + 1) begin (end_ + 1) result
  end.

(** Word [words]. *)
Definition w_words (ctx : context) : option context :=
  match pop_string ctx with
  | (ctx, Some str) =>
      let length := string_length str in
      '(begin, end_, result) ← words_loop str (Z.to_nat length) 0 0 0 [];
      let result :=
        if bool_decide (wrap_size (end_ - begin) > 0)
        then result ++ [string_ref (substring str begin (wrap_size (end_ - begin)))]
        else result in
      let ctx := push ctx (string_ref str) in
      Some (push_array ctx result (Z.of_nat (List.length result)))
  | (ctx, None) => Some ctx
  end.

(** The loop of [w_upper_case], [w_lower_case], [w_swap_case] and
    [w_capitalize], [for (i = 0; i < length; ++i) result[i] = ...;], with
    [n] iterations left: the four differ in what they store, [change i c]
    for the code point [c] read at [i]. *)
Fixpoint change_loop (change : size_type → unichar → unichar) (str : string)
    (n : nat) (i : size_type) (result : list unichar) : option (list unichar) :=
  match n with
  | O => Some result
  | S n' =>
      c ← string_at str i;
      change_loop change str n' (i + 1) (<[Z.to_nat i := change i c]> result)
  end.

(** Word [upper-case].  As in [w_reverse] the cells of the array start
    as 0. *)
Definition w_upper_case (ctx : context) : option context :=
  match pop_string ctx with
  | (ctx, Some str) =>
      let length := string_length str in
      let result := replicate (Z.to_nat length) 0 in
      result ← change_loop (λ _ c, unichar_toupper c) str (Z.to_nat length) 0 result;
      Some (push_string ctx result length)
  | (ctx, None) => Some ctx
  end.

(** Word [lower-case]. *)
Definition w_lower_case (ctx : context) : option context :=
  match pop_string ctx with
  | (ctx, Some str) =>
      let length := string_length str in
      let result := replicate (Z.to_nat length) 0 in
      result ← change_loop (λ _ c, unichar_tolower c) str (Z.to_nat length) 0 result;
      Some (push_string ctx result length)
  | (ctx, None) => Some ctx
  end.

(** Word [swap-case]. *)
Definition w_swap_case (ctx : context) : option context :=
  match pop_string ctx with
  | (ctx, Some str) =>
      let length := string_length str in
      let output := replicate (Z.to_nat length) 0 in
      output ←
        change_loop
          (λ _ c, if unichar_islower c then unichar_toupper c else unichar_tolower c)
          str (Z.to_nat length) 0 output;
      Some (push_string ctx output length)
  | (ctx, None) => Some ctx
  end.

(** Word [capitalize]. *)
Definition w_capitalize (ctx : context) : option context :=
  match pop_string ctx with
  | (ctx, Some str) =>
      let length := string_length str in
      let output := replicate (Z.to_nat length) 0 in
      output ←
        change_loop
          (λ i c, if bool_decide (i = 0) then unichar_toupper c else unichar_tolower c)
          str (Z.to_nat length) 0 output;
      Some (push_string ctx output length)
  | (ctx, None) => Some ctx
  end.

(** The number parser behind [>number], as in the section of that word. *)
Variable parse_number : unistring → number.

(** [api::string_prototype]: the words of the prototype under their
    names, in the order of the source. *)
Definition string_prototype : list (unistring * (context → option context)) :=
  [ (U "length", w_length);
    (U "chars", w_chars);
    (U "runes", w_runes);
    (U "words", w_words);
    (U "lines", w_lines);
    (U "space?", w_is_space);
    (U "lower-case?", w_is_lower_case);
    (U "upper-case?", w_is_upper_case);
    (U "reverse", w_reverse);
    (U "upper-case", w_upper_case);
    (U "lower-case", w_lower_case);
    (U "swap-case", w_swap_case);
    (U "capitalize", w_capitalize);
    (U "trim", w_trim unichar_isspace);
    (U "trim-left", w_trim_left unichar_isspace);
    (U "trim-right", w_trim_right unichar_isspace);
    (U ">number", w_to_number parse_number);
    (U "+", w_concat);
    (U "*", w_repeat);
    (U "@", w_get) ].

End unicode.

(** ** Comparing references *)

Section operators.

(** [value::equals] is virtual: every class of values has its own, and
    only the one of strings, [string_equals], is among the sources. *)
Variable equals : value → ref_value → option bool.

(** Whether a reference is set, [a ? ... : ...] in the source. *)
Definition is_set (a : ref_value) : bool :=
  match a with
  | Some _ => true
  | None => false
  end.

(** [operator==] on references: [a ? b && a->equals(b) : !b]. *)
Definition ref_eq (a b : ref_value) : option bool :=
  match a with
  | Some va => if is_set b then equals va b else Some false
  | None => Some (negb (is_set b))
  end.

(** [operator!=] on references: [a ? !b || !a->equals(b) : !!b]. *)
Definition ref_neq (a b : ref_value) : option bool :=
  match a with
  | Some va => if negb (is_set b) then Some true else negb <$> equals va b
  | None => Some (negb (negb (is_set b)))
  end.

End operators.

(** ** Vocabulary of the properties *)

(** The invariant of a rope: a buffer is no longer than a [size_type] can
    count, and a slice lies inside its original. *)
Fixpoint string_valid (s : string) : Prop :=
  match s with
  | simple_string m_chars => Z.of_nat (length m_chars) < size_modulus
  | concat_string m_left m_right => string_valid m_left ∧ string_valid m_right
  | substring m_original m_offset m_length =>
      string_valid m_original ∧ 0 ≤ m_offset ∧ 0 ≤ m_length
      ∧ m_offset + m_length ≤ string_length m_original
  end.

(** [has_text s cs]: [s] has as many code points as [cs], and reading it
    with [string_at] at any index below its length gives the code point
    of [cs] at that index. *)
Definition has_text (s : string) (cs : unistring) : Prop :=
  string_length s = Z.of_nat (length cs)
  ∧ ∀ k : nat, (k < length cs)%nat → string_at s (Z.of_nat k) = cs !! k.

(** The lines of a text, as the specification words them: a CR that is
    immediately followed by LF ends the current [line] and both are
    skipped, a lone LF or CR ends it and is skipped, a line ended by a
    separator is kept even when it is empty, and what follows the last
    separator is kept only when it is not empty. *)
Fixpoint split_lines (line text : unistring) : list unistring :=
  match text with
  | [] => if bool_decide (line = []) then [] else [line]
  | c :: rest =>
      if bool_decide (c = 13) then
        match rest with
        | d :: rest' =>
            if bool_decide (d = 10) then line :: split_lines [] rest'
            else line :: split_lines [] rest
        | [] => line :: split_lines [] rest
        end
      else if bool_decide (c = 10) then line :: split_lines [] rest
      else split_lines (line ++ [c]) rest
  end.

(** The same scan, giving for each line where it begins in the whole text
    and how long it is; [begin] and [len] describe the current line and
    [text] is what is left to scan. *)
Fixpoint line_spans (begin len : Z) (text : unistring) : list (Z * Z) :=
  match text with
  | [] => if bool_decide (0 < len) then [(begin, len)] else []
  | c :: rest =>
      if bool_decide (c = 13) then
        match rest with
        | d :: rest' =>
            if bool_decide (d = 10)
            then (begin, len) :: line_spans (begin + len + 2) 0 rest'
            else (begin, len) :: line_spans (begin + len + 1) 0 rest
        | [] => (begin, len) :: line_spans (begin + len + 1) 0 rest
        end
      else if bool_decide (c = 10)
      then (begin, len) :: line_spans (begin + len + 1) 0 rest
      else line_spans begin (len + 1) rest
  end.

(** The slice of [str] a span stands for, as a value of the array. *)
Definition span_slice (str : string) (span : Z * Z) : ref_value :=
  string_ref (substring str span.1 span.2).

(** The part of a text a span covers. *)
Definition span_text (text : unistring) (span : Z * Z) : unistring :=
  take (Z.to_nat span.2) (drop (Z.to_nat span.1) text).

(** What [w_lines] does after its loop: the tail is added when it is not
    empty. *)
Definition lines_finish (str : string)
    (st : Z * Z * list ref_value) : list ref_value :=
  let '(begin, end_, result) := st in
  if bool_decide (wrap_size (end_ - begin) > 0)
  then result ++ [string_ref (substring str begin (wrap_size (end_ - begin)))]
  else result.

(** [doubled k s]: [s] concatenated with itself [k] times over, each
    node sharing its two children, as [dup +] builds it. *)
Fixpoint doubled (k : nat) (s : string) : string :=
  match k with
  | O => s
  | S k' => concat_string (doubled k' s) (doubled k' s)
  end.

(** The words of a text: the runs of code points between whitespace, a
    run being kept only when it is not empty.  [word] is the run read so
    far. *)
Fixpoint split_words (isspace : Z → bool) (word text : unistring)
    : list unistring :=
  match text with
  | [] => if bool_decide (word = []) then [] else [word]
  | c :: rest =>
      if isspace c then
        if bool_decide (word = []) then split_words isspace [] rest
        else word :: split_words isspace [] rest
      else split_words isspace (word ++ [c]) rest
  end.

(** The same scan, giving where each word begins and how long it is. *)
Fixpoint word_spans (isspace : Z → bool) (begin len : Z) (text : unistring)
    : list (Z * Z) :=
  match text with
  | [] => if bool_decide (0 < len) then [(begin, len)] else []
  | c :: rest =>
      if isspace c then
        if bool_decide (0 < len)
        then (begin, len) :: word_spans isspace (begin + len + 1) 0 rest
        else word_spans isspace (begin + len + 1) 0 rest
      else word_spans isspace begin (len + 1) rest
  end.

(** What [w_words] does after its loop. *)
Definition words_finish (str : string)
    (st : Z * Z * list ref_value) : list ref_value :=
  let '(begin, end_, result) := st in
  if bool_decide (wrap_size (end_ - begin) > 0)
  then result ++ [string_ref (substring str begin (wrap_size (end_ - begin)))]
  else result.

(** Texts put one after the other with [sep] between them. *)
Fixpoint join (sep : unistring) (texts : list unistring) : unistring :=
  match texts with
  | [] => []
  | [t] => t
  | t :: rest => t ++ sep ++ join sep rest
  end.

(** A text without its leading whitespace. *)
Fixpoint strip_left (isspace : Z → bool) (text : unistring) : unistring :=
  match text with
  | c :: rest => if isspace c then strip_left isspace rest else text
  | [] => []
  end.

(** A text without its trailing whitespace. *)
Definition strip_right (isspace : Z → bool) (text : unistring) : unistring :=
  reverse (strip_left isspace (reverse text)).

(** A code point that ends no line. *)
Definition no_break (c : Z) : Prop := c ≠ 10 ∧ c ≠ 13.

(** [spans_apart from limit spans]: the spans come from left to right,
    the first begins at [from] or later, every one ends at [limit] or
    before, and between the end of one and the beginning of the next
    there is at least one code point. *)
Fixpoint spans_apart (from limit : Z) (spans : list (Z * Z)) : Prop :=
  match spans with
  | [] => True
  | span :: rest =>
      from ≤ span.1 ∧ 0 ≤ span.2 ∧ span.1 + span.2 ≤ limit
      ∧ spans_apart (span.1 + span.2 + 1) limit rest
  end.

(** ** Machine arithmetic *)

Lemma wrap_size_small (z : Z) : 0 ≤ z < size_modulus → wrap_size z = z.
Proof. intros Hz. unfold wrap_size. by apply Z.mod_small. Qed.

Lemma wrap_size_range (z : Z) : 0 ≤ wrap_size z < size_modulus.
Proof. unfold wrap_size, size_modulus. apply Z.mod_pos_bound. lia. Qed.

Lemma wrap_int64_small (z : Z) : int64_min ≤ z ≤ int64_max → wrap_int64 z = z.
Proof.
  unfold int64_min, int64_max, wrap_int64. intros Hz.
  rewrite Z.mod_small; lia.
Qed.

(** ** Reading a rope *)

Lemma string_valid_length (s : string) :
  string_valid s → 0 ≤ string_length s < size_modulus.
Proof.
  induction s as [cs | l IHl r IHr | o IHo off len]; simpl.
  - lia.
  - intros _. apply wrap_size_range.
  - intros (Ho & Hoff & Hlen & Hin). specialize (IHo Ho). lia.
Qed.

(** Inside a valid rope every read below the length is a read inside a
    buffer. *)
Lemma string_at_valid (s : string) :
  string_valid s →
  ∀ i, 0 ≤ i < string_length s → is_Some (string_at s i).
Proof.
  induction s as [cs | l IHl r IHr | o IHo off len]; simpl.
  - intros _ i Hi. rewrite bool_decide_eq_true_2 by lia.
    apply lookup_lt_is_Some. lia.
  - intros [Hl Hr] i Hi.
    pose proof (string_valid_length l Hl) as Hll.
    pose proof (string_valid_length r Hr) as Hlr.
    case_bool_decide as Hlt.
    + apply IHl; [done | lia].
    + assert (Hsum : string_length l + string_length r < size_modulus).
      { destruct (decide (string_length l + string_length r < size_modulus)) as [|Hge]; [done |].
        exfalso. apply Hlt. unfold wrap_size in Hi.
        assert (Hm : (string_length l + string_length r) mod size_modulus
                     = string_length l + string_length r - size_modulus).
        { symmetry. apply Z.mod_unique with (q := 1); lia. }
        lia. }
      rewrite wrap_size_small in Hi by lia.
      rewrite wrap_size_small by lia.
      apply IHr; [done | lia].
  - intros (Ho & Hoff & Hlen & Hin) i Hi.
    pose proof (string_valid_length o Ho) as Hlo.
    rewrite wrap_size_small by lia.
    apply IHo; [done | lia].
Qed.

(** What the loop of [string::to_string] appends. *)
Lemma to_string_loop_Some (s : string) (n : nat) (i : Z) (result r : unistring) :
  to_string_loop s n i result = Some r →
  ∃ cs, r = result ++ cs ∧ length cs = n
        ∧ ∀ k : nat, (k < n)%nat → string_at s (i + Z.of_nat k) = cs !! k.
Proof.
  revert i result. induction n as [| n IH]; intros i result; simpl.
  - intros [= <-]. exists []. rewrite app_nil_r. split_and!; [done | done |]. intros k Hk. lia.
  - destruct (string_at s i) as [c |] eqn:Hc; simpl; [| done].
    intros Hloop. destruct (IH _ _ Hloop) as (cs & -> & Hlen & Hat).
    exists (c :: cs). rewrite <- app_assoc. simpl. split_and!; [done | by f_equal |].
    intros [| k] Hk; simpl.
    + by rewrite Z.add_0_r.
    + rewrite <- Hat by lia. f_equal. lia.
Qed.

Lemma to_string_loop_text (s : string) (n : nat) (i : Z) (result cs : unistring) :
  length cs = n →
  (∀ k : nat, (k < n)%nat → string_at s (i + Z.of_nat k) = cs !! k) →
  to_string_loop s n i result = Some (result ++ cs).
Proof.
  revert i result cs. induction n as [| n IH]; intros i result cs Hlen Hat; simpl.
  - destruct cs; [| done]. by rewrite app_nil_r.
  - destruct cs as [| c cs]; [done |].
    pose proof (Hat 0%nat ltac:(lia)) as Hc. rewrite Z.add_0_r in Hc.
    rewrite Hc. simpl.
    rewrite (IH (i + 1) (result ++ [c]) cs).
    + by rewrite <- app_assoc.
    + by injection Hlen.
    + intros k Hk. specialize (Hat (S k) ltac:(lia)).
      change ((c :: cs) !! S k) with (cs !! k) in Hat.
      rewrite <- Hat. f_equal. lia.
Qed.

Lemma to_string_has_text (s : string) (cs : unistring) :
  0 ≤ string_length s →
  string_to_string s = Some cs ↔ has_text s cs.
Proof.
  intros Hlen. unfold string_to_string, has_text. split.
  - intros Hloop. apply to_string_loop_Some in Hloop as (cs' & -> & Hl & Hat).
    simpl. split; [lia |]. intros k Hk. rewrite <- Hat by lia. done.
  - intros [Hl Hat]. rewrite (to_string_loop_text s _ 0 [] cs); [done | lia |].
    intros k Hk. rewrite Z.add_0_l. apply Hat. lia.
Qed.

Lemma has_text_length_nonneg (s : string) (cs : unistring) :
  has_text s cs → 0 ≤ string_length s.
Proof. intros [Hl _]. lia. Qed.

Lemma has_text_at (s : string) (cs : unistring) (i : Z) :
  has_text s cs → 0 ≤ i < string_length s → string_at s i = cs !! Z.to_nat i.
Proof.
  intros [Hl Hat] Hi. rewrite <- (Z2Nat.id i) at 1 by lia. apply Hat. lia.
Qed.

Lemma has_text_unique (s : string) (cs cs' : unistring) :
  has_text s cs → has_text s cs' → cs = cs'.
Proof.
  intros H H'. pose proof (has_text_length_nonneg _ _ H) as Hn.
  apply to_string_has_text in H, H'; [| done | done]. congruence.
Qed.

(** A valid rope has a text, and [string::to_string] gives it. *)
Lemma string_valid_text (s : string) :
  string_valid s → ∃ cs, string_to_string s = Some cs ∧ has_text s cs.
Proof.
  intros Hv. pose proof (string_valid_length s Hv) as Hlen.
  assert (Hloop : ∀ n i result, 0 ≤ i → i + Z.of_nat n ≤ string_length s →
            is_Some (to_string_loop s n i result)).
  { induction n as [| n IH]; intros i result Hi Hn; simpl; [done |].
    destruct (string_at_valid s Hv i) as [c ->]; [lia |]. simpl.
    apply IH; lia. }
  destruct (Hloop (Z.to_nat (string_length s)) 0 []) as [cs Hcs]; [lia | lia |].
  exists cs. split; [done |]. apply to_string_has_text; [lia | done].
Qed.

Lemma has_text_simple (cs : unistring) : has_text (simple_string cs) cs.
Proof.
  split; [done |]. intros k Hk. simpl.
  rewrite bool_decide_eq_true_2 by lia. by rewrite Nat2Z.id.
Qed.

(** The text of a concatenation, when the two lengths add up inside a
    [size_type]. *)
Lemma has_text_concat (a b : string) (ca cb : unistring) :
  has_text a ca → has_text b cb →
  string_length a + string_length b < size_modulus →
  has_text (concat_string a b) (ca ++ cb).
Proof.
  intros [Hla Ha] [Hlb Hb] Hsum. split.
  - simpl. rewrite wrap_size_small by lia. rewrite length_app. lia.
  - intros k Hk. rewrite length_app in Hk. simpl.
    case_bool_decide as Hlt.
    + rewrite lookup_app_l by lia. apply Ha. lia.
    + rewrite lookup_app_r by lia.
      rewrite wrap_size_small by lia.
      replace (Z.of_nat k - string_length a) with (Z.of_nat (k - length ca)) by lia.
      apply Hb. lia.
Qed.

(** The text of a slice that lies inside its original. *)
Lemma has_text_substring (s : string) (cs : unistring) (o l : Z) :
  has_text s cs → 0 ≤ o → 0 ≤ l → o + l ≤ string_length s →
  string_length s < size_modulus →
  has_text (substring s o l) (take (Z.to_nat l) (drop (Z.to_nat o) cs)).
Proof.
  intros [Hl Hat] Ho Hlen Hin Hmod.
  assert (Htake : length (take (Z.to_nat l) (drop (Z.to_nat o) cs)) = Z.to_nat l).
  { rewrite length_take, length_drop. lia. }
  split.
  - simpl. lia.
  - intros k Hk. rewrite Htake in Hk. simpl.
    rewrite wrap_size_small by lia.
    rewrite lookup_take_lt by lia. rewrite lookup_drop.
    replace (o + Z.of_nat k) with (Z.of_nat (Z.to_nat o + k)) by lia.
    apply Hat. lia.
Qed.

(** ** Lengths that leave [size_type] *)

Lemma string_length_concat (a b : string) :
  string_length (concat_string a b) = wrap_size (string_length a + string_length b).
Proof. reflexivity. Qed.

Lemma doubled_length (k : nat) (s : string) :
  string_length s = 1 → (k ≤ 63)%nat →
  string_length (doubled k s) = 2 ^ Z.of_nat k.
Proof.
  intros Hs. induction k as [| k IH]; intros Hk.
  - done.
  - cbn [doubled]. rewrite string_length_concat, IH by lia.
    rewrite wrap_size_small.
    + rewrite Nat2Z.inj_succ, Z.pow_succ_r by lia. lia.
    + assert (2 ^ Z.of_nat k ≤ 2 ^ 62) by (apply Z.pow_le_mono_r; lia).
      unfold size_modulus. lia.
Qed.

Lemma doubled_valid (k : nat) (s : string) :
  string_valid s → string_valid (doubled k s).
Proof.
  intros Hs. induction k as [| k IH]; [done |]. cbn [doubled string_valid]. done.
Qed.

(** C4 as the specification words it fails where the two lengths add up
    to 2^64 or more: [concat_string::length] adds them in [size_type].
    The rope of 2^63 letters made by doubling "a" 63 times keeps the rope
    invariant; concatenated with itself it has length 0, and its
    [to_string] is empty. *)
Lemma concat_length_wraps :
  let a := doubled 63 (simple_string (U "a")) in
  string_valid a
  ∧ string_length a = 2 ^ 63
  ∧ string_length (concat_string a a) = 0
  ∧ string_length (concat_string a a) ≠ string_length a + string_length a
  ∧ ∃ ca, string_to_string a = Some ca
          ∧ string_to_string (concat_string a a) ≠ Some (ca ++ ca).
Proof.
  intros a.
  assert (Hv : string_valid a) by (apply doubled_valid; vm_compute; done).
  assert (Hl : string_length a = 2 ^ 63).
  { unfold a. rewrite doubled_length; [done | done | lia]. }
  assert (Hc : string_length (concat_string a a) = 0).
  { rewrite string_length_concat, Hl. reflexivity. }
  split_and!; [done | done | done | rewrite Hc, Hl; lia |].
  destruct (string_valid_text a Hv) as (ca & Hca & [Hla _]).
  exists ca. split; [done |].
  unfold string_to_string. rewrite Hc. cbn [Z.to_nat to_string_loop].
  intros [= Happ]. symmetry in Happ. apply app_nil in Happ as [-> _].
  rewrite Hl in Hla. simpl in Hla. lia.
Qed.

(** C4, amended: for a rope of any of the three shapes that keeps the
    rope invariant, [to_string] gives a text with exactly [length()] code
    points whose [i]-th code point is [at(i)] for every [0 <= i <
    length()]; whenever [s.length() + b.length() < 2^64], the text of
    [concat(s, b)] is the text of [s] followed by the text of [b] and its
    length is the sum of the two lengths; the text of [slice(s, o, l)] is
    made of the code points [o] to [o + l] of the text of [s] whenever
    [o + l <= s.length()]. *)
Theorem string_to_string_at (s : string) (Hvalid : string_valid s) :
  ∃ cs : unistring,
    string_to_string s = Some cs
    ∧ Z.of_nat (length cs) = string_length s
    ∧ (∀ i, 0 ≤ i < string_length s →
         is_Some (string_at s i) ∧ string_at s i = cs !! Z.to_nat i)
    ∧ (∀ b cb, string_valid b → string_to_string b = Some cb →
         string_length s + string_length b < size_modulus →
         string_length (concat_string s b) = string_length s + string_length b
         ∧ string_to_string (concat_string s b) = Some (cs ++ cb))
    ∧ (∀ o l, 0 ≤ o → 0 ≤ l → o + l ≤ string_length s →
         string_to_string (substring s o l)
         = Some (take (Z.to_nat l) (drop (Z.to_nat o) cs))).
Proof.
  destruct (string_valid_text s Hvalid) as (cs & Hcs & Htext).
  pose proof (string_valid_length s Hvalid) as Hlen.
  exists cs. split_and!.
  - done.
  - destruct Htext as [Hl _]. lia.
  - intros i Hi. split; [by apply string_at_valid |]. by apply has_text_at.
  - intros b cb Hb Hcb Hsum.
    pose proof (string_valid_length b Hb) as Hlb.
    apply to_string_has_text in Hcb; [| lia].
    pose proof (has_text_concat s b cs cb Htext Hcb Hsum) as Hcat.
    split.
    + simpl. apply wrap_size_small. lia.
    + apply to_string_has_text; [| done]. by eapply has_text_length_nonneg.
  - intros o l Ho Hl Hin.
    apply to_string_has_text; [simpl; lia |].
    apply has_text_substring; [done | done | done | done | lia].
Qed.

Lemma string_to_string_at_witness :
  ∃ cs : unistring,
    string_to_string (concat_string (simple_string (U "foo")) (simple_string (U "bar")))
    = Some cs
    ∧ string_to_string
        (substring (concat_string (simple_string (U "foo")) (simple_string (U "bar"))) 2 3)
      = Some (take 3 (drop 2 cs)).
Proof.
  destruct (string_to_string_at
              (concat_string (simple_string (U "foo")) (simple_string (U "bar"))))
    as (cs & Hcs & _ & _ & _ & Hslice).
  - vm_compute. done.
  - exists cs. split; [exact Hcs |]. apply (Hslice 2 3); vm_compute; discriminate.
Defined.

(** ** Equality of strings *)

Lemma equals_loop_text (this str : string) (ct cs : unistring) (n i : nat) :
  has_text this ct → has_text str cs → length ct = length cs →
  (i + n = length ct)%nat →
  equals_loop this str n (Z.of_nat i) = Some (bool_decide (drop i ct = drop i cs)).
Proof.
  intros [_ Hthis] [_ Hstr] Hlen. revert i.
  induction n as [| n IH]; intros i Hi; simpl.
  - rewrite !drop_ge by lia. by rewrite bool_decide_eq_true_2.
  - destruct (lookup_lt_is_Some_2 ct i) as [a Ha]; [lia |].
    destruct (lookup_lt_is_Some_2 cs i) as [b Hb]; [lia |].
    rewrite Hthis, Ha by lia. simpl. rewrite Hstr, Hb by lia. simpl.
    rewrite (drop_S ct a i Ha), (drop_S cs b i Hb).
    case_bool_decide as Hab.
    + rewrite bool_decide_eq_false_2; [done |]. intros [= ? _]. done.
    + subst b.
      replace (Z.of_nat i + 1) with (Z.of_nat (S i)) by lia.
      rewrite IH by lia. f_equal. apply bool_decide_ext. split; [congruence |].
      intros [= ?]. done.
Qed.

(** On two strings that have a text, [string::equals] compares the
    texts. *)
Lemma string_equals_text (this str : string) (ct cs : unistring) :
  has_text this ct → has_text str cs →
  string_equals this (string_ref str) = Some (bool_decide (ct = cs)).
Proof.
  intros Hthis Hstr. simpl.
  pose proof Hthis as [Hlt _]. pose proof Hstr as [Hls _].
  case_bool_decide as Hne.
  - rewrite bool_decide_eq_false_2; [done |]. intros ->. lia.
  - rewrite (equals_loop_text this str ct cs _ 0 Hthis Hstr); [done | lia | lia].
Qed.

(** Two texts of one length are equal when they agree at every index. *)
Lemma text_eq_pointwise (this str : string) (ct cs : unistring) :
  has_text this ct → has_text str cs →
  ct = cs ↔
  string_length this = string_length str
  ∧ ∀ i, 0 ≤ i < string_length this → string_at this i = string_at str i.
Proof.
  intros Hthis Hstr. split.
  - intros <-. pose proof Hthis as [Hlt _]. pose proof Hstr as [Hls _].
    split; [lia |]. intros i Hi.
    rewrite (has_text_at this ct i), (has_text_at str ct i); [done | done | lia | done | lia].
  - intros [Hlen Hat]. pose proof Hthis as [Hlt _]. pose proof Hstr as [Hls _].
    apply list_eq_same_length with (length ct); [lia | lia |].
    intros k a b Hk Ha Hb.
    rewrite <- (Nat2Z.id k) in Ha, Hb.
    rewrite <- (has_text_at this ct) in Ha by (done || lia).
    rewrite <- (has_text_at str cs) in Hb by (done || lia).
    rewrite Hat in Ha by lia. congruence.
Qed.

(** The loop of [string::equals] ends with [true] exactly when every pair
    of reads it makes gives one and the same code point. *)
Lemma equals_loop_true (this str : string) (n : nat) (i : Z) :
  equals_loop this str n i = Some true ↔
  ∀ k : nat, (k < n)%nat →
    ∃ c, string_at this (i + Z.of_nat k) = Some c
         ∧ string_at str (i + Z.of_nat k) = Some c.
Proof.
  revert i. induction n as [| n IH]; intros i; cbn [equals_loop].
  - split; [intros _ k Hk; lia | done].
  - split.
    + destruct (string_at this i) as [a |] eqn:Ha; [| done].
      destruct (string_at str i) as [b |] eqn:Hb; [| done].
      cbn [mbind option_bind]. case_bool_decide as Hab; [done |].
      subst b. intros Hrest. pose proof (proj1 (IH (i + 1)) Hrest) as Hall.
      clear Hrest. rename Hall into Hrest.
      intros k Hk. destruct k as [| k].
      * exists a. by rewrite Z.add_0_r.
      * destruct (Hrest k ltac:(lia)) as (c & Hc1 & Hc2). exists c.
        replace (i + Z.of_nat (S k)) with (i + 1 + Z.of_nat k) by lia. done.
    + intros Hall. destruct (Hall 0%nat ltac:(lia)) as (c & Hc1 & Hc2).
      rewrite Z.add_0_r in Hc1, Hc2. rewrite Hc1, Hc2. cbn [mbind option_bind].
      rewrite bool_decide_eq_false_2 by (intros H; by apply H).
      apply IH. intros k Hk. destruct (Hall (S k) ltac:(lia)) as (d & Hd1 & Hd2).
      exists d. replace (i + 1 + Z.of_nat k) with (i + Z.of_nat (S k)) by lia. done.
Qed.

Lemma string_equals_true (this str : string) :
  string_equals this (string_ref str) = Some true ↔
  string_length this = string_length str
  ∧ ∀ i, 0 ≤ i < string_length this →
      ∃ c, string_at this i = Some c ∧ string_at str i = Some c.
Proof.
  cbn [string_equals string_ref]. case_bool_decide as Hlen.
  - split; [done | by intros [? _]].
  - rewrite equals_loop_true. split.
    + intros Hall. split; [done |]. intros i Hi.
      destruct (Hall (Z.to_nat i) ltac:(lia)) as (c & Hc). exists c.
      by rewrite Z.add_0_l, Z2Nat.id in Hc by lia.
    + intros [_ Hall] k Hk. rewrite Z.add_0_l. apply Hall. lia.
Qed.

(** C10: [string::equals] only gives back a boolean (it has no context
    to set an error in); the boolean is [false] when [that] is the null
    reference or is not of type string, and when the two lengths differ;
    on a string it is [true] exactly when the two have the same length
    and the same code point at every index below it; on strings that keep
    the rope invariant it always gives a boolean. *)
Theorem string_equals_spec (this : string) (that : ref_value) :
  (value_type that ≠ type_string → string_equals this that = Some false)
  ∧ (∀ str, that = string_ref str →
       string_length this ≠ string_length str →
       string_equals this that = Some false)
  ∧ (∀ str, that = string_ref str →
       (string_equals this that = Some true ↔
        string_length this = string_length str
        ∧ ∀ i, 0 ≤ i < string_length this →
            ∃ c, string_at this i = Some c ∧ string_at str i = Some c))
  ∧ (∀ str, that = string_ref str → string_valid this → string_valid str →
       ∃ b : bool,
         string_equals this that = Some b
         ∧ (b = true ↔
            string_length this = string_length str
            ∧ ∀ i, 0 ≤ i < string_length this →
                   string_at this i = string_at str i)).
Proof.
  split_and!.
  - intros Hty. destruct that as [[] |]; try done.
  - intros str -> Hne. simpl. by rewrite bool_decide_eq_true_2.
  - intros str ->. apply string_equals_true.
  - intros str -> Hthis Hstr.
    destruct (string_valid_text this Hthis) as (ct & _ & Hct).
    destruct (string_valid_text str Hstr) as (cs & _ & Hcs).
    exists (bool_decide (ct = cs)). split; [by apply string_equals_text |].
    rewrite bool_decide_eq_true. by apply text_eq_pointwise.
Qed.

Lemma string_equals_spec_witness :
  string_equals (simple_string (U "ab")) None = Some false
  ∧ string_equals (simple_string (U "ab")) (Some (val_boolean true)) = Some false
  ∧ string_equals (simple_string (U "ab")) (string_ref (simple_string (U "abc")))
    = Some false
  ∧ ∃ b : bool,
      string_equals (simple_string (U "ab"))
        (string_ref (concat_string (simple_string (U "a")) (simple_string (U "b"))))
      = Some b.
Proof.
  split_and!.
  - apply (string_equals_spec (simple_string (U "ab")) None). discriminate.
  - apply (string_equals_spec (simple_string (U "ab")) (Some (val_boolean true))).
    discriminate.
  - eapply (string_equals_spec (simple_string (U "ab"))); [reflexivity |].
    vm_compute. discriminate.
  - destruct (string_equals_spec (simple_string (U "ab"))
                (string_ref (concat_string (simple_string (U "a")) (simple_string (U "b")))))
      as (_ & _ & _ & Hstr).
    destruct (Hstr _ eq_refl) as (b & Hb & _); [vm_compute; done | vm_compute; done |].
    exists b. exact Hb.
Defined.

(** ** Popping what was pushed *)

Lemma pop_string_top (err : option error) (rest : list ref_value) (s : string) :
  pop_string (mk_context err (string_ref s :: rest)) = (mk_context err rest, Some s).
Proof. reflexivity. Qed.

Lemma pop_number_top (err : option error) (rest : list ref_value) (n : number) :
  pop_number (mk_context err (Some (val_number n) :: rest))
  = (mk_context err rest, Some n).
Proof. reflexivity. Qed.

(** ** Word [+] *)

(** C3 as the specification words it fails at two places.  When [x] and
    [y] are both empty and are not one and the same string, [+] pushes
    [x], not [y]: the test of [y] comes first.  And when the two lengths
    add up to 2^64 or more, the node [+] makes has a wrapped length: for
    the rope of 2^63 letters made by doubling "a" 63 times, pushed twice,
    the node has length 0 and holds no code point at all. *)
Lemma w_concat_not_always_append :
  (let x := simple_string [] in
   let y := substring (simple_string (U " ")) 0 0 in
   string_length x = 0 ∧ string_length y = 0 ∧ x ≠ y
   ∧ w_concat (mk_context None [string_ref y; string_ref x])
     = Some (mk_context None [string_ref x]))
  ∧ (let a := doubled 63 (simple_string (U "a")) in
     string_valid a ∧ string_length a = 2 ^ 63
     ∧ w_concat (mk_context None [string_ref a; string_ref a])
       = Some (mk_context None [string_ref (concat_string a a)])
     ∧ string_length (concat_string a a) = 0
     ∧ string_to_string (concat_string a a) = Some []).
Proof.
  split.
  - split_and!; done.
  - intros a.
    assert (Hl : string_length a = 2 ^ 63).
    { unfold a. rewrite doubled_length; [done | done | lia]. }
    assert (Hc : string_length (concat_string a a) = 0).
    { rewrite string_length_concat, Hl. reflexivity. }
    split_and!.
    + apply doubled_valid. vm_compute. done.
    + done.
    + unfold w_concat. rewrite !pop_string_top. unfold string_empty.
      rewrite Hl. reflexivity.
    + done.
    + unfold string_to_string. rewrite Hc. reflexivity.
Qed.

(** C3, amended: with [x] pushed first and [y] on top, [+] leaves in
    their place one string [r]: [x] itself when [y] is empty, otherwise
    [y] itself when [x] is empty, and a new [concat_string] of [x] and
    [y] only when neither is, so that a node made by [+] has no side of
    length zero; whenever [x.length() + y.length() < 2^64] the text of
    [r] is the text of [x] followed by the text of [y] ("foo" then "bar"
    gives "foobar"). *)
Theorem w_concat_spec (err : option error) (rest : list ref_value) (x y : string) :
  ∃ r : string,
    w_concat (mk_context err (string_ref y :: string_ref x :: rest))
    = Some (mk_context err (string_ref r :: rest))
    ∧ (string_length y = 0 → r = x)
    ∧ (string_length y ≠ 0 → string_length x = 0 → r = y)
    ∧ (string_length y ≠ 0 → string_length x ≠ 0 → r = concat_string x y)
    ∧ (r = concat_string x y → string_length x ≠ 0 ∧ string_length y ≠ 0)
    ∧ (∀ cx cy, string_to_string x = Some cx → string_to_string y = Some cy →
         string_valid x → string_valid y →
         string_length x + string_length y < size_modulus →
         string_to_string r = Some (cx ++ cy)).
Proof.
  assert (Hnot_x : ∀ a b : string, a ≠ concat_string a b).
  { induction a as [| l IHl r IHr |]; intros b; try done. intros [= H1 H2].
    by apply (IHl r). }
  assert (Hnot_y : ∀ a b : string, b ≠ concat_string a b).
  { intros a b. revert a. induction b as [| l IHl r IHr |]; intros a; try done.
    intros [= H1 H2]. by apply (IHr l). }
  unfold w_concat, pop_string, pop_typed, string_empty. simpl.
  destruct (decide (string_length y = 0)) as [Hy | Hy].
  - rewrite bool_decide_eq_true_2 by done.
    exists x. split_and!; try done.
    + intros H. by apply Hnot_x in H.
    + intros cx cy Hx Hcy Hvx Hvy _.
      apply to_string_has_text in Hcy as [Hl _]; [| lia].
      destruct cy; [| simpl in Hl; lia]. by rewrite app_nil_r.
  - rewrite (bool_decide_eq_false_2 (string_length y = 0)) by done.
    destruct (decide (string_length x = 0)) as [Hx | Hx].
    + rewrite bool_decide_eq_true_2 by done.
      exists y. split_and!; try done.
      * intros H. by apply Hnot_y in H.
      * intros cx cy Hcx Hcy Hvx Hvy _.
        apply to_string_has_text in Hcx as [Hl _]; [| lia].
        destruct cx; [| simpl in Hl; lia]. done.
    + rewrite bool_decide_eq_false_2 by done.
      exists (concat_string x y). split_and!; try done.
      intros cx cy Hcx Hcy Hvx Hvy Hsum.
      pose proof (string_valid_length x Hvx). pose proof (string_valid_length y Hvy).
      apply to_string_has_text in Hcx; [| lia].
      apply to_string_has_text in Hcy; [| lia].
      pose proof (has_text_concat x y cx cy Hcx Hcy Hsum) as Hcat.
      apply to_string_has_text; [| done]. by eapply has_text_length_nonneg.
Qed.

Lemma w_concat_spec_witness :
  ∃ r : string,
    w_concat (mk_context None
                [string_ref (simple_string (U "bar")); string_ref (simple_string (U "foo"))])
    = Some (mk_context None [string_ref r])
    ∧ r = concat_string (simple_string (U "foo")) (simple_string (U "bar"))
    ∧ string_to_string r = Some (U "foobar").
Proof.
  destruct (w_concat_spec None [] (simple_string (U "foo")) (simple_string (U "bar")))
    as (r & Hrun & _ & _ & Hnode & _ & Htext).
  exists r. split_and!.
  - exact Hrun.
  - apply Hnode; vm_compute; discriminate.
  - apply (Htext (U "foo") (U "bar")); vm_compute; done.
Defined.

(** ** Word [reverse] *)

(** The loop of [w_reverse] fills the array from the left with the code
    points read from the right. *)
Lemma reverse_loop_text (str : string) (cs : unistring) (n : nat) (i : Z)
    (result : list Z) :
  has_text str cs → i = Z.of_nat n → (n ≤ length cs)%nat →
  length result = length cs →
  take (length cs - n) result = reverse (drop n cs) →
  reverse_loop str (Z.of_nat (length cs)) n i result = Some (reverse cs).
Proof.
  intros [_ Hat]. revert i result.
  induction n as [| n IH]; intros i result Hi Hn Hlen Htake; simpl.
  - rewrite take_ge in Htake by lia. by rewrite Htake, drop_0.
  - destruct (lookup_lt_is_Some_2 cs n) as [c Hc]; [lia |].
    replace (i - 1) with (Z.of_nat n) by lia.
    rewrite Hat, Hc by lia. simpl.
    replace (Z.to_nat (Z.of_nat (length cs) - i)) with (length cs - S n)%nat by lia.
    apply IH; [done | lia | by rewrite length_insert |].
    replace (length cs - n)%nat with (S (length cs - S n)) by lia.
    rewrite (take_S_r _ _ c) by (apply list_lookup_insert_eq; lia).
    rewrite take_insert_ge by lia.
    rewrite Htake, (drop_S cs c n Hc). by rewrite reverse_cons.
Qed.

(** What [reverse] does to a string that has a text. *)
Lemma w_reverse_text (err : option error) (rest : list ref_value)
    (s : string) (cs : unistring) :
  has_text s cs →
  w_reverse (mk_context err (string_ref s :: rest))
  = Some (mk_context err (string_ref (simple_string (reverse cs)) :: rest)).
Proof.
  intros Hs. pose proof Hs as [Hl _].
  unfold w_reverse, pop_string, pop_typed. simpl. rewrite Hl, Nat2Z.id.
  rewrite (reverse_loop_text s cs (length cs) _ _ Hs).
  - simpl. unfold push_string, push, runtime_string. simpl.
    rewrite Nat2Z.id, take_ge by (rewrite length_reverse; lia). done.
  - done.
  - lia.
  - apply length_replicate.
  - rewrite Nat.sub_diag, drop_ge by lia. done.
Qed.

(** C8: on a string that keeps the rope invariant, [reverse] pushes a new
    [simple_string] of the same length that holds the code points in
    reverse order, and applying [reverse] to that again gives a string
    that [equals] the first one. *)
Theorem w_reverse_involutive (err : option error) (rest : list ref_value)
    (s : string) (Hvalid : string_valid s) :
  ∃ (cs : unistring) (r2 : string),
    string_to_string s = Some cs
    ∧ w_reverse (mk_context err (string_ref s :: rest))
      = Some (mk_context err (string_ref (simple_string (reverse cs)) :: rest))
    ∧ string_length (simple_string (reverse cs)) = string_length s
    ∧ w_reverse (mk_context err (string_ref (simple_string (reverse cs)) :: rest))
      = Some (mk_context err (string_ref r2 :: rest))
    ∧ string_equals r2 (string_ref s) = Some true.
Proof.
  destruct (string_valid_text s Hvalid) as (cs & Hcs & Htext).
  exists cs, (simple_string (reverse (reverse cs))). split_and!.
  - done.
  - by apply w_reverse_text.
  - destruct Htext as [Hl _]. simpl. rewrite length_reverse. lia.
  - apply w_reverse_text, has_text_simple.
  - rewrite reverse_involutive.
    rewrite (string_equals_text _ s cs cs (has_text_simple cs) Htext).
    by rewrite bool_decide_eq_true_2.
Qed.

Lemma w_reverse_involutive_witness :
  ∃ (cs : unistring) (r2 : string),
    string_to_string (substring (simple_string (U " abc ")) 1 3) = Some cs
    ∧ w_reverse (mk_context None [string_ref (substring (simple_string (U " abc ")) 1 3)])
      = Some (mk_context None [string_ref (simple_string (reverse cs))])
    ∧ string_length (simple_string (reverse cs))
      = string_length (substring (simple_string (U " abc ")) 1 3)
    ∧ w_reverse (mk_context None [string_ref (simple_string (reverse cs))])
      = Some (mk_context None [string_ref r2])
    ∧ string_equals r2 (string_ref (substring (simple_string (U " abc ")) 1 3)) = Some true.
Proof.
  apply (w_reverse_involutive None [] (substring (simple_string (U " abc ")) 1 3)).
  vm_compute. split_and!; done.
Defined.

(** ** Word [*] *)

Lemma repeat_loop_text (str : string) (cs : unistring) (n : nat) (result : list Z) :
  has_text str cs →
  repeat_loop str (string_length str) n result
  = Some (result ++ concat (replicate n cs)).
Proof.
  intros [Hl Hat]. revert result.
  induction n as [| n IH]; intros result; simpl.
  - by rewrite app_nil_r.
  - rewrite (to_string_loop_text str _ 0 result cs); [| lia |].
    + simpl. rewrite IH. by rewrite <- app_assoc.
    + intros k Hk. rewrite Z.add_0_l. apply Hat. lia.
Qed.

(** Away from the count -2^63 the word does what C7 says: with a number
    [n] on the stack and a string [s] on top of it, [*] replaces both by
    one new [simple_string] that holds the text of [s] repeated [|n|]
    times, [n] being the count as an integer (a real rounded towards
    zero). *)
Lemma w_repeat_text (err : option error) (rest : list ref_value)
    (s : string) (n : number)
    (Hvalid : string_valid s) (Hn : int64_min < as_int n ≤ int64_max) :
  ∃ cs : unistring,
    string_to_string s = Some cs
    ∧ w_repeat (mk_context err (string_ref s :: Some (val_number n) :: rest))
      = Some (mk_context err
                (string_ref
                   (simple_string (concat (replicate (Z.to_nat (Z.abs (as_int n))) cs)))
                 :: rest)).
Proof.
  destruct (string_valid_text s Hvalid) as (cs & Hcs & Htext).
  exists cs. split; [done |].
  unfold w_repeat, pop_string, pop_number, pop_typed. simpl.
  assert (Hcount : (if bool_decide (as_int n < 0) then wrap_int64 (- as_int n)
                    else as_int n) = Z.abs (as_int n)).
  { unfold int64_min, int64_max in Hn. case_bool_decide.
    - rewrite wrap_int64_small by (unfold int64_min, int64_max; lia). lia.
    - lia. }
  rewrite Hcount, (repeat_loop_text s cs _ [] Htext). simpl.
  unfold push_string_of, push, runtime_string_of, runtime_string. simpl.
  by rewrite Nat2Z.id, take_ge by lia.
Qed.

Example w_repeat_ab_3 :
  w_repeat (mk_context None [string_ref (simple_string (U "ab"));
                             Some (val_number (number_int 3))])
  = Some (mk_context None [string_ref (simple_string (U "ababab"))]).
Proof. reflexivity. Qed.

Example w_repeat_ab_real :
  w_repeat (mk_context None [string_ref (simple_string (U "ab"));
                             Some (val_number (number_real (- 7 # 2)))])
  = Some (mk_context None [string_ref (simple_string (U "ababab"))]).
Proof. reflexivity. Qed.

(** C7, where the source fails it: the count -2^63 is negative, but
    [count = -count] cannot make it positive in a signed 64-bit integer:
    it stays -2^63, the loop [while (count > 0)] is not entered, and [*]
    pushes the empty string where 2^63 copies of "ab" are due. *)
Theorem w_repeat_int64_min :
  as_int (number_int int64_min) < 0
  ∧ Z.abs (as_int (number_int int64_min)) = 2 ^ 63
  ∧ w_repeat (mk_context None [string_ref (simple_string (U "ab"));
                               Some (val_number (number_int int64_min))])
    = Some (mk_context None [string_ref (simple_string [])]).
Proof. split_and!; reflexivity. Qed.

(** ** Word [lines] *)

Local Ltac lines_close :=
  rewrite fmap_cons, <- app_assoc; unfold span_slice at 2;
  cbn [fst snd app]; repeat f_equal; lia.

Local Ltac lines_step IH := rewrite IH by lia; lines_close.

(** The loop of [w_lines], from index [i] on with the current line begun
    at [begin], finds the spans of [line_spans] over the text that is
    left; fuel that covers the distance to the end is enough. *)
Lemma lines_loop_spans (str : string) (cs : unistring) (fuel : nat) :
  has_text str cs → string_length str < size_modulus →
  ∀ (i : nat) (begin : Z) (result : list ref_value),
    0 ≤ begin ≤ Z.of_nat i → (i ≤ length cs)%nat → (length cs - i ≤ fuel)%nat →
    lines_finish str <$>
      lines_loop fuel str (string_length str) (Z.of_nat i) begin (Z.of_nat i) result
    = Some (result
            ++ (span_slice str <$> line_spans begin (Z.of_nat i - begin) (drop i cs))).
Proof.
  intros [Hl Hat] Hmod. rewrite Hl in *.
  induction fuel as [| fuel IH]; intros i begin result Hb Hi Hfuel.
  - assert (i = length cs) as -> by lia. simpl.
    rewrite bool_decide_eq_false_2 by lia. simpl.
    rewrite drop_ge by lia. simpl.
    rewrite wrap_size_small by lia.
    case_bool_decide; case_bool_decide; try lia; simpl; by rewrite ?app_nil_r.
  - cbn [lines_loop]. case_bool_decide as Hlt.
    2:{ assert (i = length cs) as -> by lia. simpl.
        rewrite drop_ge by lia. simpl. rewrite wrap_size_small by lia.
        case_bool_decide; case_bool_decide; try lia; simpl; by rewrite ?app_nil_r. }
    destruct (lookup_lt_is_Some_2 cs i) as [c Hc]; [lia |].
    rewrite Hat, Hc by lia. cbn [mbind option_bind].
    rewrite (drop_S cs c i Hc). cbn [line_spans].
    rewrite wrap_size_small by lia.
    replace (Z.of_nat i + 1) with (Z.of_nat (S i)) by lia.
    replace (Z.of_nat i + 2) with (Z.of_nat (S (S i))) by lia.
    destruct (decide (c = 13)) as [-> | Hcr].
    + rewrite (bool_decide_eq_true_2 (13 = 13)) by done.
      destruct (decide (S i < length cs)%nat) as [Hnext | Hlast].
      * destruct (lookup_lt_is_Some_2 cs (S i)) as [d Hd]; [lia |].
        rewrite (bool_decide_eq_true_2 (Z.of_nat (S i) < Z.of_nat (length cs))) by lia.
        rewrite Hat, Hd by lia. cbn [andb mbind option_bind].
        rewrite (drop_S cs d (S i) Hd).
        case_bool_decide as Hlf.
        -- lines_step IH.
        -- cbn [orb bool_decide]. rewrite orb_true_r.
           rewrite <- (drop_S cs d (S i) Hd). lines_step IH.
      * rewrite (bool_decide_eq_false_2 (Z.of_nat (S i) < Z.of_nat (length cs))) by lia.
        cbn [andb mbind option_bind]. rewrite orb_true_r.
        rewrite IH by lia. rewrite !(drop_ge cs (S i)) by lia. lines_close.
    + rewrite (bool_decide_eq_false_2 (c = 13)) by done.
      rewrite andb_false_r. cbn [mbind option_bind]. rewrite orb_false_r.
      case_bool_decide as Hlf.
      * lines_step IH.
      * rewrite IH by lia. repeat f_equal. lia.
Qed.

(** The text under every span of [line_spans] is the line of
    [split_lines] at the same place. *)
Lemma line_spans_text (n : nat) :
  ∀ text pre line : list Z, (length text ≤ n)%nat →
    span_text (pre ++ line ++ text)
      <$> line_spans (Z.of_nat (length pre)) (Z.of_nat (length line)) text
    = split_lines line text.
Proof.
  assert (Hspan : ∀ pre line text : list Z,
            span_text (pre ++ line ++ text)
              (Z.of_nat (length pre), Z.of_nat (length line)) = line).
  { intros pre line text. unfold span_text. cbn [fst snd].
    rewrite !Nat2Z.id, drop_app_length, take_app_length. done. }
  assert (Hnext : ∀ (pre line sep rest : list Z) (k : Z),
            k = Z.of_nat (length sep) →
            (∀ pre' : list Z, span_text (pre' ++ [] ++ rest)
               <$> line_spans (Z.of_nat (length pre')) (Z.of_nat (length (@nil Z))) rest
               = split_lines [] rest) →
            span_text (pre ++ line ++ sep ++ rest)
              <$> line_spans (Z.of_nat (length pre) + Z.of_nat (length line) + k) 0 rest
            = split_lines [] rest).
  { intros pre line sep rest k -> IH.
    specialize (IH (pre ++ line ++ sep)). rewrite !length_app in IH.
    rewrite <- !app_assoc in IH. cbn [app length] in IH.
    rewrite <- IH. do 2 f_equal. lia. }
  induction n as [| n IH]; intros text pre line Hn.
  - destruct text; [| simpl in Hn; lia]. cbn [line_spans split_lines].
    destruct line as [| c line].
    + rewrite bool_decide_eq_false_2 by (simpl; lia).
      by rewrite bool_decide_eq_true_2.
    + rewrite bool_decide_eq_true_2 by (simpl; lia).
      rewrite bool_decide_eq_false_2 by done.
      rewrite fmap_cons, Hspan. done.
  - destruct text as [| c rest].
    { apply IH. simpl. lia. }
    cbn [line_spans split_lines]. simpl in Hn.
    case_bool_decide as Hcr.
    + destruct rest as [| d rest'].
      * rewrite fmap_cons, Hspan. by f_equal.
      * case_bool_decide as Hlf.
        -- rewrite fmap_cons, Hspan. f_equal.
           apply (Hnext pre line [c; d] rest' 2); [done |].
           intros pre'. apply IH. simpl in Hn. lia.
        -- rewrite fmap_cons, Hspan. f_equal.
           apply (Hnext pre line [c] (d :: rest') 1); [done |].
           intros pre'. apply IH. lia.
    + case_bool_decide as Hlf.
      * rewrite fmap_cons, Hspan. f_equal.
        apply (Hnext pre line [c] rest 1); [done |]. intros pre'. apply IH. lia.
      * specialize (IH rest pre (line ++ [c]) ltac:(lia)).
        rewrite length_app, <- app_assoc in IH. cbn [app length] in IH.
        rewrite <- IH. do 2 f_equal. lia.
Qed.

(** Every span of [line_spans] lies inside the text that was scanned. *)
Lemma line_spans_range (text : list Z) :
  ∀ (begin len : Z) (span : Z * Z), 0 ≤ begin → 0 ≤ len →
    span ∈ line_spans begin len text →
    0 ≤ span.1 ∧ 0 ≤ span.2 ∧ span.1 + span.2 ≤ begin + len + Z.of_nat (length text).
Proof.
  assert (Hlen : ∀ n : nat, ∀ text : list Z, (length text ≤ n)%nat →
            ∀ (begin len : Z) (span : Z * Z), 0 ≤ begin → 0 ≤ len →
              span ∈ line_spans begin len text →
              0 ≤ span.1 ∧ 0 ≤ span.2
              ∧ span.1 + span.2 ≤ begin + len + Z.of_nat (length text)).
  { clear text. induction n as [| n IH]; intros text Hn begin len span Hb Hl.
    - destruct text; [| simpl in Hn; lia]. simpl.
      case_bool_decide; [| by intros ?%elem_of_nil].
      intros ->%list_elem_of_singleton. simpl. lia.
    - destruct text as [| c rest]; [apply (IH []); simpl; lia |].
      cbn [line_spans]. simpl in Hn.
      assert (Hstep : ∀ (k : Z) (rest' : list Z), 0 ≤ k →
                (length rest' ≤ n)%nat →
                k + Z.of_nat (length rest') ≤ Z.of_nat (length (c :: rest)) →
                span ∈ (begin, len) :: line_spans (begin + len + k) 0 rest' →
                0 ≤ span.1 ∧ 0 ≤ span.2
                ∧ span.1 + span.2 ≤ begin + len + Z.of_nat (length (c :: rest))).
      { intros k rest' Hk Hr Hkr [-> | Hin]%elem_of_cons.
        - simpl. lia.
        - apply IH in Hin; [| lia ..]. lia. }
      case_bool_decide as Hcr.
      + destruct rest as [| d rest'].
        * apply (Hstep 1 []); simpl; lia.
        * case_bool_decide as Hlf.
          -- apply (Hstep 2 rest'); simpl in *; lia.
          -- apply (Hstep 1 (d :: rest')); simpl in *; lia.
      + case_bool_decide as Hlf.
        * apply (Hstep 1 rest); simpl in *; lia.
        * intros Hin. apply IH in Hin; [| lia ..]. simpl. lia. }
  intros begin len span. by apply (Hlen (length text)).
Qed.

(** C5: [lines] pushes the string back and, on top of it, the array of
    the slices of the string that [line_spans] finds in its text by a
    scan from the left; the texts of these slices are the lines of
    [split_lines]: CR LF ends a line and is skipped as a pair, a lone LF
    or CR ends a line, a line ended by a separator is there even when
    empty, the tail is there only when not empty. *)
Theorem w_lines_spec (err : option error) (rest : list ref_value)
    (s : string) (Hvalid : string_valid s) :
  ∃ cs : unistring,
    string_to_string s = Some cs
    ∧ w_lines (mk_context err (string_ref s :: rest))
      = Some (mk_context err
                (Some (val_array (span_slice s <$> line_spans 0 0 cs))
                 :: string_ref s :: rest))
    ∧ mapM (λ span : Z * Z, string_to_string (substring s span.1 span.2))
        (line_spans 0 0 cs)
      = Some (split_lines [] cs).
Proof.
  destruct (string_valid_text s Hvalid) as (cs & Hcs & Htext).
  pose proof (string_valid_length s Hvalid) as Hlen.
  pose proof Htext as [Hl _].
  exists cs. split_and!; [done | |].
  - pose proof (lines_loop_spans s cs (Z.to_nat (string_length s)) Htext
                  ltac:(lia) 0%nat 0 [] ltac:(lia) ltac:(lia) ltac:(lia)) as Hloop.
    rewrite drop_0 in Hloop. cbn [app] in Hloop.
    change (Z.of_nat 0) with 0 in Hloop. rewrite Z.sub_diag in Hloop.
    unfold w_lines. rewrite pop_string_top.
    destruct (lines_loop _ _ _ _ _ _ _) as [[[begin end_] result] |]; [| done].
    injection Hloop as Hloop. unfold lines_finish in Hloop.
    cbn [mbind option_bind]. rewrite Hloop.
    unfold push_array, push. cbn [m_data m_error].
    by rewrite Nat2Z.id, take_ge by lia.
  - apply mapM_Some. rewrite <- (line_spans_text (length cs) cs [] [] ltac:(lia)).
    cbn [app length]. change (Z.of_nat 0) with 0.
    apply Forall2_fmap_r, Forall_Forall2_diag, Forall_forall.
    intros span Hin.
    apply line_spans_range in Hin as (Hb & Hn & Hin); [| lia ..].
    apply to_string_has_text; [simpl; lia |].
    apply has_text_substring; [done | lia ..].
Qed.

Lemma w_lines_spec_witness :
  let s := simple_string (U "line1" ++ [10] ++ U "line2" ++ [13; 10] ++ U "line3"
                          ++ [13] ++ U "line4") in
  w_lines (mk_context None [string_ref s])
  = Some (mk_context None
            [Some (val_array [string_ref (substring s 0 5); string_ref (substring s 6 5);
                              string_ref (substring s 13 5); string_ref (substring s 19 5)]);
             string_ref s])
  ∧ mapM string_to_string
      [substring s 0 5; substring s 6 5; substring s 13 5; substring s 19 5]
    = Some [U "line1"; U "line2"; U "line3"; U "line4"].
Proof.
  intros s.
  destruct (w_lines_spec None [] s) as (cs & Hcs & Hrun & Htexts);
    [vm_compute; done |].
  injection Hcs as <-. split; [exact Hrun | exact Htexts].
Defined.

Example split_lines_four :
  split_lines [] (U "line1" ++ [10] ++ U "line2" ++ [13; 10] ++ U "line3" ++ [13] ++ U "line4")
  = [U "line1"; U "line2"; U "line3"; U "line4"].
Proof. reflexivity. Qed.

Example split_lines_trailing :
  split_lines [] (U "a" ++ [10; 10] ++ U "b" ++ [13; 10]) = [U "a"; []; U "b"].
Proof. reflexivity. Qed.

Example w_lines_four :
  let s := simple_string (U "line1" ++ [10] ++ U "line2" ++ [13; 10] ++ U "line3"
                          ++ [13] ++ U "line4") in
  w_lines (mk_context None [string_ref s])
  = Some (mk_context None
            [Some (val_array [string_ref (substring s 0 5); string_ref (substring s 6 5);
                              string_ref (substring s 13 5); string_ref (substring s 19 5)]);
             string_ref s]).
Proof. reflexivity. Qed.

(** ** Word [trim] *)

(** A new slice node is not the string it is a slice of. *)
Lemma substring_neq (s : string) (o l : Z) : substring s o l ≠ s.
Proof.
  revert o l. induction s as [| | s IH off len]; intros o l; try done.
  intros [= Hs _ _]. by apply IH in Hs.
Qed.

Section trim.

Variable unichar_isspace : Z → bool.

Lemma scan_left_all_space (str : string) (cs : list Z) (n i : nat) :
  has_text str cs → (∀ c, c ∈ cs → unichar_isspace c = true) →
  (i + n = length cs)%nat →
  scan_left unichar_isspace str n (Z.of_nat i) = Some (Z.of_nat (length cs)).
Proof.
  intros [_ Hat] Hspace. revert i.
  induction n as [| n IH]; intros i Hi; simpl.
  - f_equal. lia.
  - destruct (lookup_lt_is_Some_2 cs i) as [c Hc]; [lia |].
    rewrite Hat, Hc by lia. simpl.
    rewrite (Hspace c) by (by eapply list_elem_of_lookup_2). simpl.
    replace (Z.of_nat i + 1) with (Z.of_nat (S i)) by lia. apply IH. lia.
Qed.

Lemma scan_right_all_space (str : string) (cs : list Z) (n : nat) (j : Z) :
  has_text str cs → (∀ c, c ∈ cs → unichar_isspace c = true) →
  j = Z.of_nat n → (n ≤ length cs)%nat →
  scan_right unichar_isspace str n j = Some 0.
Proof.
  intros [_ Hat] Hspace. revert j.
  induction n as [| n IH]; intros j Hj Hn; simpl.
  - by subst.
  - destruct (lookup_lt_is_Some_2 cs n) as [c Hc]; [lia |].
    replace (j - 1) with (Z.of_nat n) by lia.
    rewrite Hat, Hc by lia. simpl.
    rewrite (Hspace c) by (by eapply list_elem_of_lookup_2). simpl.
    apply IH; [done | lia].
Qed.

(** C2, where the source fails it: on a string that is not empty and
    holds nothing but whitespace the left scan stops at [length] and the
    right scan at 0, and [j - i] wraps around: what [trim] pushes is
    neither the string itself nor a slice shorter than it, but a slice
    that begins at its end and has [2^64 - length] for a length. *)
Theorem w_trim_all_space (err : option error) (rest : list ref_value)
    (s : string) (cs : list Z)
    (Hcs : string_to_string s = Some cs)
    (Hlen : 0 < string_length s ≤ 2 ^ 63)
    (Hspace : ∀ c, c ∈ cs → unichar_isspace c = true) :
  ∃ p : string,
    w_trim unichar_isspace (mk_context err (string_ref s :: rest))
    = Some (mk_context err (string_ref p :: rest))
    ∧ p = substring s (string_length s) (size_modulus - string_length s)
    ∧ p ≠ s
    ∧ ¬ string_length p < string_length s.
Proof.
  assert (Htext : has_text s cs) by (apply to_string_has_text; [lia | done]).
  pose proof Htext as [Hl _].
  exists (substring s (string_length s) (size_modulus - string_length s)).
  split_and!.
  - unfold w_trim. rewrite pop_string_top.
    replace (Z.to_nat (string_length s)) with (length cs) by lia.
    pose proof (scan_left_all_space s cs (length cs) 0 Htext Hspace ltac:(lia)) as Hleft.
    change (Z.of_nat 0) with 0 in Hleft. rewrite Hleft.
    cbn [mbind option_bind].
    rewrite (scan_right_all_space s cs (length cs) _ Htext Hspace) by lia.
    cbn [mbind option_bind]. rewrite <- Hl.
    rewrite (bool_decide_eq_true_2 (string_length s ≠ 0)) by lia.
    cbn [orb].
    assert (Hwrap : wrap_size (0 - string_length s) = size_modulus - string_length s).
    { unfold wrap_size. symmetry.
      apply Z.mod_unique with (q := -1); unfold size_modulus in *; lia. }
    by rewrite Hwrap.
  - done.
  - apply substring_neq.
  - simpl. unfold size_modulus. lia.
Qed.

(** The left scan stops at the first code point that is not whitespace. *)
Lemma scan_left_first (str : string) (lead tail : list Z) (b : Z) (n i : nat) :
  has_text str (lead ++ b :: tail) →
  (∀ c, c ∈ lead → unichar_isspace c = true) → unichar_isspace b = false →
  (i + n = length (lead ++ b :: tail))%nat → (i ≤ length lead)%nat →
  scan_left unichar_isspace str n (Z.of_nat i) = Some (Z.of_nat (length lead)).
Proof.
  intros [_ Hat] Hlead Hb. revert i.
  induction n as [| n IH]; intros i Hi Hle.
  - rewrite length_app in Hi. simpl in Hi. lia.
  - cbn [scan_left]. rewrite Hat by lia.
    destruct (decide (i = length lead)) as [-> | Hne].
    + rewrite list_lookup_middle by done. simpl. by rewrite Hb.
    + destruct (lookup_lt_is_Some_2 lead i) as [c Hc]; [lia |].
      rewrite lookup_app_l, Hc by lia. simpl.
      rewrite (Hlead c) by (by eapply list_elem_of_lookup_2). simpl.
      replace (Z.of_nat i + 1) with (Z.of_nat (S i)) by lia. apply IH; lia.
Qed.

(** The right scan stops right after the last code point that is not
    whitespace. *)
Lemma scan_right_last (str : string) (front trail : list Z) (e : Z) (n : nat) (j : Z) :
  has_text str (front ++ e :: trail) →
  (∀ c, c ∈ trail → unichar_isspace c = true) → unichar_isspace e = false →
  j = Z.of_nat n → (length front < n ≤ length (front ++ e :: trail))%nat →
  scan_right unichar_isspace str n j = Some (Z.of_nat (S (length front))).
Proof.
  intros [_ Hat] Htrail He. revert j.
  induction n as [| n IH]; intros j Hj Hn; [lia |].
  cbn [scan_right]. replace (j - 1) with (Z.of_nat n) by lia.
  rewrite Hat by lia.
  destruct (decide (n = length front)) as [-> | Hne].
  - rewrite list_lookup_middle by done. simpl. rewrite He. simpl. by subst.
  - rewrite lookup_app_r by lia.
    destruct (lookup_lt_is_Some_2 (e :: trail) (n - length front)) as [c Hc].
    { rewrite length_app in Hn. lia. }
    rewrite Hc. simpl.
    assert (Hin : c ∈ trail).
    { destruct (n - length front)%nat as [| m] eqn:Hm; [lia |].
      by eapply list_elem_of_lookup_2. }
    rewrite (Htrail c Hin). simpl. apply IH; [done | lia].
Qed.

(** Where the source keeps C2: on a string with a code point that is not
    whitespace, leading whitespace [lead] and trailing whitespace [trail],
    [trim] pushes the string itself when there is nothing to strip, and
    otherwise a slice that lies inside the string and is shorter. *)
Lemma w_trim_text (err : option error) (rest : list ref_value) (s : string)
    (lead body trail : list Z) (b e : Z) :
  has_text s (lead ++ body ++ trail) → string_length s < size_modulus →
  (∀ c, c ∈ lead → unichar_isspace c = true) →
  (∀ c, c ∈ trail → unichar_isspace c = true) →
  head body = Some b → unichar_isspace b = false →
  last body = Some e → unichar_isspace e = false →
  w_trim unichar_isspace (mk_context err (string_ref s :: rest))
  = Some (mk_context err
            (string_ref
               (if bool_decide (lead = [] ∧ trail = []) then s
                else substring s (Z.of_nat (length lead)) (Z.of_nat (length body)))
             :: rest))
  ∧ (lead = [] ∧ trail = [] ∨ Z.of_nat (length body) < string_length s).
Proof.
  intros Htext Hmod Hlead Htrail Hb Hbs He Hes.
  pose proof Htext as [Hl _]. rewrite !length_app in Hl.
  destruct body as [| b' body']; [done |]. injection Hb as ->.
  apply last_Some in He as [front Hfront].
  split.
  - unfold w_trim. rewrite pop_string_top.
    replace (Z.to_nat (string_length s))
      with (length (lead ++ (b :: body') ++ trail)) by (rewrite !length_app; lia).
    pose proof (scan_left_first s lead (body' ++ trail) b
                  (length (lead ++ (b :: body') ++ trail)) 0 Htext Hlead Hbs
                  eq_refl ltac:(lia)) as Hleft.
    change (Z.of_nat 0) with 0 in Hleft. rewrite Hleft. cbn [mbind option_bind].
    assert (Hcs : lead ++ (b :: body') ++ trail = (lead ++ front) ++ e :: trail).
    { rewrite Hfront, <- !app_assoc. done. }
    rewrite Hcs in Htext.
    rewrite (scan_right_last s (lead ++ front) trail e
               (length (lead ++ (b :: body') ++ trail)) (string_length s)
               Htext Htrail Hes).
    + cbn [mbind option_bind].
      assert (Hbody : length (b :: body') = S (length front)).
      { rewrite Hfront, length_app. simpl. lia. }
      rewrite wrap_size_small by (rewrite length_app; unfold size_modulus in *; lia).
      destruct (decide (lead = [] ∧ trail = [])) as [[-> ->] | Hnone].
      * rewrite (bool_decide_eq_true_2 ([] = [] ∧ [] = [])) by done.
        simpl in Hl, Hbody. cbn [app length].
        rewrite (bool_decide_eq_false_2 (Z.of_nat 0 ≠ 0)) by lia.
        rewrite bool_decide_eq_false_2 by lia. done.
      * rewrite (bool_decide_eq_false_2 (lead = [] ∧ trail = [])) by done.
        assert (Z.of_nat (length lead) ≠ 0
                ∨ Z.of_nat (S (length (lead ++ front))) ≠ string_length s) as Hor.
        { destruct lead as [| ? ?]; [| left; simpl; lia].
          destruct trail as [| ? ?]; [by destruct Hnone | right].
          rewrite Hl, length_app. simpl in *. lia. }
        destruct Hor as [Hi | Hj].
        -- rewrite (bool_decide_eq_true_2 _ Hi). cbn [orb].
           unfold push. cbn [m_error m_data]. do 5 f_equal.
           rewrite length_app. simpl in *. lia.
        -- rewrite (bool_decide_eq_true_2 _ Hj). rewrite orb_true_r.
           unfold push. cbn [m_error m_data]. do 5 f_equal.
           rewrite length_app. simpl in *. lia.
    + rewrite !length_app. simpl in *. lia.
    + rewrite Hcs, !length_app. simpl. lia.
  - destruct lead as [| ? ?]; [| right; simpl in *; lia].
    destruct trail as [| ? ?]; [by left | right]. simpl in *. lia.
Qed.

End trim.

Lemma w_trim_all_space_witness :
  ∃ p : string,
    w_trim (λ c, bool_decide (c = 32))
      (mk_context None [string_ref (simple_string (U " "))])
    = Some (mk_context None [string_ref p])
    ∧ p = substring (simple_string (U " ")) 1 18446744073709551615
    ∧ p ≠ simple_string (U " ")
    ∧ ¬ string_length p < string_length (simple_string (U " ")).
Proof.
  apply (w_trim_all_space (λ c, bool_decide (c = 32)) None []
           (simple_string (U " ")) (U " ")).
  - reflexivity.
  - vm_compute. split; [done | discriminate].
  - intros c ->%list_elem_of_singleton. reflexivity.
Defined.

(** On the same string [trim-left] and [trim-right] push an empty
    slice. *)
Example w_trim_left_space :
  w_trim_left (λ c, bool_decide (c = 32))
    (mk_context None [string_ref (simple_string (U " "))])
  = Some (mk_context None [string_ref (substring (simple_string (U " ")) 1 0)]).
Proof. reflexivity. Qed.

Example w_trim_right_space :
  w_trim_right (λ c, bool_decide (c = 32))
    (mk_context None [string_ref (simple_string (U " "))])
  = Some (mk_context None [string_ref (substring (simple_string (U " ")) 0 0)]).
Proof. reflexivity. Qed.

Example w_trim_both_sides :
  w_trim (λ c, bool_decide (c = 32))
    (mk_context None [string_ref (simple_string (U "  hi  "))])
  = Some (mk_context None [string_ref (substring (simple_string (U "  hi  ")) 2 2)]).
Proof. reflexivity. Qed.

(** ** Word [@] *)

(** Away from the index [length] the word does what C1 says: the
    effective index [e] is the index itself, or the index plus the length
    when the index is negative; below 0 or above the length it gives the
    range error and leaves the string on the stack, inside the string it
    pushes the code point at [e] as a new string on top of the string. *)
Lemma w_get_text (err : option error) (rest : list ref_value)
    (s : string) (cs : list Z) (n : number) :
  has_text s cs → string_length s ≤ int64_max →
  int64_min ≤ as_int n ≤ int64_max →
  let e := if bool_decide (as_int n < 0) then as_int n + string_length s
           else as_int n in
  (e < 0 ∨ string_length s < e →
   w_get (mk_context err (string_ref s :: Some (val_number n) :: rest))
   = Some (mk_context (Some (mk_error code_range (U "String index out of bounds.")))
             (string_ref s :: rest)))
  ∧ (∀ c, 0 ≤ e < string_length s → cs !! Z.to_nat e = Some c →
     w_get (mk_context err (string_ref s :: Some (val_number n) :: rest))
     = Some (mk_context err
               (string_ref (simple_string [c]) :: string_ref s :: rest))).
Proof.
  intros Htext Hlen Hn e.
  pose proof (has_text_length_nonneg s cs Htext) as Hpos.
  unfold int64_min, int64_max in *.
  assert (He : (if bool_decide (as_int n < 0)
                then wrap_int64 (as_int n + string_length s) else as_int n) = e).
  { unfold e. case_bool_decide; [| done].
    apply wrap_int64_small. unfold int64_min, int64_max. lia. }
  assert (Hcast : wrap_int64 (string_length s) = string_length s).
  { apply wrap_int64_small. unfold int64_min, int64_max. lia. }
  split.
  - intros Hout. unfold w_get. rewrite pop_string_top, pop_number_top.
    cbv zeta. rewrite He, Hcast.
    destruct Hout as [Hneg | Hbig].
    + by rewrite (bool_decide_eq_true_2 (e < 0)).
    + rewrite (bool_decide_eq_true_2 (e > string_length s)) by lia.
      by rewrite orb_true_r.
  - intros c Hin Hc. unfold w_get. rewrite pop_string_top, pop_number_top.
    cbv zeta. rewrite He, Hcast.
    rewrite (bool_decide_eq_false_2 (e < 0)) by lia.
    rewrite (bool_decide_eq_false_2 (e > string_length s)) by lia.
    cbn [orb]. rewrite wrap_size_small by (unfold size_modulus; lia).
    rewrite (has_text_at s cs e Htext Hin), Hc. done.
Qed.

(** C1, where the source fails it: with the index equal to the length of
    the string (and so out of bounds) [@] sets no range error; its test
    is [index > length], so it goes on to read [at(length)] and, when
    that read gives a code point, pushes it as a string. *)
Theorem w_get_at_length (err : option error) (rest : list ref_value)
    (s : string) (n : number)
    (Hlen : 0 ≤ string_length s ≤ int64_max)
    (Hn : as_int n = string_length s) :
  w_get (mk_context err (string_ref s :: Some (val_number n) :: rest))
  = (c ← string_at s (string_length s);
     Some (mk_context err
             (string_ref (simple_string [c]) :: string_ref s :: rest)))
  ∧ w_get (mk_context err (string_ref s :: Some (val_number n) :: rest))
    ≠ Some (context_error (mk_context err (string_ref s :: rest)) code_range
              (U "String index out of bounds.")).
Proof.
  assert (Hrun : w_get (mk_context err (string_ref s :: Some (val_number n) :: rest))
                 = (c ← string_at s (string_length s);
                    Some (mk_context err
                            (string_ref (simple_string [c]) :: string_ref s :: rest)))).
  { unfold w_get. rewrite pop_string_top, pop_number_top. rewrite Hn.
    unfold int64_max in Hlen.
    rewrite (bool_decide_eq_false_2 (string_length s < 0)) by lia.
    rewrite wrap_int64_small by (unfold int64_min, int64_max; lia).
    rewrite (bool_decide_eq_false_2 (string_length s > string_length s)) by lia.
    cbn [orb]. rewrite wrap_size_small by (unfold size_modulus; lia).
    rewrite (bool_decide_eq_false_2 (string_length s < 0)) by lia. cbn [orb].
    by destruct (string_at s (string_length s)). }
  split; [exact Hrun |].
  rewrite Hrun. destruct (string_at s (string_length s)); [| done].
  simpl. intros Heq%(inj Some)%(f_equal m_data)%(f_equal length).
  simpl in Heq. lia.
Qed.

Lemma w_get_at_length_witness :
  (w_get (mk_context None
            [string_ref (substring (simple_string (U "hi ")) 0 2);
             Some (val_number (number_int 2))])
   = Some (mk_context None
             [string_ref (simple_string (U " "));
              string_ref (substring (simple_string (U "hi ")) 0 2)]))
  ∧ w_get (mk_context None
             [string_ref (simple_string (U "hello")); Some (val_number (number_int 5))])
    = None.
Proof.
  split.
  - apply (w_get_at_length None [] (substring (simple_string (U "hi ")) 0 2)
             (number_int 2)); vm_compute; [split; discriminate | reflexivity].
  - apply (w_get_at_length None [] (simple_string (U "hello")) (number_int 5));
      vm_compute; [split; discriminate | reflexivity].
Defined.

(** Beyond the length, and below zero after the adjustment of a negative
    index, [@] does set the range error and leaves the string on the
    stack. *)
Example w_get_hello_6 :
  w_get (mk_context None
           [string_ref (simple_string (U "hello")); Some (val_number (number_int 6))])
  = Some (mk_context
            (Some (mk_error code_range (U "String index out of bounds.")))
            [string_ref (simple_string (U "hello"))]).
Proof. reflexivity. Qed.

Example w_get_hello_minus_6 :
  w_get (mk_context None
           [string_ref (simple_string (U "hello")); Some (val_number (number_int (-6)))])
  = Some (mk_context
            (Some (mk_error code_range (U "String index out of bounds.")))
            [string_ref (simple_string (U "hello"))]).
Proof. reflexivity. Qed.

(** C6 as the specification words it, with the string pushed first and
    the index on top of it: [@] finds a number where it wants a string,
    sets a type error and leaves the stack as it was. *)
Lemma w_get_index_on_top :
  let ctx := push (push (mk_context None []) (string_ref (simple_string (U "hello"))))
               (Some (val_number (number_int (-1)))) in
  w_get ctx
  = Some (mk_context (Some (mk_error code_type (U "Expected string, got number.")))
            (m_data ctx))
  ∧ ¬ ∃ ctx', w_get ctx = Some ctx' ∧ m_error ctx' = None
              ∧ m_data ctx' = [string_ref (simple_string (U "o"));
                               string_ref (simple_string (U "hello"))].
Proof.
  split; [reflexivity |]. intros (ctx' & Hrun & Herr & _).
  vm_compute in Hrun. injection Hrun as <-. discriminate.
Qed.

(** C6, amended: from an empty stack, pushing the integer -1, then the
    string "hello", and calling [@] sets no error and leaves the string
    "o" on top of the stack with "hello" right under it. *)
Theorem w_get_hello_last :
  w_get (push (push (mk_context None []) (Some (val_number (number_int (-1)))))
           (string_ref (simple_string (U "hello"))))
  = Some (mk_context None
            [string_ref (simple_string (U "o")); string_ref (simple_string (U "hello"))]).
Proof. reflexivity. Qed.

(** ** Word [>number] *)

(** C9: [>number] pops the string and, when its text is a number for
    [is_number], pushes the number the text is parsed into and not the
    string; otherwise it sets the value error "Could not convert string
    to number." and pushes nothing, as it does for "12.5abc". *)
Theorem w_to_number_spec (parse_number : list Z → number)
    (err : option error) (rest : list ref_value) :
  (∀ (s : string) (cs : list Z), string_to_string s = Some cs →
     w_to_number parse_number (mk_context err (string_ref s :: rest))
     = Some (if is_number cs
             then mk_context err (Some (val_number (parse_number cs)) :: rest)
             else mk_context
                    (Some (mk_error code_value (U "Could not convert string to number.")))
                    rest))
  ∧ w_to_number parse_number
      (mk_context err (string_ref (simple_string (U "12.5abc")) :: rest))
    = Some (mk_context
              (Some (mk_error code_value (U "Could not convert string to number.")))
              rest).
Proof.
  split; [| reflexivity].
  intros s cs Hcs. unfold w_to_number. rewrite pop_string_top, Hcs.
  cbn [mbind option_bind]. by destruct (is_number cs).
Qed.

Lemma w_to_number_spec_witness :
  w_to_number (λ _, number_real (25 # 2))
    (mk_context None [string_ref (concat_string (simple_string (U "12."))
                                    (simple_string (U "5")))])
  = Some (mk_context None [Some (val_number (number_real (25 # 2)))]).
Proof.
  destruct (w_to_number_spec (λ _, number_real (25 # 2)) None []) as [Hany _].
  apply (Hany _ (U "12.5")). reflexivity.
Defined.

(** * Further properties of the code *)

(** ** Equality of strings, continued *)

(** X1: on strings that keep the rope invariant, [string::equals] holds
    exactly when [to_string] gives the same text for both, whatever the
    shapes of the two ropes; so it is reflexive, symmetric and
    transitive. *)
Theorem string_equals_same_text (a b : string)
    (Ha : string_valid a) (Hb : string_valid b) :
  (string_equals a (string_ref b) = Some true
   ↔ string_to_string a = string_to_string b)
  ∧ string_equals a (string_ref a) = Some true
  ∧ string_equals a (string_ref b) = string_equals b (string_ref a)
  ∧ (∀ c, string_valid c →
       string_equals a (string_ref b) = Some true →
       string_equals b (string_ref c) = Some true →
       string_equals a (string_ref c) = Some true).
Proof.
  destruct (string_valid_text a Ha) as (ca & Hca & Hta).
  destruct (string_valid_text b Hb) as (cb & Hcb & Htb).
  rewrite (string_equals_text a b ca cb Hta Htb).
  rewrite (string_equals_text b a cb ca Htb Hta).
  rewrite (string_equals_text a a ca ca Hta Hta).
  split_and!.
  - rewrite Hca, Hcb. split.
    + intros [= Heq%bool_decide_eq_true]. by subst.
    + intros [= ->]. by rewrite bool_decide_eq_true_2.
  - by rewrite bool_decide_eq_true_2.
  - f_equal. apply bool_decide_ext. split; congruence.
  - intros c Hc. destruct (string_valid_text c Hc) as (cc & Hcc & Htc).
    rewrite (string_equals_text b c cb cc Htb Htc).
    rewrite (string_equals_text a c ca cc Hta Htc).
    intros [= Hab%bool_decide_eq_true] [= Hbc%bool_decide_eq_true].
    subst. by rewrite bool_decide_eq_true_2.
Qed.

Lemma string_equals_same_text_witness :
  string_equals (simple_string (U "foobar"))
    (string_ref (concat_string (simple_string (U "foo"))
                   (substring (simple_string (U " bar ")) 1 3)))
  = Some true.
Proof.
  destruct (string_equals_same_text (simple_string (U "foobar"))
              (concat_string (simple_string (U "foo"))
                 (substring (simple_string (U " bar ")) 1 3)))
    as [Hiff _].
  - vm_compute. done.
  - vm_compute. split_and!; done.
  - apply Hiff. reflexivity.
Defined.

(** X2: a string made by the runtime out of a text gives that text back
    through [to_string]; and the string made out of the text of a rope
    that keeps the rope invariant is equal to the rope, in both
    directions of [string::equals]. *)
Theorem runtime_string_round_trip (s : string) (Hvalid : string_valid s) :
  (∀ text : list Z, string_to_string (runtime_string_of text) = Some text)
  ∧ ∃ cs : list Z,
      string_to_string s = Some cs
      ∧ string_length (runtime_string_of cs) = string_length s
      ∧ string_equals s (string_ref (runtime_string_of cs)) = Some true
      ∧ string_equals (runtime_string_of cs) (string_ref s) = Some true.
Proof.
  assert (Hflat : ∀ text : list Z, runtime_string_of text = simple_string text).
  { intros text. unfold runtime_string_of, runtime_string.
    by rewrite Nat2Z.id, take_ge by lia. }
  split.
  - intros text. rewrite Hflat. apply to_string_has_text; [simpl; lia |].
    apply has_text_simple.
  - destruct (string_valid_text s Hvalid) as (cs & Hcs & Htext).
    exists cs. rewrite Hflat. split_and!.
    + done.
    + destruct Htext as [Hl _]. simpl. lia.
    + rewrite (string_equals_text s _ cs cs Htext (has_text_simple cs)).
      by rewrite bool_decide_eq_true_2.
    + rewrite (string_equals_text _ s cs cs (has_text_simple cs) Htext).
      by rewrite bool_decide_eq_true_2.
Qed.

Lemma runtime_string_round_trip_witness :
  ∃ cs : list Z,
    string_to_string (substring (simple_string (U " bar ")) 1 3) = Some cs
    ∧ string_length (runtime_string_of cs)
      = string_length (substring (simple_string (U " bar ")) 1 3)
    ∧ string_equals (substring (simple_string (U " bar ")) 1 3)
        (string_ref (runtime_string_of cs)) = Some true
    ∧ string_equals (runtime_string_of cs)
        (string_ref (substring (simple_string (U " bar ")) 1 3)) = Some true.
Proof.
  apply (runtime_string_round_trip (substring (simple_string (U " bar ")) 1 3)).
  vm_compute. split_and!; done.
Defined.

(** ** Comparing references *)

(** X3: whatever [equals] a class of values has, [operator!=] on two
    references is the negation of [operator==]; two null references are
    equal, and a null reference and a set one are not, without [equals]
    being asked. *)
Theorem ref_neq_negates (equals : value → ref_value → option bool)
    (a b : ref_value) :
  ref_neq equals a b = negb <$> ref_eq equals a b
  ∧ ref_eq equals None None = Some true
  ∧ (is_set a = true →
     ref_eq equals a None = Some false ∧ ref_eq equals None a = Some false
     ∧ ref_neq equals a None = Some true ∧ ref_neq equals None a = Some true)
  ∧ (is_set a = true → is_set b = true →
     ∃ va, a = Some va ∧ ref_eq equals a b = equals va b).
Proof.
  split_and!.
  - by destruct a as [va |], b as [vb |].
  - done.
  - by destruct a.
  - destruct a as [va |], b as [vb |]; try done. intros _ _. by exists va.
Qed.

(** ** Describing types *)

(** X4: [value::type_description] gives different texts for different
    types, so the text tells the type. *)
Theorem type_description_inj (t1 t2 : type) :
  type_description t1 = type_description t2 → t1 = t2.
Proof. destruct t1, t2; intros H; try reflexivity; by vm_compute in H. Qed.

Lemma type_description_inj_witness : type_string = type_string.
Proof. apply (type_description_inj type_string type_string). reflexivity. Defined.

(** ** The stack protocol of the words *)

Lemma pop_string_empty (err : option error) :
  pop_string (mk_context err [])
  = (mk_context (Some (mk_error code_range (U "Stack underflow."))) [], None).
Proof. reflexivity. Qed.

Lemma pop_string_mismatch (err : option error) (v : ref_value)
    (rest : list ref_value) :
  value_type v ≠ type_string →
  pop_string (mk_context err (v :: rest))
  = (mk_context
       (Some (mk_error code_type
                (U "Expected string, got " ++ type_description (value_type v) ++ U ".")))
       (v :: rest), None).
Proof.
  intros Hty. unfold pop_string, pop_typed, value_is. cbn [m_data].
  by rewrite bool_decide_eq_false_2.
Qed.

Lemma pop_number_empty (err : option error) :
  pop_number (mk_context err [])
  = (mk_context (Some (mk_error code_range (U "Stack underflow."))) [], None).
Proof. reflexivity. Qed.

Lemma pop_number_mismatch (err : option error) (v : ref_value)
    (rest : list ref_value) :
  value_type v ≠ type_number →
  pop_number (mk_context err (v :: rest))
  = (mk_context
       (Some (mk_error code_type
                (U "Expected number, got " ++ type_description (value_type v) ++ U ".")))
       (v :: rest), None).
Proof.
  intros Hty. unfold pop_number, pop_typed, value_is. cbn [m_data].
  by rewrite bool_decide_eq_false_2.
Qed.

Local Ltac unfold_words :=
  unfold w_length, w_chars, w_runes, w_words, w_lines, w_is_space,
    w_is_lower_case, w_is_upper_case, w_reverse, w_upper_case, w_lower_case,
    w_swap_case, w_capitalize, w_trim, w_trim_left, w_trim_right, w_to_number,
    w_concat, w_repeat, w_get.

(** X5: the prototype binds twenty different names, and every word
    under them begins by asking the stack for a string: on an empty stack
    it sets the range error of an underflow and does nothing else, and on
    a stack whose top is not a string it sets a type error that names the
    type it met and leaves the stack as it was. *)
Theorem string_prototype_guards
    (unichar_isspace unichar_islower unichar_isupper : Z → bool)
    (unichar_toupper unichar_tolower : Z → Z) (parse_number : list Z → number)
    (name : list Z) (word : context → option context)
    (Hword : (name, word)
             ∈ string_prototype unichar_isspace unichar_islower unichar_isupper
                 unichar_toupper unichar_tolower parse_number) :
  NoDup (string_prototype unichar_isspace unichar_islower unichar_isupper
           unichar_toupper unichar_tolower parse_number).*1
  ∧ (∀ err,
       word (mk_context err [])
       = Some (mk_context (Some (mk_error code_range (U "Stack underflow."))) []))
  ∧ (∀ err v rest, value_type v ≠ type_string →
       word (mk_context err (v :: rest))
       = Some (mk_context
                 (Some (mk_error code_type
                          (U "Expected string, got "
                           ++ type_description (value_type v) ++ U ".")))
                 (v :: rest))).
Proof.
  split.
  - apply (bool_decide_unpack _). by vm_compute.
  - unfold string_prototype in Hword.
    repeat (apply elem_of_cons in Hword as [[= -> ->] | Hword]);
      try (by apply elem_of_nil in Hword);
      (split;
       [ intros err; unfold_words; by rewrite pop_string_empty
       | intros err v rest Hty; unfold_words; by rewrite pop_string_mismatch ]).
Qed.

Lemma string_prototype_guards_witness :
  w_trim (λ c, bool_decide (c = 32))
    (mk_context None [Some (val_number (number_int 7))])
  = Some (mk_context
            (Some (mk_error code_type (U "Expected string, got number.")))
            [Some (val_number (number_int 7))]).
Proof.
  destruct (string_prototype_guards (λ c, bool_decide (c = 32)) (λ _, false) (λ _, false)
              (λ c, c) (λ c, c) (λ _, number_int 0)
              (U "trim") (w_trim (λ c, bool_decide (c = 32))))
    as (_ & _ & Htype).
  - unfold string_prototype. do 13 (apply elem_of_cons; right).
    apply elem_of_cons. by left.
  - apply (Htype None (Some (val_number (number_int 7))) []). discriminate.
Defined.

(** X6: the words with two operands pop the string before they ask for
    the second operand, and do not put it back when the second operand is
    not there: with nothing under the string the stack ends empty under
    an underflow error, and with a value of the wrong type under it the
    string is gone and that value is the top, under a type error. *)
Theorem second_operand_missing (err : option error) (rest : list ref_value)
    (s : string) (v : ref_value) :
  w_concat (mk_context err [string_ref s])
  = Some (mk_context (Some (mk_error code_range (U "Stack underflow."))) [])
  ∧ w_repeat (mk_context err [string_ref s])
    = Some (mk_context (Some (mk_error code_range (U "Stack underflow."))) [])
  ∧ w_get (mk_context err [string_ref s])
    = Some (mk_context (Some (mk_error code_range (U "Stack underflow."))) [])
  ∧ (value_type v ≠ type_string →
     w_concat (mk_context err (string_ref s :: v :: rest))
     = Some (mk_context
               (Some (mk_error code_type
                        (U "Expected string, got "
                         ++ type_description (value_type v) ++ U ".")))
               (v :: rest)))
  ∧ (value_type v ≠ type_number →
     w_repeat (mk_context err (string_ref s :: v :: rest))
     = Some (mk_context
               (Some (mk_error code_type
                        (U "Expected number, got "
                         ++ type_description (value_type v) ++ U ".")))
               (v :: rest))
     ∧ w_get (mk_context err (string_ref s :: v :: rest))
       = Some (mk_context
                 (Some (mk_error code_type
                          (U "Expected number, got "
                           ++ type_description (value_type v) ++ U ".")))
                 (v :: rest))).
Proof.
  split_and!.
  - unfold w_concat. by rewrite pop_string_top, pop_string_empty.
  - unfold w_repeat. by rewrite pop_string_top, pop_number_empty.
  - unfold w_get. by rewrite pop_string_top, pop_number_empty.
  - intros Hty. unfold w_concat. by rewrite pop_string_top, pop_string_mismatch.
  - intros Hty. unfold w_repeat, w_get.
    by rewrite !pop_string_top, !pop_number_mismatch.
Qed.

Lemma second_operand_missing_witness :
  w_get (mk_context None [string_ref (simple_string (U "hello")); Some (val_boolean true)])
  = Some (mk_context
            (Some (mk_error code_type (U "Expected number, got boolean.")))
            [Some (val_boolean true)]).
Proof.
  destruct (second_operand_missing None [] (simple_string (U "hello"))
              (Some (val_boolean true))) as (_ & _ & _ & _ & Hnum).
  apply Hnum. discriminate.
Defined.

(** ** Words [length], [space?], [lower-case?], [upper-case?] *)

(** X7: [length] reads no code point, so it is defined on every rope: it
    pushes the string back and, on top of it, the length as a number,
    which is the number of code points of the text when that is below
    2^63; a length of 2^63 or more comes out negative, the number being
    a signed 64-bit integer. *)
Theorem w_length_counts (err : option error) (rest : list ref_value) (s : string)
    (Hlen : 0 ≤ string_length s < size_modulus) :
  w_length (mk_context err (string_ref s :: rest))
  = Some (mk_context err
            (Some (val_number
                     (number_int (if bool_decide (string_length s ≤ int64_max)
                                  then string_length s
                                  else string_length s - size_modulus)))
             :: string_ref s :: rest))
  ∧ ∀ cs, string_to_string s = Some cs → string_length s = Z.of_nat (length cs).
Proof.
  split.
  - assert (Hcast : wrap_int64 (string_length s)
                    = if bool_decide (string_length s ≤ int64_max)
                      then string_length s else string_length s - size_modulus).
    { unfold wrap_int64, int64_max, size_modulus in *. case_bool_decide.
      - rewrite Z.mod_small; lia.
      - assert (Hm : (string_length s + 2 ^ 63) mod 2 ^ 64
                     = string_length s + 2 ^ 63 - 2 ^ 64).
        { symmetry. apply Z.mod_unique with (q := 1); lia. }
        lia. }
    unfold w_length. rewrite pop_string_top, Hcast. done.
  - intros cs Hcs. apply to_string_has_text in Hcs as [Hl _]; [done | lia].
Qed.

Lemma w_length_counts_witness :
  w_length (mk_context None [string_ref (simple_string (U "Hello, World!"))])
  = Some (mk_context None
            [Some (val_number (number_int 13));
             string_ref (simple_string (U "Hello, World!"))])
  ∧ w_length (mk_context None
                [string_ref (substring (simple_string (U " ")) 1 18446744073709551615)])
    = Some (mk_context None
              [Some (val_number (number_int (-1)));
               string_ref (substring (simple_string (U " ")) 1 18446744073709551615)]).
Proof.
  split.
  - apply (w_length_counts None [] (simple_string (U "Hello, World!"))).
    vm_compute. split; [discriminate | done].
  - apply (w_length_counts None []
             (substring (simple_string (U " ")) 1 18446744073709551615)).
    vm_compute. split; [discriminate | done].
Defined.

Lemma test_loop_text (test : Z → bool) (str : string) (cs : list Z) (n i : nat) :
  has_text str cs → (i + n = length cs)%nat →
  test_loop test str n (Z.of_nat i) = Some (forallb test (drop i cs)).
Proof.
  intros [_ Hat]. revert i. induction n as [| n IH]; intros i Hi; cbn [test_loop].
  - by rewrite drop_ge by lia.
  - destruct (lookup_lt_is_Some_2 cs i) as [c Hc]; [lia |].
    rewrite Hat, Hc by lia. cbn [mbind option_bind].
    rewrite (drop_S cs c i Hc). cbn [forallb].
    destruct (test c); cbn [negb andb]; [| done].
    replace (Z.of_nat i + 1) with (Z.of_nat (S i)) by lia. apply IH. lia.
Qed.

(** X8: on a string that keeps the rope invariant, [space?],
    [lower-case?] and [upper-case?] push the string back and, on top of
    it, a boolean that is true exactly when the text is not empty and
    every code point of it passes the test of the word. *)
Theorem w_is_tests (unichar_isspace unichar_islower unichar_isupper : Z → bool)
    (err : option error) (rest : list ref_value) (s : string)
    (Hvalid : string_valid s) :
  ∃ cs : list Z,
    string_to_string s = Some cs
    ∧ w_is_space unichar_isspace (mk_context err (string_ref s :: rest))
      = Some (mk_context err
                (Some (val_boolean (negb (bool_decide (cs = []))
                                    && forallb unichar_isspace cs))
                 :: string_ref s :: rest))
    ∧ w_is_lower_case unichar_islower (mk_context err (string_ref s :: rest))
      = Some (mk_context err
                (Some (val_boolean (negb (bool_decide (cs = []))
                                    && forallb unichar_islower cs))
                 :: string_ref s :: rest))
    ∧ w_is_upper_case unichar_isupper (mk_context err (string_ref s :: rest))
      = Some (mk_context err
                (Some (val_boolean (negb (bool_decide (cs = []))
                                    && forallb unichar_isupper cs))
                 :: string_ref s :: rest)).
Proof.
  destruct (string_valid_text s Hvalid) as (cs & Hcs & Htext).
  pose proof Htext as [Hl _].
  assert (Hrun : ∀ test : Z → bool,
            (if bool_decide (string_length s = 0)
             then Some (push_boolean (push (mk_context err rest) (string_ref s)) false)
             else test_loop test s (Z.to_nat (string_length s)) 0
                  ≫= λ b, Some (push_boolean (push (mk_context err rest) (string_ref s)) b))
            = Some (mk_context err
                      (Some (val_boolean (negb (bool_decide (cs = [])) && forallb test cs))
                       :: string_ref s :: rest))).
  { intros test. case_bool_decide as Hzero.
    - destruct cs; [| simpl in Hl; lia]. done.
    - pose proof (test_loop_text test s cs (length cs) 0 Htext ltac:(lia)) as Hloop.
      rewrite drop_0 in Hloop. change (Z.of_nat 0) with 0 in Hloop.
      rewrite Hl, Nat2Z.id, Hloop. cbn [mbind option_bind].
      rewrite bool_decide_eq_false_2; [done |]. intros ->. simpl in Hl. lia. }
  exists cs. split_and!; [done | | |].
  - unfold w_is_space. rewrite pop_string_top. apply Hrun.
  - unfold w_is_lower_case. rewrite pop_string_top. apply Hrun.
  - unfold w_is_upper_case. rewrite pop_string_top. apply Hrun.
Qed.

Lemma w_is_tests_witness :
  w_is_space (λ c, bool_decide (c = 32))
    (mk_context None [string_ref (simple_string (U "  "))])
  = Some (mk_context None [Some (val_boolean true); string_ref (simple_string (U "  "))])
  ∧ w_is_space (λ c, bool_decide (c = 32))
      (mk_context None [string_ref (simple_string [])])
    = Some (mk_context None [Some (val_boolean false); string_ref (simple_string [])]).
Proof.
  split.
  - destruct (w_is_tests (λ c, bool_decide (c = 32)) (λ _, false) (λ _, false) None []
                (simple_string (U "  "))) as (cs & Hcs & Hspace & _);
      [vm_compute; done |].
    injection Hcs as <-. exact Hspace.
  - destruct (w_is_tests (λ c, bool_decide (c = 32)) (λ _, false) (λ _, false) None []
                (simple_string [])) as (cs & Hcs & Hspace & _);
      [vm_compute; done |].
    injection Hcs as <-. exact Hspace.
Defined.

(** ** Words [chars] and [runes] *)

Lemma chars_loop_text (str : string) (cs : list Z) (n i : nat)
    (output : list ref_value) :
  has_text str cs → (i + n = length cs)%nat →
  chars_loop str n (Z.of_nat i) output
  = Some (output ++ ((λ c, string_ref (simple_string [c])) <$> drop i cs)).
Proof.
  intros [_ Hat]. revert i output.
  induction n as [| n IH]; intros i output Hi; cbn [chars_loop].
  - rewrite drop_ge by lia. by rewrite app_nil_r.
  - destruct (lookup_lt_is_Some_2 cs i) as [c Hc]; [lia |].
    rewrite Hat, Hc by lia. cbn [mbind option_bind].
    replace (Z.of_nat i + 1) with (Z.of_nat (S i)) by lia.
    rewrite IH by lia. rewrite (drop_S cs c i Hc), fmap_cons, <- app_assoc. done.
Qed.

Lemma runes_loop_text (str : string) (cs : list Z) (n i : nat)
    (output : list ref_value) :
  has_text str cs → (i + n = length cs)%nat →
  runes_loop str n (Z.of_nat i) output
  = Some (output ++ ((λ c, Some (val_number (number_int c))) <$> drop i cs)).
Proof.
  intros [_ Hat]. revert i output.
  induction n as [| n IH]; intros i output Hi; cbn [runes_loop].
  - rewrite drop_ge by lia. by rewrite app_nil_r.
  - destruct (lookup_lt_is_Some_2 cs i) as [c Hc]; [lia |].
    rewrite Hat, Hc by lia. cbn [mbind option_bind].
    replace (Z.of_nat i + 1) with (Z.of_nat (S i)) by lia.
    rewrite IH by lia. rewrite (drop_S cs c i Hc), fmap_cons, <- app_assoc. done.
Qed.

(** X9: on a string that keeps the rope invariant, [chars] pushes the
    string back and, on top of it, an array with one new one-code-point
    string for every code point of the text, in the order of the text;
    put one after the other the elements give the text again. *)
Theorem w_chars_text (err : option error) (rest : list ref_value) (s : string)
    (Hvalid : string_valid s) :
  ∃ cs : list Z,
    string_to_string s = Some cs
    ∧ w_chars (mk_context err (string_ref s :: rest))
      = Some (mk_context err
                (Some (val_array ((λ c, string_ref (simple_string [c])) <$> cs))
                 :: string_ref s :: rest))
    ∧ mapM string_to_string ((λ c, simple_string [c]) <$> cs)
      = Some ((λ c, [c]) <$> cs)
    ∧ concat ((λ c, [c]) <$> cs) = cs.
Proof.
  destruct (string_valid_text s Hvalid) as (cs & Hcs & Htext).
  pose proof Htext as [Hl _].
  exists cs. split_and!; [done | | |].
  - unfold w_chars. rewrite pop_string_top.
    pose proof (chars_loop_text s cs (length cs) 0 [] Htext ltac:(lia)) as Hloop.
    rewrite drop_0 in Hloop. change (Z.of_nat 0) with 0 in Hloop.
    rewrite Hl, Nat2Z.id, Hloop. cbn [mbind option_bind app].
    unfold push_array, push. cbn [m_error m_data].
    by rewrite Nat2Z.id, take_ge by (rewrite length_fmap; lia).
  - apply mapM_Some. apply Forall2_fmap, Forall_Forall2_diag, Forall_forall.
    intros c _. reflexivity.
  - clear. induction cs as [| c cs IH]; [done |].
    rewrite fmap_cons. cbn [concat app]. by rewrite IH.
Qed.

Lemma w_chars_text_witness :
  w_chars (mk_context None [string_ref (substring (simple_string (U " ab ")) 1 2)])
  = Some (mk_context None
            [Some (val_array [string_ref (simple_string (U "a"));
                              string_ref (simple_string (U "b"))]);
             string_ref (substring (simple_string (U " ab ")) 1 2)]).
Proof.
  destruct (w_chars_text None [] (substring (simple_string (U " ab ")) 1 2))
    as (cs & Hcs & Hrun & _); [vm_compute; split_and!; done |].
  injection Hcs as <-. exact Hrun.
Defined.

(** X10: on a string that keeps the rope invariant, [runes] pushes the
    string back and, on top of it, an array with the code points of the
    text as integers, in the order of the text: as many as [chars] gives
    strings, the one being the code point the other holds. *)
Theorem w_runes_text (err : option error) (rest : list ref_value) (s : string)
    (Hvalid : string_valid s) :
  ∃ cs : list Z,
    string_to_string s = Some cs
    ∧ w_runes (mk_context err (string_ref s :: rest))
      = Some (mk_context err
                (Some (val_array ((λ c, Some (val_number (number_int c))) <$> cs))
                 :: string_ref s :: rest))
    ∧ w_chars (mk_context err (string_ref s :: rest))
      = Some (mk_context err
                (Some (val_array ((λ c, string_ref (simple_string [c])) <$> cs))
                 :: string_ref s :: rest)).
Proof.
  destruct (string_valid_text s Hvalid) as (cs & Hcs & Htext).
  pose proof Htext as [Hl _].
  exists cs. split_and!; [done | |].
  - unfold w_runes. rewrite pop_string_top.
    pose proof (runes_loop_text s cs (length cs) 0 [] Htext ltac:(lia)) as Hloop.
    rewrite drop_0 in Hloop. change (Z.of_nat 0) with 0 in Hloop.
    rewrite Hl, Nat2Z.id, Hloop. cbn [mbind option_bind app].
    unfold push_array, push. cbn [m_error m_data].
    by rewrite Nat2Z.id, take_ge by (rewrite length_fmap; lia).
  - unfold w_chars. rewrite pop_string_top.
    pose proof (chars_loop_text s cs (length cs) 0 [] Htext ltac:(lia)) as Hloop.
    rewrite drop_0 in Hloop. change (Z.of_nat 0) with 0 in Hloop.
    rewrite Hl, Nat2Z.id, Hloop. cbn [mbind option_bind app].
    unfold push_array, push. cbn [m_error m_data].
    by rewrite Nat2Z.id, take_ge by (rewrite length_fmap; lia).
Qed.

Lemma w_runes_text_witness :
  w_runes (mk_context None [string_ref (simple_string (U "ab"))])
  = Some (mk_context None
            [Some (val_array [Some (val_number (number_int 97));
                              Some (val_number (number_int 98))]);
             string_ref (simple_string (U "ab"))]).
Proof.
  destruct (w_runes_text None [] (simple_string (U "ab")))
    as (cs & Hcs & Hrun & _); [vm_compute; done |].
  injection Hcs as <-. exact Hrun.
Defined.

(** ** Word [words] *)

Section words.

Variable unichar_isspace : Z → bool.

(** The loop of [w_words], from index [i] on with the current word begun
    at [begin], finds the spans of [word_spans] over the text that is
    left. *)
Lemma words_loop_spans (str : string) (cs : list Z) (n : nat) :
  has_text str cs → string_length str < size_modulus →
  ∀ (i : nat) (begin : Z) (result : list ref_value),
    0 ≤ begin ≤ Z.of_nat i → (i + n = length cs)%nat →
    words_finish str <$>
      words_loop unichar_isspace str n (Z.of_nat i) begin (Z.of_nat i) result
    = Some (result
            ++ (span_slice str
                  <$> word_spans unichar_isspace begin (Z.of_nat i - begin) (drop i cs))).
Proof.
  intros [Hl Hat] Hmod. rewrite Hl in *.
  induction n as [| n IH]; intros i begin result Hb Hi.
  - cbn [words_loop fmap option_fmap option_map words_finish].
    rewrite drop_ge by lia. cbn [word_spans].
    rewrite wrap_size_small by lia.
    case_bool_decide; case_bool_decide; try lia; simpl; by rewrite ?app_nil_r.
  - cbn [words_loop].
    destruct (lookup_lt_is_Some_2 cs i) as [c Hc]; [lia |].
    rewrite Hat, Hc by lia. cbn [mbind option_bind].
    rewrite (drop_S cs c i Hc). cbn [word_spans].
    rewrite wrap_size_small by lia.
    replace (Z.of_nat i + 1) with (Z.of_nat (S i)) by lia.
    destruct (unichar_isspace c).
    + rewrite IH by lia.
      replace (Z.of_nat (S i) - Z.of_nat (S i)) with 0 by lia.
      replace (begin + (Z.of_nat i - begin) + 1) with (Z.of_nat (S i)) by lia.
      case_bool_decide; case_bool_decide; try lia.
      * rewrite fmap_cons, <- app_assoc. done.
      * done.
    + rewrite IH by lia. repeat f_equal. lia.
Qed.

(** The text under every span of [word_spans] is the word of
    [split_words] at the same place. *)
Lemma word_spans_text (text pre word : list Z) :
  span_text (pre ++ word ++ text)
    <$> word_spans unichar_isspace (Z.of_nat (length pre)) (Z.of_nat (length word)) text
  = split_words unichar_isspace word text.
Proof.
  assert (Hspan : ∀ pre word text : list Z,
            span_text (pre ++ word ++ text)
              (Z.of_nat (length pre), Z.of_nat (length word)) = word).
  { intros p w t. unfold span_text. cbn [fst snd].
    rewrite !Nat2Z.id, drop_app_length, take_app_length. done. }
  revert pre word. induction text as [| c rest IH]; intros pre word.
  - cbn [word_spans split_words]. destruct word as [| d word].
    + rewrite bool_decide_eq_false_2 by (simpl; lia). by rewrite bool_decide_eq_true_2.
    + rewrite bool_decide_eq_true_2 by (simpl; lia).
      rewrite bool_decide_eq_false_2 by done. by rewrite fmap_cons, Hspan.
  - cbn [word_spans split_words].
    assert (Hnext : span_text (pre ++ word ++ c :: rest)
                      <$> word_spans unichar_isspace
                            (Z.of_nat (length pre) + Z.of_nat (length word) + 1) 0 rest
                    = split_words unichar_isspace [] rest).
    { specialize (IH (pre ++ word ++ [c]) []). rewrite !length_app in IH.
      rewrite <- !app_assoc in IH. cbn [app length] in IH.
      rewrite <- IH. do 2 f_equal. lia. }
    destruct (unichar_isspace c).
    + destruct word as [| d word].
      * rewrite bool_decide_eq_false_2 by (simpl; lia).
        rewrite bool_decide_eq_true_2 by done. exact Hnext.
      * rewrite bool_decide_eq_true_2 by (simpl; lia).
        rewrite bool_decide_eq_false_2 by done.
        rewrite fmap_cons, Hspan. by f_equal.
    + specialize (IH pre (word ++ [c])).
      rewrite length_app, <- app_assoc in IH. cbn [app length] in IH.
      rewrite <- IH. do 2 f_equal. lia.
Qed.

(** Every span of [word_spans] lies inside the text that was scanned. *)
Lemma word_spans_range (text : list Z) (begin len : Z) (span : Z * Z) :
  0 ≤ begin → 0 ≤ len → span ∈ word_spans unichar_isspace begin len text →
  0 ≤ span.1 ∧ 0 ≤ span.2 ∧ span.1 + span.2 ≤ begin + len + Z.of_nat (length text).
Proof.
  revert begin len. induction text as [| c rest IH]; intros begin len Hb Hl.
  - cbn [word_spans]. case_bool_decide; [| by intros ?%elem_of_nil].
    intros ->%list_elem_of_singleton. simpl. lia.
  - cbn [word_spans length]. destruct (unichar_isspace c).
    + case_bool_decide.
      * intros [-> | Hin]%elem_of_cons; [simpl; lia |].
        apply IH in Hin; lia.
      * intros Hin. apply IH in Hin; lia.
    + intros Hin. apply IH in Hin; lia.
Qed.

(** No word of [split_words] is empty, and none holds whitespace. *)
Lemma split_words_clean (text word : list Z) :
  Forall (λ c, unichar_isspace c = false) word →
  Forall (λ w, w ≠ [] ∧ Forall (λ c, unichar_isspace c = false) w)
    (split_words unichar_isspace word text).
Proof.
  revert word. induction text as [| c rest IH]; intros word Hword.
  - cbn [split_words]. case_bool_decide; [done |]. by apply Forall_singleton.
  - cbn [split_words]. destruct (unichar_isspace c) eqn:Hc.
    + case_bool_decide; [by apply IH |]. apply Forall_cons. split; [done |]. by apply IH.
    + apply IH. apply Forall_app. split; [done |]. by apply Forall_singleton.
Qed.

(** A run of code points that are not whitespace joins the word being
    read. *)
Lemma split_words_app (w word text : list Z) :
  Forall (λ c, unichar_isspace c = false) w →
  split_words unichar_isspace word (w ++ text)
  = split_words unichar_isspace (word ++ w) text.
Proof.
  revert word. induction w as [| c w IH]; intros word Hw.
  - by rewrite app_nil_r.
  - apply Forall_cons in Hw as [Hc Hw]. cbn [app split_words]. rewrite Hc.
    rewrite IH by done. by rewrite <- app_assoc.
Qed.

(** Words joined by one whitespace code point are found again. *)
Lemma split_words_join (sp : Z) (ws : list (list Z)) :
  unichar_isspace sp = true →
  Forall (λ w, w ≠ [] ∧ Forall (λ c, unichar_isspace c = false) w) ws →
  split_words unichar_isspace [] (join [sp] ws) = ws.
Proof.
  intros Hsp. induction ws as [| w ws IH]; intros Hws; [done |].
  apply Forall_cons in Hws as [[Hne Hw] Hws].
  destruct ws as [| w' ws].
  - cbn [join]. rewrite <- (app_nil_r w) at 1. rewrite split_words_app by done.
    cbn [split_words app]. by rewrite bool_decide_eq_false_2.
  - change (join [sp] (w :: w' :: ws)) with (w ++ sp :: join [sp] (w' :: ws)).
    rewrite split_words_app by done. cbn [split_words app]. rewrite Hsp.
    rewrite bool_decide_eq_false_2 by done. f_equal. by apply IH.
Qed.

(** X11: on a string that keeps the rope invariant, [words] pushes the
    string back and, on top of it, the array of the slices of the string
    that lie between whitespace: their texts are the words of
    [split_words], none of them is empty, and none holds a whitespace
    code point. *)
Theorem w_words_spec (err : option error) (rest : list ref_value) (s : string)
    (Hvalid : string_valid s) :
  ∃ cs : list Z,
    string_to_string s = Some cs
    ∧ w_words unichar_isspace (mk_context err (string_ref s :: rest))
      = Some (mk_context err
                (Some (val_array (span_slice s <$> word_spans unichar_isspace 0 0 cs))
                 :: string_ref s :: rest))
    ∧ mapM (λ span : Z * Z, string_to_string (substring s span.1 span.2))
        (word_spans unichar_isspace 0 0 cs)
      = Some (split_words unichar_isspace [] cs)
    ∧ Forall (λ w, w ≠ [] ∧ Forall (λ c, unichar_isspace c = false) w)
        (split_words unichar_isspace [] cs).
Proof.
  destruct (string_valid_text s Hvalid) as (cs & Hcs & Htext).
  pose proof (string_valid_length s Hvalid) as Hlen.
  pose proof Htext as [Hl _].
  exists cs. split_and!; [done | | |].
  - pose proof (words_loop_spans s cs (length cs) Htext ltac:(lia) 0%nat 0 []
                  ltac:(lia) ltac:(lia)) as Hloop.
    rewrite drop_0 in Hloop. cbn [app] in Hloop.
    change (Z.of_nat 0) with 0 in Hloop. rewrite Z.sub_diag in Hloop.
    unfold w_words. rewrite pop_string_top. rewrite Hl, Nat2Z.id.
    destruct (words_loop _ _ _ _ _ _ _) as [[[begin end_] result] |]; [| done].
    injection Hloop as Hloop. unfold words_finish in Hloop.
    cbn [mbind option_bind]. rewrite Hloop.
    unfold push_array, push. cbn [m_data m_error].
    by rewrite Nat2Z.id, take_ge by lia.
  - apply mapM_Some. rewrite <- (word_spans_text cs [] []).
    cbn [app length]. change (Z.of_nat 0) with 0.
    apply Forall2_fmap_r, Forall_Forall2_diag, Forall_forall.
    intros span Hin.
    apply word_spans_range in Hin as (Hb & Hn & Hin); [| lia ..].
    apply to_string_has_text; [simpl; lia |].
    apply has_text_substring; [done | lia ..].
  - by apply split_words_clean.
Qed.

(** X12: when the text of the string is made of words, none empty and
    none with whitespace in it, joined by one whitespace code point, the
    texts of the slices [words] pushes are these words, one for one. *)
Theorem w_words_join (err : option error) (rest : list ref_value) (s : string)
    (sp : Z) (ws : list (list Z))
    (Hvalid : string_valid s)
    (Htext : string_to_string s = Some (join [sp] ws))
    (Hsp : unichar_isspace sp = true)
    (Hws : Forall (λ w, w ≠ [] ∧ Forall (λ c, unichar_isspace c = false) w) ws) :
  ∃ spans : list (Z * Z),
    w_words unichar_isspace (mk_context err (string_ref s :: rest))
    = Some (mk_context err
              (Some (val_array (span_slice s <$> spans)) :: string_ref s :: rest))
    ∧ mapM (λ span : Z * Z, string_to_string (substring s span.1 span.2)) spans
      = Some ws.
Proof.
  pose proof (string_valid_length s Hvalid) as Hlen.
  assert (Hhas : has_text s (join [sp] ws)) by (apply to_string_has_text; [lia | done]).
  pose proof Hhas as [Hl _].
  exists (word_spans unichar_isspace 0 0 (join [sp] ws)). split.
  - pose proof (words_loop_spans s _ (length (join [sp] ws)) Hhas ltac:(lia) 0%nat 0 []
                  ltac:(lia) ltac:(lia)) as Hloop.
    rewrite drop_0 in Hloop. cbn [app] in Hloop.
    change (Z.of_nat 0) with 0 in Hloop. rewrite Z.sub_diag in Hloop.
    unfold w_words. rewrite pop_string_top. rewrite Hl, Nat2Z.id.
    destruct (words_loop _ _ _ _ _ _ _) as [[[begin end_] result] |]; [| done].
    injection Hloop as Hloop. unfold words_finish in Hloop.
    cbn [mbind option_bind]. rewrite Hloop.
    unfold push_array, push. cbn [m_data m_error].
    by rewrite Nat2Z.id, take_ge by lia.
  - rewrite <- (split_words_join sp ws Hsp Hws) at 2.
    apply mapM_Some. rewrite <- (word_spans_text (join [sp] ws) [] []).
    cbn [app length]. change (Z.of_nat 0) with 0.
    apply Forall2_fmap_r, Forall_Forall2_diag, Forall_forall.
    intros span Hin.
    apply word_spans_range in Hin as (Hb & Hn & Hin); [| lia ..].
    apply to_string_has_text; [simpl; lia |].
    apply has_text_substring; [done | lia ..].
Qed.

End words.

Lemma w_words_spec_witness :
  let s := simple_string (U "  foo bar  baz ") in
  w_words (λ c, bool_decide (c = 32)) (mk_context None [string_ref s])
  = Some (mk_context None
            [Some (val_array [string_ref (substring s 2 3); string_ref (substring s 6 3);
                              string_ref (substring s 11 3)]);
             string_ref s])
  ∧ mapM string_to_string [substring s 2 3; substring s 6 3; substring s 11 3]
    = Some [U "foo"; U "bar"; U "baz"].
Proof.
  intros s.
  destruct (w_words_spec (λ c, bool_decide (c = 32)) None [] s)
    as (cs & Hcs & Hrun & Htexts & _); [vm_compute; done |].
  injection Hcs as <-. split; [exact Hrun | exact Htexts].
Defined.

Lemma w_words_join_witness :
  ∃ spans : list (Z * Z),
    w_words (λ c, bool_decide (c = 32))
      (mk_context None [string_ref (simple_string (U "foo bar"))])
    = Some (mk_context None
              [Some (val_array (span_slice (simple_string (U "foo bar")) <$> spans));
               string_ref (simple_string (U "foo bar"))])
    ∧ mapM (λ span : Z * Z,
              string_to_string (substring (simple_string (U "foo bar")) span.1 span.2))
        spans
      = Some [U "foo"; U "bar"].
Proof.
  apply (w_words_join (λ c, bool_decide (c = 32)) None [] (simple_string (U "foo bar"))
           32 [U "foo"; U "bar"]).
  - vm_compute. done.
  - reflexivity.
  - reflexivity.
  - repeat first [ apply Forall_nil_2 | apply Forall_cons_2 | split | done ].
Defined.

(** ** Words [upper-case], [lower-case], [swap-case], [capitalize] *)

(** The loop the four words share fills the array with the changed code
    points, in the order of the text. *)
Lemma change_loop_text (change : Z → Z → Z) (str : string) (cs : list Z)
    (n i : nat) (result : list Z) :
  has_text str cs → (i + n = length cs)%nat → length result = length cs →
  take i result = take i (imap (λ k c, change (Z.of_nat k) c) cs) →
  change_loop change str n (Z.of_nat i) result
  = Some (imap (λ k c, change (Z.of_nat k) c) cs).
Proof.
  intros [_ Hat]. revert i result.
  induction n as [| n IH]; intros i result Hi Hlen Htake; cbn [change_loop].
  - rewrite !take_ge in Htake by (rewrite ?length_imap; lia). by rewrite Htake.
  - destruct (lookup_lt_is_Some_2 cs i) as [c Hc]; [lia |].
    rewrite Hat, Hc by lia. cbn [mbind option_bind]. rewrite Nat2Z.id.
    replace (Z.of_nat i + 1) with (Z.of_nat (S i)) by lia.
    apply IH; [lia | by rewrite length_insert |].
    rewrite (take_S_r _ _ (change (Z.of_nat i) c))
      by (apply list_lookup_insert_eq; lia).
    rewrite take_insert_ge by lia.
    rewrite (take_S_r (imap _ cs) i (change (Z.of_nat i) c))
      by (by rewrite list_lookup_imap, Hc).
    by rewrite Htake.
Qed.

(** What a word made of that loop leaves on the stack. *)
Lemma change_run (change : Z → Z → Z) (ctx : context) (s : string) (cs : list Z) :
  has_text s cs →
  (change_loop change s (Z.to_nat (string_length s)) 0
     (replicate (Z.to_nat (string_length s)) 0)
   ≫= λ result, Some (push_string ctx result (string_length s)))
  = Some (push ctx (string_ref (simple_string (imap (λ k c, change (Z.of_nat k) c) cs)))).
Proof.
  intros Htext. pose proof Htext as [Hl _]. rewrite Hl, Nat2Z.id.
  pose proof (change_loop_text change s cs (length cs) 0 (replicate (length cs) 0)
                Htext ltac:(lia) (length_replicate _ _) eq_refl) as Hloop.
  change (Z.of_nat 0) with 0 in Hloop. rewrite Hloop. cbn [mbind option_bind].
  unfold push_string, runtime_string.
  by rewrite Nat2Z.id, take_ge by (rewrite length_imap; lia).
Qed.

Section case_words.

Variable unichar_islower : Z → bool.
Variable unichar_toupper unichar_tolower : Z → Z.

Lemma w_upper_case_text (err : option error) (rest : list ref_value)
    (s : string) (cs : list Z) :
  has_text s cs →
  w_upper_case unichar_toupper (mk_context err (string_ref s :: rest))
  = Some (mk_context err (string_ref (simple_string (unichar_toupper <$> cs)) :: rest)).
Proof.
  intros Htext. unfold w_upper_case. rewrite pop_string_top.
  rewrite (change_run _ _ s cs Htext). by rewrite (imap_const unichar_toupper).
Qed.

Lemma w_lower_case_text (err : option error) (rest : list ref_value)
    (s : string) (cs : list Z) :
  has_text s cs →
  w_lower_case unichar_tolower (mk_context err (string_ref s :: rest))
  = Some (mk_context err (string_ref (simple_string (unichar_tolower <$> cs)) :: rest)).
Proof.
  intros Htext. unfold w_lower_case. rewrite pop_string_top.
  rewrite (change_run _ _ s cs Htext). by rewrite (imap_const unichar_tolower).
Qed.

Lemma w_swap_case_text (err : option error) (rest : list ref_value)
    (s : string) (cs : list Z) :
  has_text s cs →
  w_swap_case unichar_islower unichar_toupper unichar_tolower
    (mk_context err (string_ref s :: rest))
  = Some (mk_context err
            (string_ref
               (simple_string
                  ((λ c, if unichar_islower c then unichar_toupper c
                         else unichar_tolower c) <$> cs))
             :: rest)).
Proof.
  intros Htext. unfold w_swap_case. rewrite pop_string_top.
  rewrite (change_run _ _ s cs Htext).
  by rewrite (imap_const (λ c, if unichar_islower c then unichar_toupper c
                             else unichar_tolower c)).
Qed.

Lemma w_capitalize_text (err : option error) (rest : list ref_value)
    (s : string) (cs : list Z) :
  has_text s cs →
  w_capitalize unichar_toupper unichar_tolower (mk_context err (string_ref s :: rest))
  = Some (mk_context err
            (string_ref
               (simple_string
                  match cs with
                  | [] => []
                  | c :: tail => unichar_toupper c :: (unichar_tolower <$> tail)
                  end)
             :: rest)).
Proof.
  intros Htext. unfold w_capitalize. rewrite pop_string_top.
  rewrite (change_run _ _ s cs Htext). destruct cs as [| c tail]; [done |].
  rewrite imap_cons. cbn [Z.of_nat]. rewrite bool_decide_eq_true_2 by done.
  rewrite <- (imap_const unichar_tolower).
  rewrite (imap_ext _ (const unichar_tolower) tail); [done |].
  intros k d _. cbn [compose const]. by rewrite bool_decide_eq_false_2 by lia.
Qed.

(** X13: on a string that keeps the rope invariant, [upper-case],
    [lower-case] and [swap-case] replace it by a new [simple_string] of
    the same length whose code point at every index is the upper-case
    mapping, the lower-case mapping, or (for [swap-case]) the upper-case
    mapping of a lower-case code point and the lower-case mapping of any
    other, of the code point the string has there. *)
Theorem w_case_maps (err : option error) (rest : list ref_value) (s : string)
    (Hvalid : string_valid s) :
  ∃ cs : list Z,
    string_to_string s = Some cs
    ∧ w_upper_case unichar_toupper (mk_context err (string_ref s :: rest))
      = Some (mk_context err
                (string_ref (simple_string (unichar_toupper <$> cs)) :: rest))
    ∧ w_lower_case unichar_tolower (mk_context err (string_ref s :: rest))
      = Some (mk_context err
                (string_ref (simple_string (unichar_tolower <$> cs)) :: rest))
    ∧ w_swap_case unichar_islower unichar_toupper unichar_tolower
        (mk_context err (string_ref s :: rest))
      = Some (mk_context err
                (string_ref
                   (simple_string
                      ((λ c, if unichar_islower c then unichar_toupper c
                             else unichar_tolower c) <$> cs))
                 :: rest))
    ∧ ∀ f : Z → Z, string_length (simple_string (f <$> cs)) = string_length s.
Proof.
  destruct (string_valid_text s Hvalid) as (cs & Hcs & Htext).
  exists cs. split_and!.
  - done.
  - by apply w_upper_case_text.
  - by apply w_lower_case_text.
  - by apply w_swap_case_text.
  - intros f. destruct Htext as [Hl _]. simpl. rewrite length_fmap. lia.
Qed.

(** X14: on a string that keeps the rope invariant, [capitalize]
    replaces it by a new [simple_string] of the same length: the empty
    string for an empty text, and otherwise the upper-case mapping of the
    first code point followed by the lower-case mappings of the others,
    so that past the first code point it agrees with [lower-case]. *)
Theorem w_capitalize_spec (err : option error) (rest : list ref_value) (s : string)
    (Hvalid : string_valid s) :
  ∃ (cs : list Z) (r l : list Z),
    string_to_string s = Some cs
    ∧ w_capitalize unichar_toupper unichar_tolower
        (mk_context err (string_ref s :: rest))
      = Some (mk_context err (string_ref (simple_string r) :: rest))
    ∧ w_lower_case unichar_tolower (mk_context err (string_ref s :: rest))
      = Some (mk_context err (string_ref (simple_string l) :: rest))
    ∧ length r = length cs
    ∧ head r = unichar_toupper <$> head cs
    ∧ drop 1 r = drop 1 l.
Proof.
  destruct (string_valid_text s Hvalid) as (cs & Hcs & Htext).
  exists cs, (match cs with
              | [] => []
              | c :: tail => unichar_toupper c :: (unichar_tolower <$> tail)
              end), (unichar_tolower <$> cs).
  split_and!.
  - done.
  - by apply w_capitalize_text.
  - by apply w_lower_case_text.
  - destruct cs; [done |]. simpl. by rewrite length_fmap.
  - by destruct cs.
  - by destruct cs.
Qed.

(** X15: [reverse] goes through [upper-case], [lower-case] and
    [swap-case]: on a string that keeps the rope invariant, reversing and
    then changing the case leaves the very string that changing the case
    and then reversing leaves. *)
Theorem w_reverse_case_commute (err : option error) (rest : list ref_value)
    (s : string) (Hvalid : string_valid s) :
  let ctx := mk_context err (string_ref s :: rest) in
  (∃ r, (w_reverse ctx ≫= w_upper_case unichar_toupper)
        = Some (mk_context err (string_ref r :: rest))
        ∧ (w_upper_case unichar_toupper ctx ≫= w_reverse)
          = Some (mk_context err (string_ref r :: rest)))
  ∧ (∃ r, (w_reverse ctx ≫= w_lower_case unichar_tolower)
          = Some (mk_context err (string_ref r :: rest))
          ∧ (w_lower_case unichar_tolower ctx ≫= w_reverse)
            = Some (mk_context err (string_ref r :: rest)))
  ∧ (∃ r, (w_reverse ctx
           ≫= w_swap_case unichar_islower unichar_toupper unichar_tolower)
          = Some (mk_context err (string_ref r :: rest))
          ∧ (w_swap_case unichar_islower unichar_toupper unichar_tolower ctx
             ≫= w_reverse)
            = Some (mk_context err (string_ref r :: rest))).
Proof.
  intros ctx. destruct (string_valid_text s Hvalid) as (cs & Hcs & Htext).
  unfold ctx. split_and!.
  - exists (simple_string (unichar_toupper <$> reverse cs)).
    rewrite (w_reverse_text err rest s cs Htext),
      (w_upper_case_text err rest s cs Htext). cbn [mbind option_bind].
    rewrite (w_upper_case_text err rest _ _ (has_text_simple _)).
    rewrite (w_reverse_text err rest _ _ (has_text_simple _)).
    by rewrite fmap_reverse.
  - exists (simple_string (unichar_tolower <$> reverse cs)).
    rewrite (w_reverse_text err rest s cs Htext),
      (w_lower_case_text err rest s cs Htext). cbn [mbind option_bind].
    rewrite (w_lower_case_text err rest _ _ (has_text_simple _)).
    rewrite (w_reverse_text err rest _ _ (has_text_simple _)).
    by rewrite fmap_reverse.
  - eexists.
    rewrite (w_reverse_text err rest s cs Htext),
      (w_swap_case_text err rest s cs Htext). cbn [mbind option_bind].
    rewrite (w_swap_case_text err rest _ _ (has_text_simple _)).
    rewrite (w_reverse_text err rest _ _ (has_text_simple _)).
    by rewrite fmap_reverse.
Qed.

End case_words.

(** An ASCII stand-in for the case tables, to run the words on. *)
Lemma w_case_maps_witness :
  let upper := λ c : Z, if bool_decide (97 ≤ c ≤ 122) then c - 32 else c in
  let lower := λ c : Z, if bool_decide (65 ≤ c ≤ 90) then c + 32 else c in
  w_upper_case upper (mk_context None [string_ref (simple_string (U "Hello!"))])
  = Some (mk_context None [string_ref (simple_string (U "HELLO!"))])
  ∧ w_swap_case (λ c, bool_decide (97 ≤ c ≤ 122)) upper lower
      (mk_context None [string_ref (simple_string (U "Hello!"))])
    = Some (mk_context None [string_ref (simple_string (U "hELLO!"))]).
Proof.
  intros upper lower.
  destruct (w_case_maps (λ c, bool_decide (97 ≤ c ≤ 122)) upper lower None []
              (simple_string (U "Hello!")))
    as (cs & Hcs & Hup & _ & Hswap & _); [vm_compute; done |].
  injection Hcs as <-. split; [exact Hup | exact Hswap].
Defined.

Lemma w_capitalize_spec_witness :
  let upper := λ c : Z, if bool_decide (97 ≤ c ≤ 122) then c - 32 else c in
  let lower := λ c : Z, if bool_decide (65 ≤ c ≤ 90) then c + 32 else c in
  ∃ (cs : list Z) (r l : list Z),
    string_to_string (simple_string (U "hELLO")) = Some cs
    ∧ w_capitalize upper lower (mk_context None [string_ref (simple_string (U "hELLO"))])
      = Some (mk_context None [string_ref (simple_string r)])
    ∧ w_lower_case lower (mk_context None [string_ref (simple_string (U "hELLO"))])
      = Some (mk_context None [string_ref (simple_string l)])
    ∧ length r = length cs
    ∧ head r = upper <$> head cs
    ∧ drop 1 r = drop 1 l.
Proof.
  intros upper lower.
  apply (w_capitalize_spec upper lower None [] (simple_string (U "hELLO"))).
  vm_compute. done.
Defined.

Lemma w_reverse_case_commute_witness :
  let upper := λ c : Z, if bool_decide (97 ≤ c ≤ 122) then c - 32 else c in
  ∃ r, (w_reverse (mk_context None [string_ref (simple_string (U "abc"))])
        ≫= w_upper_case upper)
       = Some (mk_context None [string_ref r])
       ∧ (w_upper_case upper (mk_context None [string_ref (simple_string (U "abc"))])
          ≫= w_reverse)
         = Some (mk_context None [string_ref r]).
Proof.
  intros upper.
  destruct (w_reverse_case_commute (λ _, false) upper (λ c, c) None []
              (simple_string (U "abc"))) as [Hup _]; [vm_compute; done |].
  exact Hup.
Defined.

(** ** Words [trim-left] and [trim-right] *)

Section trim_sides.

Variable unichar_isspace : Z → bool.

(** What [strip_left] leaves is the end of the text. *)
Lemma strip_left_drop (cs : list Z) :
  strip_left unichar_isspace cs
  = drop (length cs - length (strip_left unichar_isspace cs)) cs
  ∧ (length (strip_left unichar_isspace cs) ≤ length cs)%nat.
Proof.
  induction cs as [| c cs [IH Hle]]; [done |]. cbn [strip_left].
  destruct (unichar_isspace c).
  - split; [| simpl; lia]. rewrite IH at 1. cbn [length].
    replace (S (length cs) - length (strip_left unichar_isspace cs))%nat
      with (S (length cs - length (strip_left unichar_isspace cs))) by lia.
    done.
  - split; [| done]. by rewrite Nat.sub_diag.
Qed.

(** What [strip_right] leaves is the beginning of the text. *)
Lemma strip_right_take (cs : list Z) :
  strip_right unichar_isspace cs
  = take (length (strip_right unichar_isspace cs)) cs
  ∧ (length (strip_right unichar_isspace cs) ≤ length cs)%nat.
Proof.
  unfold strip_right.
  destruct (strip_left_drop (reverse cs)) as [Hdrop Hle].
  rewrite length_reverse in *. split; [| done].
  rewrite Hdrop at 1. rewrite drop_reverse, reverse_involutive.
  f_equal. lia.
Qed.

Lemma strip_left_head (cs : list Z) (c : Z) :
  head (strip_left unichar_isspace cs) = Some c → unichar_isspace c = false.
Proof.
  induction cs as [| d cs IH]; [done |]. cbn [strip_left].
  destruct (unichar_isspace d) eqn:Hd; [done |]. by intros [= <-].
Qed.

Lemma strip_left_nonspace (cs : list Z) :
  (∃ c, head cs = Some c ∧ unichar_isspace c = false) ∨ cs = [] →
  strip_left unichar_isspace cs = cs.
Proof.
  intros [(c & Hc & Hs) | ->]; [| done].
  destruct cs as [| d cs]; [done |]. injection Hc as ->. simpl. by rewrite Hs.
Qed.

Lemma strip_left_idemp (cs : list Z) :
  strip_left unichar_isspace (strip_left unichar_isspace cs)
  = strip_left unichar_isspace cs.
Proof.
  apply strip_left_nonspace.
  destruct (strip_left unichar_isspace cs) as [| c tail] eqn:Hs; [by right | left].
  exists c. split; [done |]. apply (strip_left_head cs). by rewrite Hs.
Qed.

Lemma strip_right_idemp (cs : list Z) :
  strip_right unichar_isspace (strip_right unichar_isspace cs)
  = strip_right unichar_isspace cs.
Proof. unfold strip_right. by rewrite reverse_involutive, strip_left_idemp. Qed.

(** The left scan stops where what [strip_left] keeps begins. *)
Lemma scan_left_strip (str : string) (cs : list Z) (n i : nat) :
  has_text str cs → (i + n = length cs)%nat →
  scan_left unichar_isspace str n (Z.of_nat i)
  = Some (Z.of_nat (length cs - length (strip_left unichar_isspace (drop i cs)))).
Proof.
  intros [_ Hat]. revert i.
  induction n as [| n IH]; intros i Hi; cbn [scan_left].
  - rewrite drop_ge by lia. simpl. do 2 f_equal. lia.
  - destruct (lookup_lt_is_Some_2 cs i) as [c Hc]; [lia |].
    rewrite Hat, Hc by lia. cbn [mbind option_bind].
    rewrite (drop_S _ _ _ Hc). cbn [strip_left].
    destruct (unichar_isspace c); cbn [negb].
    + replace (Z.of_nat i + 1) with (Z.of_nat (S i)) by lia. apply IH. lia.
    + do 2 f_equal. cbn [length]. rewrite length_drop. lia.
Qed.

(** The right scan stops where what [strip_right] keeps ends. *)
Lemma scan_right_strip (str : string) (cs : list Z) (n : nat) (j : Z) :
  has_text str cs → j = Z.of_nat n → (n ≤ length cs)%nat →
  scan_right unichar_isspace str n j
  = Some (Z.of_nat (length (strip_right unichar_isspace (take n cs)))).
Proof.
  intros [_ Hat]. revert j.
  induction n as [| n IH]; intros j Hj Hn; cbn [scan_right].
  - by subst.
  - destruct (lookup_lt_is_Some_2 cs n) as [c Hc]; [lia |].
    replace (j - 1) with (Z.of_nat n) by lia.
    rewrite Hat, Hc by lia. cbn [mbind option_bind].
    rewrite (take_S_r _ _ _ Hc).
    assert (Hstrip : strip_right unichar_isspace (take n cs ++ [c])
                     = if unichar_isspace c
                       then strip_right unichar_isspace (take n cs)
                       else take n cs ++ [c]).
    { unfold strip_right. rewrite reverse_snoc. cbn [strip_left].
      destruct (unichar_isspace c); [done |].
      by rewrite <- reverse_snoc, reverse_involutive. }
    rewrite Hstrip. destruct (unichar_isspace c); cbn [negb].
    + apply IH; [done | lia].
    + rewrite length_app, length_take. subst j. do 2 f_equal. simpl. lia.
Qed.

(** What [trim-left] pushes, and its text. *)
Lemma w_trim_left_text (err : option error) (rest : list ref_value) (s : string)
    (cs : list Z) :
  has_text s cs → string_length s < size_modulus →
  ∃ p : string,
    w_trim_left unichar_isspace (mk_context err (string_ref s :: rest))
    = Some (mk_context err (string_ref p :: rest))
    ∧ has_text p (strip_left unichar_isspace cs)
    ∧ (p = s
       ∨ ∃ i : Z, 0 < i ≤ string_length s ∧ p = substring s i (string_length s - i))
    ∧ (strip_left unichar_isspace cs = cs → p = s).
Proof.
  intros Htext Hmod. pose proof Htext as [Hl _].
  destruct (strip_left_drop cs) as [Hdrop Hle].
  set (i := (length cs - length (strip_left unichar_isspace cs))%nat) in *.
  assert (Hrun : w_trim_left unichar_isspace (mk_context err (string_ref s :: rest))
                 = Some (mk_context err
                           (string_ref
                              (if bool_decide (Z.of_nat i ≠ 0)
                               then substring s (Z.of_nat i) (string_length s - Z.of_nat i)
                               else s)
                            :: rest))).
  { unfold w_trim_left. rewrite pop_string_top.
    replace (Z.to_nat (string_length s)) with (length cs) by lia.
    pose proof (scan_left_strip s cs (length cs) 0 Htext ltac:(lia)) as Hleft.
    change (Z.of_nat 0) with 0 in Hleft. rewrite drop_0 in Hleft.
    fold i in Hleft. rewrite Hleft. cbn [mbind option_bind].
    rewrite wrap_size_small by lia. by case_bool_decide. }
  rewrite Hrun. case_bool_decide as Hi.
  - eexists. split_and!; [done | | right; exists (Z.of_nat i); split; [lia | done] |].
    + rewrite Hdrop.
      pose proof (has_text_substring s cs (Z.of_nat i) (string_length s - Z.of_nat i)
                    Htext ltac:(lia) ltac:(lia) ltac:(lia) Hmod) as Hsub.
      rewrite Nat2Z.id in Hsub.
      by rewrite take_ge in Hsub by (rewrite length_drop; lia).
    + intros Hsame. unfold i in Hi. rewrite Hsame in Hi. lia.
  - exists s. split_and!; [done | | by left | done].
    rewrite Hdrop. replace i with 0%nat by lia. by rewrite drop_0.
Qed.

(** What [trim-right] pushes, and its text. *)
Lemma w_trim_right_text (err : option error) (rest : list ref_value) (s : string)
    (cs : list Z) :
  has_text s cs → string_length s < size_modulus →
  ∃ p : string,
    w_trim_right unichar_isspace (mk_context err (string_ref s :: rest))
    = Some (mk_context err (string_ref p :: rest))
    ∧ has_text p (strip_right unichar_isspace cs)
    ∧ (p = s ∨ ∃ j : Z, 0 ≤ j < string_length s ∧ p = substring s 0 j)
    ∧ (strip_right unichar_isspace cs = cs → p = s).
Proof.
  intros Htext Hmod. pose proof Htext as [Hl _].
  destruct (strip_right_take cs) as [Htake Hle].
  set (j := length (strip_right unichar_isspace cs)) in *.
  assert (Hrun : w_trim_right unichar_isspace (mk_context err (string_ref s :: rest))
                 = Some (mk_context err
                           (string_ref
                              (if bool_decide (Z.of_nat j ≠ string_length s)
                               then substring s 0 (Z.of_nat j)
                               else s)
                            :: rest))).
  { unfold w_trim_right. rewrite pop_string_top.
    replace (Z.to_nat (string_length s)) with (length cs) by lia.
    rewrite (scan_right_strip s cs (length cs) _ Htext) by lia.
    rewrite take_ge by lia. fold j. cbn [mbind option_bind].
    by case_bool_decide. }
  rewrite Hrun. case_bool_decide as Hj.
  - eexists. split_and!; [done | | right; exists (Z.of_nat j); split; [lia | done] |].
    + rewrite Htake.
      pose proof (has_text_substring s cs 0 (Z.of_nat j)
                    Htext ltac:(lia) ltac:(lia) ltac:(lia) Hmod) as Hsub.
      by rewrite Nat2Z.id in Hsub.
    + intros Hsame. unfold j in Hj. rewrite Hsame in Hj. lia.
  - exists s. split_and!; [done | | by left | done].
    rewrite Htake. replace j with (length cs) by lia. by rewrite take_ge by lia.
Qed.

(** A slice inside a valid rope is a valid rope. *)
Lemma trimmed_valid (s p : string) :
  string_valid s →
  p = s ∨ (∃ i : Z, 0 < i ≤ string_length s ∧ p = substring s i (string_length s - i))
  ∨ (∃ j : Z, 0 ≤ j < string_length s ∧ p = substring s 0 j) →
  string_valid p.
Proof.
  intros Hvalid [-> | [(i & Hi & ->) | (j & Hj & ->)]]; [done | |];
    simpl; split_and!; (done || lia).
Qed.

(** X16: on every string that keeps the rope invariant, one made of
    whitespace only included, [trim-left] pushes a string that keeps the
    invariant and whose text is the text without its leading whitespace:
    the string itself when there is nothing to strip, and otherwise the
    slice from the first kept index to the end.  Applied to what it
    pushed, [trim-left] pushes that very string again. *)
Theorem w_trim_left_spec (err : option error) (rest : list ref_value) (s : string)
    (Hvalid : string_valid s) :
  ∃ (cs : list Z) (p : string),
    string_to_string s = Some cs
    ∧ w_trim_left unichar_isspace (mk_context err (string_ref s :: rest))
      = Some (mk_context err (string_ref p :: rest))
    ∧ string_valid p
    ∧ string_to_string p = Some (strip_left unichar_isspace cs)
    ∧ (p = s
       ∨ ∃ i : Z, 0 < i ≤ string_length s ∧ p = substring s i (string_length s - i))
    ∧ w_trim_left unichar_isspace (mk_context err (string_ref p :: rest))
      = Some (mk_context err (string_ref p :: rest)).
Proof.
  destruct (string_valid_text s Hvalid) as (cs & Hcs & Htext).
  pose proof (string_valid_length s Hvalid) as Hlen.
  destruct (w_trim_left_text err rest s cs Htext ltac:(lia))
    as (p & Hrun & Hp & Hshape & _).
  assert (Hpv : string_valid p).
  { apply (trimmed_valid s); [done |]. destruct Hshape; [by left | right; by left]. }
  exists cs, p. split_and!; [done | done | done | | done |].
  - apply to_string_has_text; [| done]. by eapply has_text_length_nonneg.
  - pose proof (string_valid_length p Hpv) as Hplen.
    destruct (w_trim_left_text err rest p _ Hp ltac:(lia)) as (p' & Hrun' & _ & _ & Hsame).
    rewrite Hrun'. by rewrite (Hsame (strip_left_idemp cs)).
Qed.

(** X17: on every string that keeps the rope invariant, one made of
    whitespace only included, [trim-right] pushes a string that keeps the
    invariant and whose text is the text without its trailing whitespace:
    the string itself when there is nothing to strip, and otherwise the
    slice from index 0 up to the last kept code point.  Applied to what
    it pushed, [trim-right] pushes that very string again. *)
Theorem w_trim_right_spec (err : option error) (rest : list ref_value) (s : string)
    (Hvalid : string_valid s) :
  ∃ (cs : list Z) (p : string),
    string_to_string s = Some cs
    ∧ w_trim_right unichar_isspace (mk_context err (string_ref s :: rest))
      = Some (mk_context err (string_ref p :: rest))
    ∧ string_valid p
    ∧ string_to_string p = Some (strip_right unichar_isspace cs)
    ∧ (p = s ∨ ∃ j : Z, 0 ≤ j < string_length s ∧ p = substring s 0 j)
    ∧ w_trim_right unichar_isspace (mk_context err (string_ref p :: rest))
      = Some (mk_context err (string_ref p :: rest)).
Proof.
  destruct (string_valid_text s Hvalid) as (cs & Hcs & Htext).
  pose proof (string_valid_length s Hvalid) as Hlen.
  destruct (w_trim_right_text err rest s cs Htext ltac:(lia))
    as (p & Hrun & Hp & Hshape & _).
  assert (Hpv : string_valid p).
  { apply (trimmed_valid s); [done |]. destruct Hshape; [by left | right; by right]. }
  exists cs, p. split_and!; [done | done | done | | done |].
  - apply to_string_has_text; [| done]. by eapply has_text_length_nonneg.
  - pose proof (string_valid_length p Hpv) as Hplen.
    destruct (w_trim_right_text err rest p _ Hp ltac:(lia)) as (p' & Hrun' & _ & _ & Hsame).
    rewrite Hrun'. by rewrite (Hsame (strip_right_idemp cs)).
Qed.

(** Stripping a text whose first and last kept code points are known. *)
Lemma strip_left_app (lead tail : list Z) (b : Z) :
  (∀ c, c ∈ lead → unichar_isspace c = true) → unichar_isspace b = false →
  strip_left unichar_isspace (lead ++ b :: tail) = b :: tail.
Proof.
  intros Hlead Hb. induction lead as [| c lead IH]; simpl.
  - by rewrite Hb.
  - rewrite (Hlead c) by (by left). apply IH. intros d Hd. apply Hlead. by right.
Qed.

Lemma strip_right_app (front trail : list Z) (e : Z) :
  (∀ c, c ∈ trail → unichar_isspace c = true) → unichar_isspace e = false →
  strip_right unichar_isspace (front ++ e :: trail) = front ++ [e].
Proof.
  intros Htrail He. unfold strip_right.
  rewrite reverse_app, reverse_cons, <- app_assoc. cbn [app].
  rewrite strip_left_app; [| | done].
  - by rewrite reverse_cons, reverse_involutive.
  - intros c Hc. apply Htrail. by apply elem_of_reverse.
Qed.

(** X18: where [trim] works, it does what [trim-left] followed by
    [trim-right] does.  On a string that keeps the rope invariant and
    whose text is whitespace [lead], then [body], which begins and ends
    with a code point that is not whitespace, then whitespace [trail],
    both [trim] and [trim-left trim-right] leave on the stack a string
    that keeps the invariant and whose text is [body]. *)
Theorem w_trim_is_left_right (err : option error) (rest : list ref_value)
    (s : string) (lead body trail : list Z) (b e : Z)
    (Hvalid : string_valid s)
    (Htext : string_to_string s = Some (lead ++ body ++ trail))
    (Hlead : ∀ c, c ∈ lead → unichar_isspace c = true)
    (Htrail : ∀ c, c ∈ trail → unichar_isspace c = true)
    (Hb : head body = Some b) (Hbs : unichar_isspace b = false)
    (He : last body = Some e) (Hes : unichar_isspace e = false) :
  ∃ p q : string,
    w_trim unichar_isspace (mk_context err (string_ref s :: rest))
    = Some (mk_context err (string_ref p :: rest))
    ∧ (w_trim_left unichar_isspace (mk_context err (string_ref s :: rest))
       ≫= w_trim_right unichar_isspace)
      = Some (mk_context err (string_ref q :: rest))
    ∧ string_valid p ∧ string_valid q
    ∧ string_to_string p = Some body
    ∧ string_to_string q = Some body.
Proof.
  pose proof (string_valid_length s Hvalid) as Hlen.
  apply to_string_has_text in Htext; [| lia].
  pose proof Htext as [Hl _]. rewrite !length_app in Hl.
  destruct (w_trim_text unichar_isspace err rest s lead body trail b e
              Htext ltac:(lia) Hlead Htrail Hb Hbs He Hes) as [Hrun Hshort].
  destruct (w_trim_left_text err rest s _ Htext ltac:(lia)) as (l & Hl1 & Hl2 & Hl3 & _).
  assert (Hlv : string_valid l).
  { apply (trimmed_valid s); [done |]. destruct Hl3; [by left | right; by left]. }
  pose proof (string_valid_length l Hlv) as Hllen.
  destruct (w_trim_right_text err rest l _ Hl2 ltac:(lia)) as (q & Hq1 & Hq2 & Hq3 & _).
  assert (Hstrip : strip_right unichar_isspace
                     (strip_left unichar_isspace (lead ++ body ++ trail)) = body).
  { destruct body as [| b' body']; [done |]. injection Hb as ->.
    cbn [app]. rewrite strip_left_app by done.
    apply last_Some in He as [front Hfront].
    change (b :: body' ++ trail) with ((b :: body') ++ trail).
    rewrite Hfront, <- app_assoc. cbn [app]. by apply strip_right_app. }
  rewrite Hstrip in Hq2.
  eexists _, q. split_and!.
  - exact Hrun.
  - rewrite Hl1. cbn [mbind option_bind]. exact Hq1.
  - case_bool_decide as Hnone; [done |].
    destruct Hshort as [Hboth | Hshort]; [done |].
    simpl. split_and!; [done | lia | lia |].
    destruct Htext as [Hs _]. rewrite !length_app in Hs. lia.
  - apply (trimmed_valid l); [done |]. destruct Hq3; [by left | right; by right].
  - case_bool_decide as Hnone.
    + destruct Hnone as [-> ->]. rewrite app_nil_r in Htext. cbn [app] in Htext.
      apply to_string_has_text; [lia | done].
    + apply to_string_has_text; [simpl; lia |].
      pose proof (has_text_substring s _ (Z.of_nat (length lead))
                    (Z.of_nat (length body)) Htext ltac:(lia) ltac:(lia)
                    ltac:(lia) ltac:(lia)) as Hsub.
      rewrite !Nat2Z.id, drop_app_length, take_app_length in Hsub. done.
  - apply to_string_has_text; [| done]. by eapply has_text_length_nonneg.
Qed.

End trim_sides.

Lemma w_trim_left_spec_witness :
  ∃ (cs : list Z) (p : string),
    string_to_string (simple_string (U "   ")) = Some cs
    ∧ w_trim_left (λ c, bool_decide (c = 32))
        (mk_context None [string_ref (simple_string (U "   "))])
      = Some (mk_context None [string_ref p])
    ∧ string_valid p
    ∧ string_to_string p = Some (strip_left (λ c, bool_decide (c = 32)) cs)
    ∧ (p = simple_string (U "   ")
       ∨ ∃ i : Z, 0 < i ≤ string_length (simple_string (U "   "))
                  ∧ p = substring (simple_string (U "   ")) i
                          (string_length (simple_string (U "   ")) - i))
    ∧ w_trim_left (λ c, bool_decide (c = 32)) (mk_context None [string_ref p])
      = Some (mk_context None [string_ref p]).
Proof.
  apply (w_trim_left_spec (λ c, bool_decide (c = 32)) None []
           (simple_string (U "   "))).
  vm_compute. done.
Defined.

Lemma w_trim_right_spec_witness :
  ∃ (cs : list Z) (p : string),
    string_to_string (simple_string (U "hi  ")) = Some cs
    ∧ w_trim_right (λ c, bool_decide (c = 32))
        (mk_context None [string_ref (simple_string (U "hi  "))])
      = Some (mk_context None [string_ref p])
    ∧ string_valid p
    ∧ string_to_string p = Some (strip_right (λ c, bool_decide (c = 32)) cs)
    ∧ (p = simple_string (U "hi  ")
       ∨ ∃ j : Z, 0 ≤ j < string_length (simple_string (U "hi  "))
                  ∧ p = substring (simple_string (U "hi  ")) 0 j)
    ∧ w_trim_right (λ c, bool_decide (c = 32)) (mk_context None [string_ref p])
      = Some (mk_context None [string_ref p]).
Proof.
  apply (w_trim_right_spec (λ c, bool_decide (c = 32)) None []
           (simple_string (U "hi  "))).
  vm_compute. done.
Defined.

Lemma w_trim_is_left_right_witness :
  ∃ p q : string,
    w_trim (λ c, bool_decide (c = 32))
      (mk_context None [string_ref (simple_string (U "  hi  "))])
    = Some (mk_context None [string_ref p])
    ∧ (w_trim_left (λ c, bool_decide (c = 32))
         (mk_context None [string_ref (simple_string (U "  hi  "))])
       ≫= w_trim_right (λ c, bool_decide (c = 32)))
      = Some (mk_context None [string_ref q])
    ∧ string_valid p ∧ string_valid q
    ∧ string_to_string p = Some (U "hi")
    ∧ string_to_string q = Some (U "hi").
Proof.
  apply (w_trim_is_left_right (λ c, bool_decide (c = 32)) None []
           (simple_string (U "  hi  ")) (U "  ") (U "hi") (U "  ") 104 105).
  - vm_compute. done.
  - reflexivity.
  - intros c Hc. apply elem_of_cons in Hc as [-> | Hc]; [done |].
    by apply list_elem_of_singleton in Hc as ->.
  - intros c Hc. apply elem_of_cons in Hc as [-> | Hc]; [done |].
    by apply list_elem_of_singleton in Hc as ->.
  - reflexivity.
  - reflexivity.
  - reflexivity.
  - reflexivity.
Defined.

(** ** Word [lines], continued *)

(** What [lines] leaves on the stack for a string with a text, and the
    texts of the slices in the array. *)
Lemma w_lines_run (err : option error) (rest : list ref_value) (s : string)
    (cs : list Z) :
  has_text s cs → string_length s < size_modulus →
  w_lines (mk_context err (string_ref s :: rest))
  = Some (mk_context err
            (Some (val_array (span_slice s <$> line_spans 0 0 cs))
             :: string_ref s :: rest))
  ∧ mapM (λ span : Z * Z, string_to_string (substring s span.1 span.2))
      (line_spans 0 0 cs)
    = Some (split_lines [] cs).
Proof.
  intros Htext Hlen. pose proof Htext as [Hl _]. split.
  - pose proof (lines_loop_spans s cs (Z.to_nat (string_length s)) Htext
                  ltac:(lia) 0%nat 0 [] ltac:(lia) ltac:(lia) ltac:(lia)) as Hloop.
    rewrite drop_0 in Hloop. cbn [app] in Hloop.
    change (Z.of_nat 0) with 0 in Hloop. rewrite Z.sub_diag in Hloop.
    unfold w_lines. rewrite pop_string_top.
    destruct (lines_loop _ _ _ _ _ _ _) as [[[begin end_] result] |]; [| done].
    injection Hloop as Hloop. unfold lines_finish in Hloop.
    cbn [mbind option_bind]. rewrite Hloop.
    unfold push_array, push. cbn [m_data m_error].
    by rewrite Nat2Z.id, take_ge by lia.
  - apply mapM_Some. rewrite <- (line_spans_text (length cs) cs [] [] ltac:(lia)).
    cbn [app length]. change (Z.of_nat 0) with 0.
    apply Forall2_fmap_r, Forall_Forall2_diag, Forall_forall.
    intros span Hin.
    apply line_spans_range in Hin as (Hb & Hn & Hin); [| lia ..].
    apply to_string_has_text; [simpl; lia |].
    apply has_text_substring; [done | lia ..].
Qed.

(** No line of [split_lines] holds a CR or a LF. *)
Lemma split_lines_clean (n : nat) :
  ∀ text line : list Z, (length text ≤ n)%nat → Forall no_break line →
    Forall (Forall no_break) (split_lines line text).
Proof.
  induction n as [| n IH]; intros text line Hn Hline.
  - destruct text; [| simpl in Hn; lia]. simpl.
    case_bool_decide; [done |]. by apply Forall_cons_2.
  - destruct text as [| c rest]; simpl.
    { case_bool_decide; [done |]. by apply Forall_cons_2. }
    simpl in Hn. case_bool_decide as Hcr.
    + destruct rest as [| d rest'].
      * apply Forall_cons_2; [done |]. apply IH; [simpl; lia | done].
      * case_bool_decide.
        -- apply Forall_cons_2; [done |]. apply IH; [simpl in *; lia | done].
        -- apply Forall_cons_2; [done |]. apply IH; [simpl in *; lia | done].
    + case_bool_decide as Hlf.
      * apply Forall_cons_2; [done |]. apply IH; [lia | done].
      * apply IH; [lia |]. apply Forall_app. split; [done |].
        by apply Forall_cons_2.
Qed.

(** Code points that end no line are gathered into the current line. *)
Lemma split_lines_app (w line text : list Z) :
  Forall no_break w →
  split_lines line (w ++ text) = split_lines (line ++ w) text.
Proof.
  revert line. induction w as [| c w IH]; intros line Hw.
  - by rewrite app_nil_r.
  - apply Forall_cons in Hw as [[Hlf Hcr] Hw]. cbn [app split_lines].
    rewrite (bool_decide_eq_false_2 (c = 13)), (bool_decide_eq_false_2 (c = 10)) by done.
    rewrite IH by done. by rewrite <- app_assoc.
Qed.

(** Lines joined by CR do not begin with LF. *)
Lemma join_cr_head (ls : list (list Z)) :
  Forall (Forall no_break) ls → head (join [13] ls) ≠ Some 10.
Proof.
  destruct ls as [| l ls]; [done |]. intros [Hl _]%Forall_cons.
  assert (Hhead : head l ≠ Some 10).
  { destruct l as [| c l]; [done |]. apply Forall_cons in Hl as [[Hlf _] _].
    simpl. congruence. }
  destruct ls as [| l' ls]; [done |].
  change (join [13] (l :: l' :: ls)) with (l ++ 13 :: join [13] (l' :: ls)).
  destruct l; [done | exact Hhead].
Qed.

(** Lines joined by one separator are found again. *)
Lemma split_lines_join (sep : list Z) (ls : list (list Z)) :
  sep = [10] ∨ sep = [13; 10] ∨ sep = [13] →
  Forall (Forall no_break) ls → last ls ≠ Some [] →
  split_lines [] (join sep ls) = ls.
Proof.
  intros Hsep. induction ls as [| l ls IH]; intros Hls Hlast; [done |].
  apply Forall_cons in Hls as [Hl Hls].
  destruct ls as [| l' ls].
  - cbn [join]. rewrite <- (app_nil_r l) at 1. rewrite split_lines_app by done.
    cbn [split_lines app]. rewrite bool_decide_eq_false_2; [done |].
    intros ->. by apply Hlast.
  - change (join sep (l :: l' :: ls)) with (l ++ sep ++ join sep (l' :: ls)).
    rewrite split_lines_app by done. cbn [app].
    specialize (IH Hls Hlast).
    destruct Hsep as [-> | [-> | ->]].
    + cbn [split_lines app]. rewrite bool_decide_eq_false_2 by done.
      rewrite bool_decide_eq_true_2 by done. by rewrite IH.
    + cbn [split_lines app]. rewrite !bool_decide_eq_true_2 by done. by rewrite IH.
    + pose proof (join_cr_head (l' :: ls) Hls) as Hhead.
      cbn [split_lines app]. rewrite bool_decide_eq_true_2 by done.
      destruct (join [13] (l' :: ls)) as [| d tail] eqn:Hjoin.
      * by rewrite <- IH.
      * rewrite bool_decide_eq_false_2 by (simpl in Hhead; congruence).
        by rewrite IH.
Qed.

(** X19: on a string that keeps the rope invariant, no slice that
    [lines] puts in its array holds a CR or a LF: every code point of
    every line ends no line. *)
Theorem w_lines_no_break (err : option error) (rest : list ref_value) (s : string)
    (Hvalid : string_valid s) :
  ∃ (spans : list (Z * Z)) (texts : list (list Z)),
    w_lines (mk_context err (string_ref s :: rest))
    = Some (mk_context err
              (Some (val_array (span_slice s <$> spans)) :: string_ref s :: rest))
    ∧ mapM (λ span : Z * Z, string_to_string (substring s span.1 span.2)) spans
      = Some texts
    ∧ Forall (Forall no_break) texts.
Proof.
  destruct (string_valid_text s Hvalid) as (cs & Hcs & Htext).
  pose proof (string_valid_length s Hvalid) as Hlen.
  destruct (w_lines_run err rest s cs Htext ltac:(lia)) as [Hrun Htexts].
  exists (line_spans 0 0 cs), (split_lines [] cs). split_and!; [done | done |].
  by apply (split_lines_clean (length cs)).
Qed.

(** X20: [lines] undoes joining.  When the text of the string is made of
    lines that hold no CR and no LF, the last of them not empty, joined
    by LF, by CR LF or by CR, the texts of the slices [lines] pushes are
    these lines, one for one. *)
Theorem w_lines_join (err : option error) (rest : list ref_value) (s : string)
    (sep : list Z) (ls : list (list Z))
    (Hvalid : string_valid s)
    (Hsep : sep = [10] ∨ sep = [13; 10] ∨ sep = [13])
    (Htext : string_to_string s = Some (join sep ls))
    (Hls : Forall (Forall no_break) ls)
    (Hlast : last ls ≠ Some []) :
  ∃ spans : list (Z * Z),
    w_lines (mk_context err (string_ref s :: rest))
    = Some (mk_context err
              (Some (val_array (span_slice s <$> spans)) :: string_ref s :: rest))
    ∧ mapM (λ span : Z * Z, string_to_string (substring s span.1 span.2)) spans
      = Some ls.
Proof.
  pose proof (string_valid_length s Hvalid) as Hlen.
  assert (Hhas : has_text s (join sep ls)) by (apply to_string_has_text; [lia | done]).
  destruct (w_lines_run err rest s _ Hhas ltac:(lia)) as [Hrun Htexts].
  exists (line_spans 0 0 (join sep ls)). split; [done |].
  by rewrite Htexts, split_lines_join.
Qed.

Lemma w_lines_no_break_witness :
  ∃ (spans : list (Z * Z)) (texts : list (list Z)),
    w_lines (mk_context None [string_ref (simple_string (U "a" ++ [13; 10] ++ U "b"))])
    = Some (mk_context None
              [Some (val_array
                       (span_slice (simple_string (U "a" ++ [13; 10] ++ U "b")) <$> spans));
               string_ref (simple_string (U "a" ++ [13; 10] ++ U "b"))])
    ∧ mapM (λ span : Z * Z,
              string_to_string
                (substring (simple_string (U "a" ++ [13; 10] ++ U "b")) span.1 span.2))
        spans
      = Some texts
    ∧ Forall (Forall no_break) texts.
Proof.
  apply (w_lines_no_break None [] (simple_string (U "a" ++ [13; 10] ++ U "b"))).
  vm_compute. done.
Defined.

Lemma w_lines_join_witness :
  ∃ spans : list (Z * Z),
    w_lines (mk_context None [string_ref (simple_string (U "a" ++ [13] ++ [13] ++ U "b"))])
    = Some (mk_context None
              [Some (val_array
                       (span_slice (simple_string (U "a" ++ [13] ++ [13] ++ U "b"))
                          <$> spans));
               string_ref (simple_string (U "a" ++ [13] ++ [13] ++ U "b"))])
    ∧ mapM (λ span : Z * Z,
              string_to_string
                (substring (simple_string (U "a" ++ [13] ++ [13] ++ U "b"))
                   span.1 span.2))
        spans
      = Some [U "a"; []; U "b"].
Proof.
  apply (w_lines_join None [] (simple_string (U "a" ++ [13] ++ [13] ++ U "b"))
           [13] [U "a"; []; U "b"]).
  - vm_compute. done.
  - right. by right.
  - reflexivity.
  - repeat first [ apply Forall_nil_2 | apply Forall_cons_2 | split | done ].
  - done.
Defined.

(** ** Word [+], continued *)

(** What [+] leaves for two strings that have a text, when the lengths
    add up inside a [size_type]. *)
Lemma w_concat_text (err : option error) (rest : list ref_value) (x y : string)
    (cx cy : list Z) :
  has_text x cx → has_text y cy → string_valid x → string_valid y →
  string_length x + string_length y < size_modulus →
  ∃ r : string,
    w_concat (mk_context err (string_ref y :: string_ref x :: rest))
    = Some (mk_context err (string_ref r :: rest))
    ∧ has_text r (cx ++ cy) ∧ string_valid r.
Proof.
  intros Hx Hy Hvx Hvy Hsum. unfold w_concat. rewrite !pop_string_top.
  unfold string_empty.
  pose proof Hx as [Hlx _]. pose proof Hy as [Hly _].
  case_bool_decide as Hy0.
  - exists x. split_and!; [done | | done].
    destruct cy; [| simpl in Hly; lia]. by rewrite app_nil_r.
  - case_bool_decide as Hx0.
    + exists y. split_and!; [done | | done].
      destruct cx; [| simpl in Hlx; lia]. done.
    + exists (concat_string x y). split_and!; [done | | done].
      by apply has_text_concat.
Qed.

(** X21: [+] is associative on texts.  For three strings that keep the
    rope invariant and whose lengths add up below 2^64, [a b + c +] and
    [a b c + +] leave strings that keep the invariant, have the same text
    (that of [a], then [b], then [c]), and are equal for [string::equals]
    in both directions, whatever ropes the two orders build. *)
Theorem w_concat_assoc (err : option error) (rest : list ref_value)
    (a b c : string)
    (Ha : string_valid a) (Hb : string_valid b) (Hc : string_valid c)
    (Hsum : string_length a + string_length b + string_length c < size_modulus) :
  ∃ (l r : string) (ca cb cc : list Z),
    string_to_string a = Some ca ∧ string_to_string b = Some cb
    ∧ string_to_string c = Some cc
    ∧ (w_concat (mk_context err (string_ref b :: string_ref a :: rest))
       ≫= λ ctx, w_concat (push ctx (string_ref c)))
      = Some (mk_context err (string_ref l :: rest))
    ∧ (w_concat (mk_context err (string_ref c :: string_ref b :: string_ref a :: rest))
       ≫= w_concat)
      = Some (mk_context err (string_ref r :: rest))
    ∧ string_valid l ∧ string_valid r
    ∧ string_to_string l = Some (ca ++ cb ++ cc)
    ∧ string_to_string r = Some (ca ++ cb ++ cc)
    ∧ string_equals l (string_ref r) = Some true
    ∧ string_equals r (string_ref l) = Some true.
Proof.
  destruct (string_valid_text a Ha) as (ca & Hca & Hta).
  destruct (string_valid_text b Hb) as (cb & Hcb & Htb).
  destruct (string_valid_text c Hc) as (cc & Hcc & Htc).
  pose proof (string_valid_length a Ha) as Hla.
  pose proof (string_valid_length b Hb) as Hlb.
  pose proof (string_valid_length c Hc) as Hlc.
  destruct (w_concat_text err rest a b ca cb Hta Htb Ha Hb ltac:(lia))
    as (ab & Hab & Htab & Hvab).
  assert (Hlab : string_length ab = string_length a + string_length b).
  { destruct Htab as [-> _], Hta as [-> _], Htb as [-> _]. rewrite length_app. lia. }
  destruct (w_concat_text err rest ab c _ cc Htab Htc Hvab Hc ltac:(lia))
    as (l & Hl & Htl & Hvl).
  destruct (w_concat_text err (string_ref a :: rest) b c cb cc Htb Htc Hb Hc ltac:(lia))
    as (bc & Hbc & Htbc & Hvbc).
  assert (Hlbc : string_length bc = string_length b + string_length c).
  { destruct Htbc as [-> _], Htb as [-> _], Htc as [-> _]. rewrite length_app. lia. }
  destruct (w_concat_text err rest a bc ca _ Hta Htbc Ha Hvbc ltac:(lia))
    as (r & Hr & Htr & Hvr).
  rewrite <- app_assoc in Htl.
  exists l, r, ca, cb, cc. split_and!; try done.
  - rewrite Hab. cbn [mbind option_bind]. exact Hl.
  - rewrite Hbc. cbn [mbind option_bind]. exact Hr.
  - apply to_string_has_text; [| done]. by eapply has_text_length_nonneg.
  - apply to_string_has_text; [| done]. by eapply has_text_length_nonneg.
  - rewrite (string_equals_text l r _ _ Htl Htr). by rewrite bool_decide_eq_true_2.
  - rewrite (string_equals_text r l _ _ Htr Htl). by rewrite bool_decide_eq_true_2.
Qed.

Lemma w_concat_assoc_witness :
  ∃ (l r : string) (ca cb cc : list Z),
    string_to_string (simple_string (U "a")) = Some ca
    ∧ string_to_string (simple_string []) = Some cb
    ∧ string_to_string (simple_string (U "c")) = Some cc
    ∧ (w_concat (mk_context None [string_ref (simple_string []);
                                  string_ref (simple_string (U "a"))])
       ≫= λ ctx, w_concat (push ctx (string_ref (simple_string (U "c")))))
      = Some (mk_context None [string_ref l])
    ∧ (w_concat (mk_context None [string_ref (simple_string (U "c"));
                                  string_ref (simple_string []);
                                  string_ref (simple_string (U "a"))])
       ≫= w_concat)
      = Some (mk_context None [string_ref r])
    ∧ string_valid l ∧ string_valid r
    ∧ string_to_string l = Some (ca ++ cb ++ cc)
    ∧ string_to_string r = Some (ca ++ cb ++ cc)
    ∧ string_equals l (string_ref r) = Some true
    ∧ string_equals r (string_ref l) = Some true.
Proof.
  apply (w_concat_assoc None [] (simple_string (U "a")) (simple_string [])
           (simple_string (U "c"))); vm_compute; done.
Defined.

(** X22: [reverse] turns [+] around.  For two strings that keep the rope
    invariant and whose lengths add up below 2^64, [x y + reverse] leaves
    a new [simple_string] holding the reversed text of [y] followed by
    the reversed text of [x], and that is the text of the string
    [y reverse x reverse +] leaves. *)
Theorem w_reverse_concat (err : option error) (rest : list ref_value)
    (x y : string) (Hx : string_valid x) (Hy : string_valid y)
    (Hsum : string_length x + string_length y < size_modulus) :
  ∃ (cx cy : list Z) (r : string),
    string_to_string x = Some cx ∧ string_to_string y = Some cy
    ∧ (w_concat (mk_context err (string_ref y :: string_ref x :: rest)) ≫= w_reverse)
      = Some (mk_context err
                (string_ref (simple_string (reverse cy ++ reverse cx)) :: rest))
    ∧ ((w_reverse (mk_context err (string_ref y :: rest))
        ≫= λ ctx, w_reverse (push ctx (string_ref x)))
       ≫= w_concat)
      = Some (mk_context err (string_ref r :: rest))
    ∧ string_to_string r = Some (reverse cy ++ reverse cx).
Proof.
  destruct (string_valid_text x Hx) as (cx & Hcx & Htx).
  destruct (string_valid_text y Hy) as (cy & Hcy & Hty).
  destruct (w_concat_text err rest x y cx cy Htx Hty Hx Hy Hsum)
    as (xy & Hxy & Htxy & _).
  pose proof Htx as [Hlx _]. pose proof Hty as [Hly _].
  pose proof (string_valid_length x Hx) as Hbx.
  pose proof (string_valid_length y Hy) as Hby.
  destruct (w_concat_text err rest (simple_string (reverse cy))
              (simple_string (reverse cx)) _ _
              (has_text_simple _) (has_text_simple _))
    as (r & Hr & Htr & _).
  { simpl. rewrite length_reverse. lia. }
  { simpl. rewrite length_reverse. lia. }
  { simpl. rewrite !length_reverse. lia. }
  exists cx, cy, r. split_and!; [done | done | | |].
  - rewrite Hxy. cbn [mbind option_bind].
    by rewrite (w_reverse_text err rest xy _ Htxy), reverse_app.
  - rewrite (w_reverse_text err rest y cy Hty). cbn [mbind option_bind].
    unfold push. cbn [m_error m_data].
    rewrite (w_reverse_text err _ x cx Htx). cbn [mbind option_bind]. exact Hr.
  - apply to_string_has_text; [| done]. by eapply has_text_length_nonneg.
Qed.

Lemma w_reverse_concat_witness :
  ∃ (cx cy : list Z) (r : string),
    string_to_string (simple_string (U "ab")) = Some cx
    ∧ string_to_string (simple_string (U "cd")) = Some cy
    ∧ (w_concat (mk_context None [string_ref (simple_string (U "cd"));
                                  string_ref (simple_string (U "ab"))])
       ≫= w_reverse)
      = Some (mk_context None [string_ref (simple_string (reverse cy ++ reverse cx))])
    ∧ ((w_reverse (mk_context None [string_ref (simple_string (U "cd"))])
        ≫= λ ctx, w_reverse (push ctx (string_ref (simple_string (U "ab")))))
       ≫= w_concat)
      = Some (mk_context None [string_ref r])
    ∧ string_to_string r = Some (reverse cy ++ reverse cx).
Proof.
  apply (w_reverse_concat None [] (simple_string (U "ab")) (simple_string (U "cd")));
    vm_compute; done.
Defined.

(** ** Word [*], continued *)

(** X23: away from the count -2^63, [*] does not look at the sign of the
    count: on a string that keeps the rope invariant the integer counts
    [k] and [-k] leave the same new [simple_string], the text of the
    string [|k|] times over, [|k|] times as long as the string; with the
    count 2 its text is the text [+] gives for the string and itself. *)
Theorem w_repeat_sign (err : option error) (rest : list ref_value)
    (s : string) (k : Z)
    (Hvalid : string_valid s) (Hk : - int64_max ≤ k ≤ int64_max) :
  ∃ cs : list Z,
    string_to_string s = Some cs
    ∧ w_repeat (mk_context err (string_ref s :: Some (val_number (number_int k)) :: rest))
      = Some (mk_context err
                (string_ref (simple_string (concat (replicate (Z.to_nat (Z.abs k)) cs)))
                 :: rest))
    ∧ w_repeat (mk_context err
                  (string_ref s :: Some (val_number (number_int (- k))) :: rest))
      = w_repeat (mk_context err
                    (string_ref s :: Some (val_number (number_int k)) :: rest))
    ∧ Z.of_nat (length (concat (replicate (Z.to_nat (Z.abs k)) cs)))
      = Z.abs k * string_length s
    ∧ (2 * string_length s < size_modulus →
       ∃ r : string,
         w_concat (mk_context err (string_ref s :: string_ref s :: rest))
         = Some (mk_context err (string_ref r :: rest))
         ∧ string_to_string r = Some (concat (replicate 2 cs))).
Proof.
  assert (Hmin : int64_min < k ≤ int64_max ∧ int64_min < - k ≤ int64_max)
    by (unfold int64_min, int64_max in *; lia).
  destruct Hmin as [Hpos Hneg].
  destruct (w_repeat_text err rest s (number_int k) Hvalid Hpos) as (cs & Hcs & Hrun).
  destruct (w_repeat_text err rest s (number_int (- k)) Hvalid Hneg)
    as (cs' & Hcs' & Hrun').
  assert (cs' = cs) as -> by congruence.
  pose proof (string_valid_length s Hvalid) as Hlen.
  assert (Htext : has_text s cs) by (apply to_string_has_text; [lia | done]).
  exists cs. cbn [as_int] in Hrun, Hrun'. split_and!; [done | done | | |].
  - rewrite Hrun, Hrun'. by rewrite Z.abs_opp.
  - destruct Htext as [-> _].
    assert (Hcount : ∀ n : nat,
              length (concat (replicate n cs)) = (n * length cs)%nat).
    { induction n as [| n IH]; [done |]. cbn [replicate concat].
      rewrite length_app, IH. lia. }
    rewrite Hcount. lia.
  - intros Htwo.
    destruct (w_concat_text err rest s s cs cs Htext Htext Hvalid Hvalid ltac:(lia))
      as (r & Hr & Htr & _).
    exists r. split; [done |]. cbn [replicate concat]. rewrite app_nil_r.
    apply to_string_has_text; [| done]. by eapply has_text_length_nonneg.
Qed.

Lemma w_repeat_sign_witness :
  ∃ cs : list Z,
    string_to_string (simple_string (U "ab")) = Some cs
    ∧ w_repeat (mk_context None [string_ref (simple_string (U "ab"));
                                 Some (val_number (number_int (- 3)))])
      = Some (mk_context None
                [string_ref (simple_string (concat (replicate 3 cs)))])
    ∧ w_repeat (mk_context None [string_ref (simple_string (U "ab"));
                                 Some (val_number (number_int 3))])
      = w_repeat (mk_context None [string_ref (simple_string (U "ab"));
                                   Some (val_number (number_int (- 3)))]).
Proof.
  destruct (w_repeat_sign None [] (simple_string (U "ab")) (- 3))
    as (cs & Hcs & Hrun & Hsame & _).
  - vm_compute. done.
  - vm_compute. split; discriminate.
  - exists cs. split_and!; [done | exact Hrun | exact Hsame].
Defined.

(** ** Word [@], continued *)

(** X24: inside the string [@] reads what [string::to_string] holds.  On
    a string that keeps the rope invariant and is no longer than 2^63 - 1,
    an index [k] with [0 ≤ k < length] and the negative index
    [k - length] both leave the string on the stack and, on top of it, a
    new one-code-point string holding the code point of the text at [k];
    an index above the length or more than the length below zero sets the
    range error and leaves the string alone. *)
Theorem w_get_reads (err : option error) (rest : list ref_value)
    (s : string) (k : Z)
    (Hvalid : string_valid s) (Hlen : string_length s ≤ int64_max) :
  ∃ cs : list Z,
    string_to_string s = Some cs
    ∧ (0 ≤ k < string_length s →
       ∃ c, cs !! Z.to_nat k = Some c
            ∧ w_get (mk_context err
                       (string_ref s :: Some (val_number (number_int k)) :: rest))
              = Some (mk_context err
                        (string_ref (simple_string [c]) :: string_ref s :: rest))
            ∧ w_get (mk_context err
                       (string_ref s
                        :: Some (val_number (number_int (k - string_length s))) :: rest))
              = Some (mk_context err
                        (string_ref (simple_string [c]) :: string_ref s :: rest)))
    ∧ (string_length s < k ≤ int64_max ∨ int64_min ≤ k < - string_length s →
       w_get (mk_context err
                (string_ref s :: Some (val_number (number_int k)) :: rest))
       = Some (mk_context (Some (mk_error code_range (U "String index out of bounds.")))
                 (string_ref s :: rest))).
Proof.
  destruct (string_valid_text s Hvalid) as (cs & Hcs & Htext).
  pose proof (string_valid_length s Hvalid) as Hbound.
  pose proof Htext as [Hl _].
  exists cs. split_and!; [done | |].
  - intros Hk. destruct (lookup_lt_is_Some_2 cs (Z.to_nat k)) as [c Hc]; [lia |].
    exists c. split_and!; [done | |].
    + destruct (w_get_text err rest s cs (number_int k) Htext Hlen) as [_ Hin].
      { cbn [as_int]. unfold int64_min, int64_max in *. lia. }
      cbn [as_int] in Hin. rewrite (bool_decide_eq_false_2 (k < 0)) in Hin by lia.
      by apply Hin.
    + destruct (w_get_text err rest s cs (number_int (k - string_length s)) Htext Hlen)
        as [_ Hin].
      { cbn [as_int]. unfold int64_min, int64_max in *. lia. }
      cbn [as_int] in Hin.
      rewrite (bool_decide_eq_true_2 (k - string_length s < 0)) in Hin by lia.
      apply Hin; [lia |]. by replace (k - string_length s + string_length s) with k by lia.
  - intros Hout.
    destruct (w_get_text err rest s cs (number_int k) Htext Hlen) as [Herr _].
    { cbn [as_int]. unfold int64_min, int64_max in *. lia. }
    cbn [as_int] in Herr. apply Herr. case_bool_decide; lia.
Qed.

Lemma w_get_reads_witness :
  ∃ c, U "hello" !! 1%nat = Some c
       ∧ w_get (mk_context None [string_ref (simple_string (U "hello"));
                                 Some (val_number (number_int 1))])
         = Some (mk_context None [string_ref (simple_string [c]);
                                  string_ref (simple_string (U "hello"))])
       ∧ w_get (mk_context None [string_ref (simple_string (U "hello"));
                                 Some (val_number (number_int (- 4)))])
         = Some (mk_context None [string_ref (simple_string [c]);
                                  string_ref (simple_string (U "hello"))]).
Proof.
  destruct (w_get_reads None [] (simple_string (U "hello")) 1)
    as (cs & Hcs & Hin & _).
  - vm_compute. done.
  - vm_compute. discriminate.
  - injection Hcs as <-. apply Hin. vm_compute. split; [discriminate | done].
Defined.

(** X25: [reverse] mirrors the indices of [@].  On a string that keeps
    the rope invariant and is no longer than 2^63 - 1, the code point [@]
    reads at index [k] of the reversed string is the one it reads at the
    negative index [-(k + 1)] of the string itself. *)
Theorem w_get_reverse (err : option error) (rest : list ref_value)
    (s : string) (k : Z)
    (Hvalid : string_valid s) (Hlen : string_length s ≤ int64_max)
    (Hk : 0 ≤ k < string_length s) :
  ∃ (r : string) (c : Z),
    w_reverse (mk_context err (string_ref s :: rest))
    = Some (mk_context err (string_ref r :: rest))
    ∧ w_get (mk_context err (string_ref r :: Some (val_number (number_int k)) :: rest))
      = Some (mk_context err (string_ref (simple_string [c]) :: string_ref r :: rest))
    ∧ w_get (mk_context err
               (string_ref s :: Some (val_number (number_int (- (k + 1)))) :: rest))
      = Some (mk_context err (string_ref (simple_string [c]) :: string_ref s :: rest)).
Proof.
  destruct (string_valid_text s Hvalid) as (cs & Hcs & Htext).
  pose proof Htext as [Hl _].
  destruct (lookup_lt_is_Some_2 (reverse cs) (Z.to_nat k)) as [c Hc].
  { rewrite length_reverse. lia. }
  exists (simple_string (reverse cs)), c. split_and!.
  - by apply w_reverse_text.
  - destruct (w_get_text err rest (simple_string (reverse cs)) (reverse cs)
                (number_int k) (has_text_simple _)) as [_ Hin].
    { simpl. rewrite length_reverse. lia. }
    { cbn [as_int]. unfold int64_min, int64_max in *. lia. }
    cbn [as_int] in Hin. rewrite (bool_decide_eq_false_2 (k < 0)) in Hin by lia.
    apply Hin; [| done]. simpl. rewrite length_reverse. lia.
  - destruct (w_get_text err rest s cs (number_int (- (k + 1))) Htext Hlen)
      as [_ Hin].
    { cbn [as_int]. unfold int64_min, int64_max in *. lia. }
    cbn [as_int] in Hin.
    rewrite (bool_decide_eq_true_2 (- (k + 1) < 0)) in Hin by lia.
    apply Hin; [lia |].
    rewrite reverse_lookup in Hc by lia.
    rewrite <- Hc. f_equal. lia.
Qed.

Lemma w_get_reverse_witness :
  ∃ (r : string) (c : Z),
    w_reverse (mk_context None [string_ref (simple_string (U "abc"))])
    = Some (mk_context None [string_ref r])
    ∧ w_get (mk_context None [string_ref r; Some (val_number (number_int 0))])
      = Some (mk_context None [string_ref (simple_string [c]); string_ref r])
    ∧ w_get (mk_context None [string_ref (simple_string (U "abc"));
                              Some (val_number (number_int (- (0 + 1))))])
      = Some (mk_context None [string_ref (simple_string [c]);
                               string_ref (simple_string (U "abc"))]).
Proof.
  apply (w_get_reverse None [] (simple_string (U "abc")) 0).
  - vm_compute. done.
  - vm_compute. discriminate.
  - vm_compute. split; [discriminate | done].
Defined.

(** ** Where the slices of [lines] and [words] lie *)

Lemma spans_apart_from (from from' limit : Z) (spans : list (Z * Z)) :
  from ≤ from' → spans_apart from' limit spans → spans_apart from limit spans.
Proof.
  intros Hle. destruct spans as [| span rest]; [done |].
  intros (Hb & Hn & Hend & Hrest). cbn [spans_apart]. split_and!; [lia | done ..].
Qed.

Lemma line_spans_apart (n : nat) :
  ∀ (text : list Z) (begin len : Z), (length text ≤ n)%nat → 0 ≤ len →
    spans_apart begin (begin + len + Z.of_nat (length text))
      (line_spans begin len text).
Proof.
  induction n as [| n IH]; intros text begin len Hn Hlen.
  - destruct text; [| simpl in Hn; lia]. cbn [line_spans].
    case_bool_decide; [| done]. cbn [spans_apart fst snd length].
    split_and!; (done || lia).
  - destruct text as [| c rest]; cbn [line_spans].
    { case_bool_decide; [| done]. cbn [spans_apart fst snd length].
      split_and!; (done || lia). }
    cbn [length] in Hn.
    assert (Hone : spans_apart begin (begin + len + Z.of_nat (length (c :: rest)))
                     ((begin, len) :: line_spans (begin + len + 1) 0 rest)).
    { cbn [spans_apart fst snd length]. split_and!; [lia | done | lia |].
      pose proof (IH rest (begin + len + 1) 0 ltac:(lia) ltac:(lia)) as Hrest.
      replace (begin + len + Z.of_nat (S (length rest)))
        with (begin + len + 1 + 0 + Z.of_nat (length rest)) by lia.
      done. }
    case_bool_decide as Hcr.
    + destruct rest as [| d rest']; [done |].
      case_bool_decide as Hlf; [| done].
      cbn [length] in Hn. cbn [spans_apart fst snd length].
      split_and!; [lia | done | lia |].
      pose proof (IH rest' (begin + len + 2) 0 ltac:(lia) ltac:(lia)) as Hrest.
      apply (spans_apart_from _ (begin + len + 2)); [lia |].
      replace (begin + len + Z.of_nat (S (S (length rest'))))
        with (begin + len + 2 + 0 + Z.of_nat (length rest')) by lia.
      done.
    + case_bool_decide as Hlf; [done |].
      pose proof (IH rest begin (len + 1) ltac:(lia) ltac:(lia)) as Hrest.
      cbn [length].
      replace (begin + len + Z.of_nat (S (length rest)))
        with (begin + (len + 1) + Z.of_nat (length rest)) by lia.
      done.
Qed.

Lemma word_spans_apart (isspace : Z → bool) (text : list Z) :
  ∀ begin len : Z, 0 ≤ len →
    spans_apart begin (begin + len + Z.of_nat (length text))
      (word_spans isspace begin len text).
Proof.
  induction text as [| c rest IH]; intros begin len Hlen; cbn [word_spans].
  - case_bool_decide; [| done]. cbn [spans_apart fst snd length].
    split_and!; (done || lia).
  - pose proof (IH (begin + len + 1) 0 ltac:(lia)) as Hnew.
    replace (begin + len + 1 + 0 + Z.of_nat (length rest))
      with (begin + len + Z.of_nat (length (c :: rest))) in Hnew
      by (cbn [length]; lia).
    destruct (isspace c).
    + case_bool_decide.
      * cbn [spans_apart fst snd]. split_and!; [lia | done | lia | done].
      * apply (spans_apart_from _ (begin + len + 1)); [lia | done].
    + pose proof (IH begin (len + 1) ltac:(lia)) as Hrest.
      replace (begin + (len + 1) + Z.of_nat (length rest))
        with (begin + len + Z.of_nat (length (c :: rest))) in Hrest
        by (cbn [length]; lia).
      done.
Qed.

(** Spans that lie inside a valid rope are slices that keep the rope
    invariant. *)
Lemma spans_apart_valid (s : string) (spans : list (Z * Z)) :
  string_valid s →
  ∀ from : Z, 0 ≤ from → spans_apart from (string_length s) spans →
    Forall (λ span : Z * Z, string_valid (substring s span.1 span.2)) spans.
Proof.
  intros Hvalid. induction spans as [| span rest IH]; intros from Hfrom; [done |].
  intros (Hb & Hn & Hend & Hrest). apply Forall_cons_2.
  - cbn [string_valid]. split_and!; (done || lia).
  - apply (IH (span.1 + span.2 + 1)); [lia | done].
Qed.

(** What [words] leaves on the stack for a string with a text. *)
Lemma w_words_run (isspace : Z → bool) (err : option error)
    (rest : list ref_value) (s : string) (cs : list Z) :
  has_text s cs → string_length s < size_modulus →
  w_words isspace (mk_context err (string_ref s :: rest))
  = Some (mk_context err
            (Some (val_array (span_slice s <$> word_spans isspace 0 0 cs))
             :: string_ref s :: rest)).
Proof.
  intros Htext Hlen. pose proof Htext as [Hl _].
  pose proof (words_loop_spans isspace s cs (length cs) Htext ltac:(lia) 0%nat 0 []
                ltac:(lia) ltac:(lia)) as Hloop.
  rewrite drop_0 in Hloop. cbn [app] in Hloop.
  change (Z.of_nat 0) with 0 in Hloop. rewrite Z.sub_diag in Hloop.
  unfold w_words. rewrite pop_string_top. rewrite Hl, Nat2Z.id.
  destruct (words_loop _ _ _ _ _ _ _) as [[[begin end_] result] |]; [| done].
  injection Hloop as Hloop. unfold words_finish in Hloop.
  cbn [mbind option_bind]. rewrite Hloop.
  unfold push_array, push. cbn [m_data m_error].
  by rewrite Nat2Z.id, take_ge by lia.
Qed.

(** X26: on a string that keeps the rope invariant, the slices that
    [lines] and [words] put in their arrays come from left to right,
    lie inside the string, and leave at least one code point (the
    separator) between one slice and the next; every one of them keeps
    the rope invariant. *)
Theorem w_lines_words_apart (isspace : Z → bool) (err : option error)
    (rest : list ref_value) (s : string) (Hvalid : string_valid s) :
  ∃ lspans wspans : list (Z * Z),
    w_lines (mk_context err (string_ref s :: rest))
    = Some (mk_context err
              (Some (val_array (span_slice s <$> lspans)) :: string_ref s :: rest))
    ∧ w_words isspace (mk_context err (string_ref s :: rest))
      = Some (mk_context err
                (Some (val_array (span_slice s <$> wspans)) :: string_ref s :: rest))
    ∧ spans_apart 0 (string_length s) lspans
    ∧ spans_apart 0 (string_length s) wspans
    ∧ Forall (λ span : Z * Z, string_valid (substring s span.1 span.2)) lspans
    ∧ Forall (λ span : Z * Z, string_valid (substring s span.1 span.2)) wspans.
Proof.
  destruct (string_valid_text s Hvalid) as (cs & Hcs & Htext).
  pose proof (string_valid_length s Hvalid) as Hlen.
  pose proof Htext as [Hl _].
  destruct (w_lines_run err rest s cs Htext ltac:(lia)) as [Hlines _].
  pose proof (w_words_run isspace err rest s cs Htext ltac:(lia)) as Hwords.
  pose proof (line_spans_apart (length cs) cs 0 0 ltac:(lia) ltac:(lia)) as Hla.
  pose proof (word_spans_apart isspace cs 0 0 ltac:(lia)) as Hwa.
  rewrite !Z.add_0_l, <- Hl in Hla, Hwa.
  exists (line_spans 0 0 cs), (word_spans isspace 0 0 cs).
  split_and!; [done | done | done | done | |].
  - by apply (spans_apart_valid s _ Hvalid 0).
  - by apply (spans_apart_valid s _ Hvalid 0).
Qed.

Lemma w_lines_words_apart_witness :
  ∃ lspans wspans : list (Z * Z),
    w_lines (mk_context None [string_ref (simple_string (U "a b" ++ [10] ++ U "c"))])
    = Some (mk_context None
              [Some (val_array
                       (span_slice (simple_string (U "a b" ++ [10] ++ U "c")) <$> lspans));
               string_ref (simple_string (U "a b" ++ [10] ++ U "c"))])
    ∧ w_words (λ c, bool_decide (c = 32 ∨ c = 10))
        (mk_context None [string_ref (simple_string (U "a b" ++ [10] ++ U "c"))])
      = Some (mk_context None
                [Some (val_array
                         (span_slice (simple_string (U "a b" ++ [10] ++ U "c"))
                            <$> wspans));
                 string_ref (simple_string (U "a b" ++ [10] ++ U "c"))])
    ∧ spans_apart 0 5 lspans
    ∧ spans_apart 0 5 wspans.
Proof.
  destruct (w_lines_words_apart (λ c, bool_decide (c = 32 ∨ c = 10)) None []
              (simple_string (U "a b" ++ [10] ++ U "c")))
    as (lspans & wspans & Hlines & Hwords & Hla & Hwa & _); [vm_compute; done |].
  exists lspans, wspans. split_and!; [exact Hlines | exact Hwords | exact Hla | exact Hwa].
Defined.
